(** * DOT towing verifier: a shallow embedding of [dot.py]

    The development follows the layout of the Python module: text
    utilities and the regular expressions first, then the matcher
    functions, the search client, the per-company orchestration, the
    worker loop and finally the coordinator ([main]).

    Modelling conventions.
    - A Python [str] is a [list ascii]; a character is a code point in
      the range 0..255 (Latin-1), classified and lower-cased the way
      CPython does on that range.
    - [None], a float NaN (a missing cell of the data frame) and a
      string are the three values a data-frame cell takes here
      ([pyval]).
    - Sleeps and log lines have no effect on the state that the
      properties talk about and are left out.
    - The renderer (Playwright) is an oracle: what a navigation, a DOM
      query or a session operation answers is a function of the number
      of renderer calls made so far. *)

From Stdlib Require Import List Ascii String ZArith Lia Bool Arith Permutation
  Sorted.
From stdpp Require Import gmap.
Import ListNotations.

Set Default Goal Selector "1".
#[local] Open Scope nat_scope.

(** ** Characters and strings *)

Module Py.

Definition pystr := list ascii.

Definition str (s : string) : pystr := list_ascii_of_string s.
Arguments str s%_string.

Definition code (c : ascii) : nat := nat_of_ascii c.

Definition in_range (lo hi : nat) (c : ascii) : bool :=
  (lo <=? code c) && (code c <=? hi).

(** [str.isspace] / the regex class [\s] on code points below 256. *)
Definition is_space (c : ascii) : bool :=
  in_range 9 13 c || in_range 28 32 c
  || (code c =? 133) || (code c =? 160).

(** The regex class [\d] (decimal digits). *)
Definition is_decimal (c : ascii) : bool := in_range 48 57 c.

(** [str.isdigit]: decimal digits and the superscripts 1, 2, 3. *)
Definition is_digit (c : ascii) : bool :=
  is_decimal c || (code c =? 178) || (code c =? 179) || (code c =? 185).

(** The regex class [\w]: [str.isalnum] or an underscore. *)
Definition is_word (c : ascii) : bool :=
  in_range 48 57 c || in_range 65 90 c || (code c =? 95)
  || in_range 97 122 c
  || (code c =? 170) || (code c =? 178) || (code c =? 179)
  || (code c =? 181) || (code c =? 185) || (code c =? 186)
  || in_range 188 190 c
  || in_range 192 214 c || in_range 216 246 c || in_range 248 255 c.

(** [str.lower] on one code point. *)
Definition lower_char (c : ascii) : ascii :=
  if in_range 65 90 c || in_range 192 214 c || in_range 216 222 c
  then ascii_of_nat (code c + 32) else c.

Definition lower (s : pystr) : pystr := map lower_char s.

Definition eqb_char (a b : ascii) : bool := Ascii.eqb a b.

Fixpoint eqb_str (a b : pystr) : bool :=
  match a, b with
  | [], [] => true
  | x :: a', y :: b' => eqb_char x y && eqb_str a' b'
  | _, _ => false
  end.

(** [s.startswith(p)] *)
Fixpoint startswith (p s : pystr) : bool :=
  match p, s with
  | [], _ => true
  | x :: p', y :: s' => eqb_char x y && startswith p' s'
  | _ :: _, [] => false
  end.

(** [p in s] for strings. *)
Fixpoint contains (p s : pystr) : bool :=
  startswith p s ||
  match s with
  | [] => false
  | _ :: s' => contains p s'
  end.

(** [s.strip()]: drop leading and trailing white space. *)
Fixpoint lstrip (s : pystr) : pystr :=
  match s with
  | c :: s' => if is_space c then lstrip s' else s
  | [] => []
  end.

Definition rstrip (s : pystr) : pystr := rev (lstrip (rev s)).

Definition strip (s : pystr) : pystr := rstrip (lstrip s).

(** [s.split()]: the maximal runs of non-space characters. *)
Fixpoint split_aux (cur : pystr) (s : pystr) : list pystr :=
  match s with
  | [] => match cur with [] => [] | _ => [rev cur] end
  | c :: s' =>
      if is_space c
      then match cur with
           | [] => split_aux [] s'
           | _ => rev cur :: split_aux [] s'
           end
      else split_aux (c :: cur) s'
  end.

Definition split (s : pystr) : list pystr := split_aux [] s.

(** [sep.join(parts)] *)
Fixpoint join (sep : pystr) (parts : list pystr) : pystr :=
  match parts with
  | [] => []
  | [p] => p
  | p :: rest => p ++ sep ++ join sep rest
  end.

(** [s.replace(old_char, new)] for a one-character [old]. *)
Definition replace_char (old : ascii) (new : pystr) (s : pystr) : pystr :=
  flat_map (fun c => if eqb_char c old then new else [c]) s.

(** A cell of the data frame. *)
Inductive pyval :=
| PyNone
| PyNaN
| PyStr (s : pystr).

(** Python truthiness of a cell: [None] and [''] are false, NaN is true. *)
Definition truthy (v : pyval) : bool :=
  match v with
  | PyNone => false
  | PyNaN => true
  | PyStr [] => false
  | PyStr _ => true
  end.

(** [str(v)] *)
Definition to_str (v : pyval) : pystr :=
  match v with
  | PyNone => str "None"
  | PyNaN => str "nan"
  | PyStr s => s
  end.

(** [pd.notna(v)] *)
Definition notna (v : pyval) : bool :=
  match v with
  | PyStr _ => true
  | _ => false
  end.

End Py.
Import Py.

(** ** Regular expressions

    The fragment of Python's [re] syntax that the program uses:
    literals, one-character classes, concatenation, ordered
    alternation, the greedy [?], the greedy [*] over a one-character
    class (which gives [.*] and [\w+]) and the word boundary [\b].
    The matcher is a backtracking matcher with the priorities of
    Python's: the left alternative first, the longer repetition
    first. *)

Module Re.

Inductive regex :=
| RChar (c : ascii)
| RSet (p : ascii -> bool)
| RSeq (r1 r2 : regex)
| RAlt (r1 r2 : regex)
| ROpt (r : regex)
| RStar (p : ascii -> bool)
| RWordB.

(** [.] matches anything but a newline. *)
Definition dot (c : ascii) : bool := negb (code c =? 10).

(** A literal word. *)
Fixpoint lit (s : pystr) : regex :=
  match s with
  | [] => ROpt (RSet (fun _ => false))
  | [c] => RChar c
  | c :: s' => RSeq (RChar c) (lit s')
  end.

(** [(a|b|...)] *)
Fixpoint alts (r : regex) (rs : list regex) : regex :=
  match rs with
  | [] => r
  | r' :: rs' => RAlt r (alts r' rs')
  end.

(** [c+] for a one-character class. *)
Definition plus (p : ascii -> bool) : regex := RSeq (RSet p) (RStar p).

Definition is_word_opt (o : option ascii) : bool :=
  match o with
  | Some c => is_word c
  | None => false
  end.

(** [\b] holds between a word character and a non-word character or
    an end of the string. *)
Definition at_boundary (prev : option ascii) (s : pystr) : bool :=
  xorb (is_word_opt prev) (is_word_opt (head s)).

Section Matcher.

(** The flag [re.IGNORECASE]. *)
Variable ignorecase : bool.

Definition char_matches (c x : ascii) : bool :=
  if ignorecase then eqb_char (lower_char c) (lower_char x)
  else eqb_char c x.

Section Continuation.

Context {A : Type}.

Fixpoint star (p : ascii -> bool) (prev : option ascii) (s : pystr)
  (k : option ascii -> pystr -> option A) : option A :=
  match s with
  | c :: s' =>
      if p c
      then match star p (Some c) s' k with
           | Some x => Some x
           | None => k prev s
           end
      else k prev s
  | [] => k prev s
  end.

(** [run r prev s k]: match [r] at the front of [s], whose
    predecessor in the subject is [prev], then continue with [k] on
    what is left; the first success in priority order wins. *)
Fixpoint run (r : regex) (prev : option ascii) (s : pystr)
  (k : option ascii -> pystr -> option A) : option A :=
  match r with
  | RChar c =>
      match s with
      | x :: s' => if char_matches c x then k (Some x) s' else None
      | [] => None
      end
  | RSet p =>
      match s with
      | x :: s' => if p x then k (Some x) s' else None
      | [] => None
      end
  | RSeq r1 r2 => run r1 prev s (fun prev' s' => run r2 prev' s' k)
  | RAlt r1 r2 =>
      match run r1 prev s k with
      | Some x => Some x
      | None => run r2 prev s k
      end
  | ROpt r1 =>
      match run r1 prev s k with
      | Some x => Some x
      | None => k prev s
      end
  | RStar p => star p prev s k
  | RWordB => if at_boundary prev s then k prev s else None
  end.

End Continuation.

(** The match of [r] that starts at the front of [s]: what is left
    of [s] after it. *)
Definition match_at (r : regex) (prev : option ascii) (s : pystr)
  : option pystr :=
  run r prev s (fun _ rest => Some rest).

(** [re.match(r, s)]: the text matched at the start of [s]. *)
Definition re_match (r : regex) (s : pystr) : option pystr :=
  match match_at r None s with
  | Some rest => Some (firstn (length s - length rest) s)
  | None => None
  end.

Fixpoint search_from (r : regex) (prev : option ascii) (s : pystr) : bool :=
  match match_at r prev s with
  | Some _ => true
  | None =>
      match s with
      | [] => false
      | c :: s' => search_from r (Some c) s'
      end
  end.

(** [bool(re.search(r, s))] *)
Definition re_search (r : regex) (s : pystr) : bool := search_from r None s.

(** [re.sub(r, '', s)] for a pattern that has no empty match: the
    matches are found from left to right, each search starting where
    the previous match ended, and are dropped. [skip] counts the
    characters of the current match still to drop. *)
Fixpoint sub_go (r : regex) (prev : option ascii) (s : pystr) (skip : nat)
  : pystr :=
  match s with
  | [] => []
  | c :: s' =>
      match skip with
      | S n => sub_go r (Some c) s' n
      | O =>
          match match_at r prev s with
          | Some rest =>
              match length s - length rest with
              | S n => sub_go r (Some c) s' n
              | O => c :: sub_go r (Some c) s' 0
              end
          | None => c :: sub_go r (Some c) s' 0
          end
      end
  end.

Definition re_sub_del (r : regex) (s : pystr) : pystr := sub_go r None s 0.

End Matcher.

(** [re.sub(cls, repl, s)] for a pattern that is a one-character
    class. *)
Definition re_sub_set (p : ascii -> bool) (repl : pystr) (s : pystr) : pystr :=
  flat_map (fun c => if p c then repl else [c]) s.

End Re.
Import Re.

(** ** Configuration *)

Definition MAX_URLS_TO_CHECK : nat := 10.

Definition STATE_NAMES : list (pystr * list pystr) :=
  [ (str "MA", [str "massachusetts"]); (str "CT", [str "connecticut"]);
    (str "RI", [str "rhode island"]); (str "NH", [str "new hampshire"]);
    (str "VT", [str "vermont"]); (str "ME", [str "maine"]);
    (str "NY", [str "new york"]) ].

Definition SKIP_DOMAINS : list pystr :=
  [ str "duck.ai"; str "duckduckgo.com"; str "bing.com"; str "google.com";
    str "apple.com"; str "apps.apple.com"; str "maps.apple.com";
    str "webcache.googleusercontent.com" ].

Definition PRIORITY_DOMAINS : list pystr :=
  [ str "facebook.com"; str "yellowpages.com"; str "mapquest.com";
    str "bbb.org"; str "chamberofcommerce.com"; str "manta.com" ].

Definition PRIMARY_TOW_KEYWORDS : list pystr :=
  [ str "towing service"; str "tow truck"; str "tow service"; str "we tow";
    str "our towing"; str "towing company"; str "wrecker service";
    str "flatbed tow"; str "24 hour tow"; str "emergency towing";
    str "24/7 towing"; str "local towing"; str "towing rates";
    str "tow your"; str "towing needs"; str "professional towing";
    str "towing available"; str "heavy duty towing"; str "light duty towing";
    str "medium duty towing"; str "roadside assistance";
    str "vehicle recovery"; str "accident recovery"; str "jump start";
    str "lockout service"; str "winch out"; str "winching" ].

Definition SECONDARY_TOW_KEYWORDS : list pystr :=
  [ str "towing"; str "tow"; str "wrecker"; str "wrecking" ].

(** [towing in \w+] and the like: a literal followed by [\w+]. *)
Definition lit_then_word (s : string) : regex :=
  RSeq (lit (str s)) (plus is_word).

(** [related.*towing] and the like: two literals with [.*] between. *)
Definition lit_any_lit (a b : string) : regex :=
  RSeq (lit (str a)) (RSeq (RStar dot) (lit (str b))).

Definition FALSE_POSITIVE_PATTERNS : list regex :=
  [ lit_then_word "towing in "; lit_then_word "towing near ";
    lit_then_word "towing services in ";
    RSeq (plus is_word) (lit (str " towing companies"));
    lit (str "more towing"); lit_any_lit "related" "towing";
    lit_any_lit "see more" "towing"; lit (str "other towing");
    lit (str "find towing"); lit_any_lit "search" "towing";
    lit_any_lit "browse" "towing";
    lit_any_lit "people also viewed" "towing";
    lit_any_lit "you might also like" "towing";
    lit_any_lit "similar" "towing" ].

Definition TOW_ROOTS : list pystr :=
  [ str "tow"; str "towing"; str "tows"; str "towed"; str "wrecker";
    str "wrecking" ].

Definition SUFFIXES : list pystr :=
  [ str "INC"; str "LLC"; str "CORP"; str "CO"; str "LTD";
    str "INCORPORATED"; str "CORPORATION" ].

(** [(w1|w2|...)] for a non-empty list of words. *)
Definition words_alt (ws : list pystr) : regex :=
  match ws with
  | [] => lit []
  | w :: ws' => alts (lit w) (map lit ws')
  end.

(** [\b(tow|towing|tows|towed|wrecker|wrecking)\b], [re.IGNORECASE]. *)
Definition TOW_NAME_PATTERN : regex :=
  RSeq RWordB (RSeq (words_alt TOW_ROOTS) RWordB).

(** [\b(INC|LLC|CORP|CO|LTD|INCORPORATED|CORPORATION)\.?\b],
    [re.IGNORECASE]. *)
Definition SUFFIX_PATTERN : regex :=
  RSeq RWordB
    (RSeq (words_alt SUFFIXES) (RSeq (ROpt (RChar "."%char)) RWordB)).

(** ** Utilities *)

(** [clean_company_name] on a string argument. *)
Definition clean_company_name (name : pystr) : option pystr :=
  match name with
  | [] => None
  | _ =>
      let name1 := re_sub_del true SUFFIX_PATTERN name in
      let name2 := replace_char "&"%char (str "and") name1 in
      let name3 :=
        re_sub_set
          (fun c => negb (is_word c || is_space c || eqb_char c "'"%char))
          (str " ") name2 in
      match strip (join (str " ") (split name3)) with
      | [] => None
      | cleaned => Some cleaned
      end
  end.

(** The outcome of a call that may raise. *)
Inductive res (A : Type) :=
| Ok (a : A)
| Raised.
Arguments Ok {A} a.
Arguments Raised {A}.

(** [clean_company_name] on a data-frame cell: [None] is falsy and
    gives [None]; a NaN is truthy, and [re.sub] raises [TypeError] on
    it. *)
Definition clean_company_name_cell (name : pyval) : res (option pystr) :=
  match name with
  | PyNone => Ok None
  | PyNaN => Raised
  | PyStr s => Ok (clean_company_name s)
  end.

Definition normalize_text (text : pyval) : pystr :=
  if truthy text
  then strip
         (re_sub_set (fun c => negb (is_word c || is_space c)) []
            (lower (to_str text)))
  else [].

(** [x or ''] inside an f-string. *)
Definition or_empty (v : pyval) : pystr :=
  if truthy v then to_str v else [].

Definition has_tow_in_name (legal_name dba_name : pyval) : bool :=
  let text := or_empty legal_name ++ str " " ++ or_empty dba_name in
  re_search true TOW_NAME_PATTERN text.

Definition is_valid_url (url : option pystr) : bool :=
  match url with
  | None => false
  | Some [] => false
  | Some u =>
      if startswith (str "http") u
      then negb (existsb (fun skip => contains skip (lower u)) SKIP_DOMAINS)
      else false
  end.

Fixpoint first_index (url_lower : pystr) (i : nat) (domains : list pystr)
  : nat :=
  match domains with
  | [] => 100
  | d :: rest =>
      if contains d url_lower then i else first_index url_lower (S i) rest
  end.

Definition get_domain_priority (url : pystr) : nat :=
  first_index (lower url) 0 PRIORITY_DOMAINS.

(** ** Matching logic *)

(** The columns of a census row that the program reads. *)
Record row := {
  DOT_NUMBER : Z;
  LEGAL_NAME : pyval;
  DBA_NAME : pyval;
  PHY_STREET : pyval;
  PHY_CITY : pyval;
  PHY_STATE : pyval;
  PHY_ZIP : pyval;
}.

(** [state in STATE_NAMES and any(v in page_lower for v in
    STATE_NAMES[state])]; the keys are strings, so [None] and NaN are
    not among them. *)
Definition state_match (state : pyval) (page_lower : pystr) : bool :=
  match state with
  | PyStr s =>
      match find (fun kv => eqb_str (fst kv) s) STATE_NAMES with
      | Some (_, names) => existsb (fun v => contains v page_lower) names
      | None => false
      end
  | _ => false
  end.

(** [^(\d{2,})] *)
Definition STREET_NUM_PATTERN : regex :=
  RSeq (RSet is_decimal) (RSeq (RSet is_decimal) (RStar is_decimal)).

Definition check_address_match (page_text : pystr) (r : row) : bool :=
  let page_lower := normalize_text (PyStr page_text) in
  let city := normalize_text (PHY_CITY r) in
  let city_match :=
    negb (length city =? 0) && (2 <? length city)
    && contains city page_lower in
  let state_ok := state_match (PHY_STATE r) page_lower in
  let zip_code := firstn 5 (to_str (PHY_ZIP r)) in
  let zip_match :=
    (length zip_code =? 5) && forallb is_digit zip_code
    && contains zip_code page_text in
  let street := to_str (PHY_STREET r) in
  let street_match :=
    match re_match false STREET_NUM_PATTERN street with
    | Some num => contains num page_text
    | None => false
    end in
  (city_match && (zip_match || state_ok)) || (zip_match && street_match).

(** [int(len(s) * 0.6)]: the product is rounded to the nearest
    double and truncated, which is the integer quotient of [3 * len]
    by 5 for every length a string can have. *)
Definition sixty_percent (n : nat) : nat := (3 * n) / 5.

Fixpoint false_positive_loop (patterns : list regex) (page_lower : pystr)
  : bool :=
  match patterns with
  | [] => true
  | pattern :: rest =>
      if re_search false pattern page_lower
      then
        let first_portion :=
          firstn (sixty_percent (length page_lower)) page_lower in
        if negb (existsb (fun kw => contains kw first_portion)
                   SECONDARY_TOW_KEYWORDS)
        then false
        else false_positive_loop rest page_lower
      else false_positive_loop rest page_lower
  end.

Definition check_towing_mention (page_text : pystr) : bool :=
  let page_lower := lower page_text in
  if existsb (fun kw => contains kw page_lower) PRIMARY_TOW_KEYWORDS
  then true
  else if negb (existsb (fun kw => contains kw page_lower)
                  SECONDARY_TOW_KEYWORDS)
  then false
  else false_positive_loop FALSE_POSITIVE_PATTERNS page_lower.

(** ** Ordering the candidate URLs *)

(** [sorted(l, key=key)]: Python's sort is stable; insertion from the
    right, each element going in front of the first element whose key
    is not smaller, computes the stable ordering. *)
Section Sorted.

Context {A : Type}.
Variable key : A -> nat.

Fixpoint insert_by (x : A) (l : list A) : list A :=
  match l with
  | [] => [x]
  | y :: l' => if key x <=? key y then x :: l else y :: insert_by x l'
  end.

Fixpoint sorted_by (l : list A) : list A :=
  match l with
  | [] => []
  | x :: l' => insert_by x (sorted_by l')
  end.

End Sorted.

(** [set(urls)] is iterated in hash order, which for strings changes
    from one interpreter run to the next: the order is a parameter,
    and all that is known of it is that it enumerates the distinct
    elements of the list. *)
Definition is_set_order (f : list pystr -> list pystr) : Prop :=
  forall l, NoDup (f l) /\ (forall u, u ∈ f l <-> u ∈ l).

Definition sort_urls_by_priority (set_order : list pystr -> list pystr)
  (urls : list pystr) : list pystr :=
  sorted_by get_domain_priority (set_order urls).

(** One order a set can have: first occurrences, in input order. *)
Fixpoint first_occurrences (seen l : list pystr) : list pystr :=
  match l with
  | [] => []
  | u :: l' =>
      if existsb (eqb_str u) seen then first_occurrences seen l'
      else u :: first_occurrences (u :: seen) l'
  end.

Definition input_order (l : list pystr) : list pystr :=
  first_occurrences [] l.

(** ** Page extraction and the search client *)

(** What the renderer shows after [page.goto(url)] on a candidate
    page. *)
Record page_view := {
  pv_goto_raises : bool;
  pv_status : option nat;
  pv_main_text : res pystr;
  pv_body_text : res pystr;
}.

Definition get_page_text (pv : page_view) : option pystr :=
  if pv_goto_raises pv then None
  else if match pv_status pv with Some st => 400 <=? st | None => false end
  then None
  else
    match pv_main_text pv with
    | Raised => None
    | Ok [] =>
        match pv_body_text pv with
        | Ok t => Some t
        | Raised => None
        end
    | Ok t => Some t
    end.

(** The [href] attribute of one link: a string, [None], or the query
    raises. *)
Definition href := res (option pystr).

(** The DOM of a result page of the search engine, as far as the two
    selectors see it. *)
Record ddg_dom := {
  dom_articles : res (list (res (list href)));
  dom_all_links : res (list href);
}.

Definition url_in (u : pystr) (urls : list pystr) : bool :=
  existsb (eqb_str u) urls.

(** The inner loop over the links of one result container: the first
    eligible link, if any. *)
Fixpoint first_valid_link (links : list href) : res (option pystr) :=
  match links with
  | [] => Ok None
  | Raised :: _ => Raised
  | Ok h :: rest =>
      if is_valid_url h then Ok h else first_valid_link rest
  end.

(** The loop over the result containers; an exception ends it and
    keeps what was collected. *)
Fixpoint scan_articles (arts : list (res (list href))) (urls : list pystr)
  : list pystr :=
  match arts with
  | [] => urls
  | Raised :: _ => urls
  | Ok links :: rest =>
      match first_valid_link links with
      | Raised => urls
      | Ok (Some h) => scan_articles rest (urls ++ [h])
      | Ok None => scan_articles rest urls
      end
  end.

(** The fallback loop over the raw hyperlinks. *)
Fixpoint scan_links (links : list href) (urls : list pystr) : list pystr :=
  match links with
  | [] => urls
  | Raised :: _ => urls
  | Ok h :: rest =>
      match h with
      | Some u =>
          if is_valid_url h && negb (url_in u urls)
          then
            let urls' := urls ++ [u] in
            if 12 <=? length urls' then urls' else scan_links rest urls'
          else scan_links rest urls
      | None => scan_links rest urls
      end
  end.

Definition extract_urls_from_ddg (dom : ddg_dom) : list pystr :=
  let urls :=
    match dom_articles dom with
    | Ok arts => scan_articles (firstn 12 arts) []
    | Raised => []
    end in
  if length urls <? 5
  then match dom_all_links dom with
       | Ok links => scan_links (firstn 30 links) urls
       | Raised => urls
       end
  else urls.

(** What the renderer shows after navigating to the engine's query
    URL. *)
Record ddg_page := {
  dp_goto_raises : bool;
  dp_url : pystr;
  dp_body_text : res pystr;
  dp_results_appear : bool;
  dp_content : res pystr;
  dp_dom : ddg_dom;
}.

(** The second component of [search_duckduckgo]'s result: [True],
    [False] or ["RESTART"]. *)
Inductive search_status :=
| SearchOk
| SearchBlocked
| SearchRestart.

Definition search_duckduckgo (pg : ddg_page) : list pystr * search_status :=
  if dp_goto_raises pg then ([], SearchBlocked)
  else if contains (str "static-pages/418") (dp_url pg)
          || contains (str "static-pages") (dp_url pg)
  then ([], SearchRestart)
  else if match dp_body_text pg with
          | Ok t => contains (str "Unexpected error") t
          | Raised => false
          end
  then ([], SearchRestart)
  else if eqb_str (dp_url pg) (str "about:blank")
          || negb (contains (str "duckduckgo.com") (dp_url pg))
  then ([], SearchBlocked)
  else if dp_results_appear pg
  then (extract_urls_from_ddg (dp_dom pg), SearchOk)
  else
    match dp_content pg with
    | Raised => ([], SearchBlocked)
    | Ok content =>
        if length content <? 1000 then ([], SearchBlocked)
        else (extract_urls_from_ddg (dp_dom pg), SearchOk)
    end.

(** The tagged outcome of one search attempt. *)
Inductive SearchOutcome :=
| Success (urls : list pystr)
| Blocked
| EngineError.

Definition outcome_of (r : list pystr * search_status) : SearchOutcome :=
  match snd r with
  | SearchOk => Success (fst r)
  | SearchBlocked => Blocked
  | SearchRestart => EngineError
  end.

(** ** The world outside the program

    What the renderer answers is a function of how many calls of the
    same kind the worker's session made before, and of the argument of
    the call. [set_order] is the iteration order of Python sets. *)
Record world := {
  set_order : list pystr -> list pystr;
  ddg : nat -> pystr -> ddg_page;
  fetch : nat -> pystr -> page_view;
  close_raises : nat -> bool;
  create_raises : nat -> bool;
  now : nat -> pystr;
}.

(** The local variables of a worker that outlive one record, and the
    number of renderer calls it made, by kind. [queries] lists the
    queries sent to the search engine, latest first. *)
Record wstate := {
  processed_count : nat;
  restart_count : nat;
  searches : nat;
  fetches : nat;
  closes : nat;
  creates : nat;
  queries : list pystr;
}.

Definition new_worker : wstate :=
  {| processed_count := 0; restart_count := 0; searches := 0; fetches := 0;
     closes := 0; creates := 1; queries := [] |}.

(** Code that reads and updates the worker's variables and may raise;
    the variables keep the values they had when the exception left. *)
Definition M (A : Type) : Type := wstate -> wstate * res A.

Definition ret {A} (a : A) : M A := fun w => (w, Ok a).

Definition bind {A B} (m : M A) (f : A -> M B) : M B :=
  fun w =>
    match m w with
    | (w', Ok a) => f a w'
    | (w', Raised) => (w', Raised)
    end.

Definition raise {A} : M A := fun w => (w, Raised).

Declare Scope worker_scope.
Delimit Scope worker_scope with worker.
Notation "'let*' x := m 'in' f" := (bind m (fun x => f))
  (at level 10, x binder, m at level 100, f at level 200) : worker_scope.
#[local] Open Scope worker_scope.

(** The renderer calls and the updates of the worker's variables, as
    changes of the worker's state. *)
Definition count_search (query : pystr) (w : wstate) : wstate :=
  {| processed_count := processed_count w;
     restart_count := restart_count w;
     searches := S (searches w); fetches := fetches w;
     closes := closes w; creates := creates w;
     queries := query :: queries w |}.

Definition count_fetch (w : wstate) : wstate :=
  {| processed_count := processed_count w;
     restart_count := restart_count w;
     searches := searches w; fetches := S (fetches w);
     closes := closes w; creates := creates w;
     queries := queries w |}.

Definition count_close (w : wstate) : wstate :=
  {| processed_count := processed_count w;
     restart_count := restart_count w;
     searches := searches w; fetches := fetches w;
     closes := S (closes w); creates := creates w;
     queries := queries w |}.

Definition count_create (w : wstate) : wstate :=
  {| processed_count := processed_count w;
     restart_count := restart_count w;
     searches := searches w; fetches := fetches w;
     closes := closes w; creates := S (creates w);
     queries := queries w |}.

Definition count_restart (w : wstate) : wstate :=
  {| processed_count := processed_count w;
     restart_count := S (restart_count w);
     searches := searches w; fetches := fetches w;
     closes := closes w; creates := creates w;
     queries := queries w |}.

Definition with_processed_count (n : nat) (w : wstate) : wstate :=
  {| processed_count := n;
     restart_count := restart_count w;
     searches := searches w; fetches := fetches w;
     closes := closes w; creates := creates w;
     queries := queries w |}.

Section World.

Variable wd : world.

(** [await search_duckduckgo(page, query, worker_id)] *)
Definition do_search (query : pystr) : M (list pystr * search_status) :=
  fun w =>
    (count_search query w,
     Ok (search_duckduckgo (ddg wd (searches w) query))).

(** [await get_page_text(page, url)] *)
Definition do_fetch (url : pystr) : M (option pystr) :=
  fun w => (count_fetch w, Ok (get_page_text (fetch wd (fetches w) url))).

(** [await context.close()] *)
Definition context_close : M unit :=
  fun w =>
    if close_raises wd (closes w) then (w, Raised)
    else (count_close w, Ok tt).

(** [context, page = await create_context(use_browser, worker_id)] *)
Definition create_context : M unit :=
  fun w =>
    if create_raises wd (creates w) then (w, Raised)
    else (count_create w, Ok tt).

Definition incr_restart_count : M unit :=
  fun w => (count_restart w, Ok tt).

Definition set_processed_count (n : nat) : M unit :=
  fun w => (with_processed_count n w, Ok tt).

Definition get_processed_count : M nat :=
  fun w => (w, Ok (processed_count w)).

(** ** Company processing *)

(** The second component of [process_company]'s result, and the
    value ["SKIPPED"] that the worker gives to the same variable. *)
Inductive pstatus :=
| DDG_RESTART
| DDG_BLOCKED
| NO_URLS
| NO_TOWING
| TOWING_FOUND
| SKIPPED.

Definition pstatus_eqb (a b : pstatus) : bool :=
  match a, b with
  | DDG_RESTART, DDG_RESTART | DDG_BLOCKED, DDG_BLOCKED
  | NO_URLS, NO_URLS | NO_TOWING, NO_TOWING
  | TOWING_FOUND, TOWING_FOUND | SKIPPED, SKIPPED => true
  | _, _ => false
  end.

(** The loop over the shortlisted URLs. *)
Fixpoint check_urls (r : row) (sorted_urls : list pystr)
  : M (option pystr * pstatus) :=
  match sorted_urls with
  | [] => ret (None, NO_TOWING)
  | url :: rest =>
      let* page_text := do_fetch url in
      match page_text with
      | None | Some [] => check_urls r rest
      | Some text =>
          if negb (check_address_match text r) then check_urls r rest
          else if negb (check_towing_mention text) then check_urls r rest
          else ret (Some url, TOWING_FOUND)
      end
  end.

(** The double quote character. *)
Definition dquote : ascii := ascii_of_nat 34.

Definition exact_query (search_name : pystr) (r : row) : pystr :=
  [dquote] ++ search_name ++ [dquote] ++ str " " ++ to_str (PHY_CITY r)
  ++ str " " ++ to_str (PHY_STATE r).

Definition broad_query (search_name : pystr) (r : row) : pystr :=
  search_name ++ str " " ++ to_str (PHY_CITY r) ++ str " "
  ++ to_str (PHY_STATE r).

Definition process_company (r : row) (search_name : pystr)
  : M (option pystr * pstatus) :=
  let* found := do_search (exact_query search_name r) in
  match snd found with
  | SearchRestart => ret (None, DDG_RESTART)
  | SearchBlocked => ret (None, DDG_BLOCKED)
  | SearchOk =>
      let all_urls := fst found in
      let* more :=
        (if length all_urls <? 5
         then
           let* found2 := do_search (broad_query search_name r) in
           match snd found2 with
           | SearchRestart => ret (inl DDG_RESTART)
           | SearchBlocked => ret (inl DDG_BLOCKED)
           | SearchOk =>
               ret (inr (all_urls
                         ++ List.filter (fun u => negb (url_in u all_urls))
                              (fst found2)))
           end
         else ret (inr all_urls)) in
      match more with
      | inl status => ret (None, status)
      | inr [] => ret (None, NO_URLS)
      | inr all_urls =>
          check_urls r
            (firstn MAX_URLS_TO_CHECK
               (sort_urls_by_priority (set_order wd) all_urls))
      end
  end.

(** ** Worker *)

Definition max_restarts : nat := 3.

(** [while status == "DDG_RESTART" and current_restart_count <
    max_restarts]. The loop runs at most [max_restarts] times, which
    is the value [fuel] is given. *)
Fixpoint restart_loop (fuel : nat) (r : row) (search_name : pystr)
  (current_restart_count : nat) (out : option pystr * pstatus)
  : M (nat * (option pystr * pstatus)) :=
  if pstatus_eqb (snd out) DDG_RESTART
     && (current_restart_count <? max_restarts)
  then
    match fuel with
    | O => ret (current_restart_count, out)
    | S fuel' =>
        let* _ := incr_restart_count in
        let* _ := context_close in
        let* _ := create_context in
        let* out' := process_company r search_name in
        restart_loop fuel' r search_name (S current_restart_count) out'
    end
  else ret (current_restart_count, out).

(** One name of the company: the search, the restarts, and the
    conversion of a persisting ["DDG_RESTART"] into ["SKIPPED"]. *)
Definition attempt (r : row) (search_name : pystr)
  (current_restart_count : nat) : M (nat * (option pystr * pstatus)) :=
  let* out := process_company r search_name in
  let* looped :=
    restart_loop max_restarts r search_name current_restart_count out in
  let status := snd (snd looped) in
  ret (fst looped,
       (fst (snd looped),
        if pstatus_eqb status DDG_RESTART then SKIPPED else status)).

(** How the [try] block of one iteration ends when it does not
    raise: at one of the two [continue] statements, or at the
    "Save result" block with the values of [found_towing],
    [website_found] and [status] ([None] when it was never
    assigned). *)
Inductive verdict :=
| Requeue
| Save (found_towing : bool) (website_found : option pystr)
    (status : option pstatus).

Definition opt_str_eqb (a b : option pystr) : bool :=
  match a, b with
  | Some x, Some y => eqb_str x y
  | None, None => true
  | _, _ => false
  end.

Definition is_status (s : pstatus) (o : option pstatus) : bool :=
  match o with
  | Some s' => pstatus_eqb s' s
  | None => false
  end.

(** The part of the iteration that tries the DBA name. *)
Definition try_dba (r : row) (clean_legal : option pystr)
  (current_restart_count : nat) (website_found : option pystr)
  (status : option pstatus) : M verdict :=
  let dba_name := DBA_NAME r in
  if truthy dba_name && notna dba_name
  then
    match clean_company_name (to_str dba_name) with
    | Some clean_dba =>
        if negb (opt_str_eqb (Some clean_dba) clean_legal)
        then
          let* a := attempt r clean_dba current_restart_count in
          let status' := snd (snd a) in
          if pstatus_eqb status' DDG_BLOCKED then ret Requeue
          else ret (Save (pstatus_eqb status' TOWING_FOUND)
                      (fst (snd a)) (Some status'))
        else ret (Save false website_found status)
    | None => ret (Save false website_found status)
    end
  else ret (Save false website_found status).

(** The part of the iteration that tries the legal name: the values
    of [current_restart_count], [website_found] and [status] after
    it. *)
Definition try_legal (r : row) (clean_legal : option pystr)
  : M (nat * option pystr * option pstatus) :=
  match clean_legal with
  | Some name =>
      let* a := attempt r name 0 in
      ret (fst a, fst (snd a), Some (snd (snd a)))
  | None => ret (0, None, None)
  end.

(** The [try] block up to the "Save result" block. *)
Definition try_names (r : row) : M verdict :=
  fun w =>
    match clean_company_name_cell (LEGAL_NAME r) with
    | Raised => (w, Raised)
    | Ok clean_legal =>
        (let* first := try_legal r clean_legal in
         let current_restart_count := fst (fst first) in
         let website_found := snd (fst first) in
         let status := snd first in
         if is_status DDG_BLOCKED status then ret Requeue
         else if is_status TOWING_FOUND status
         then ret (Save true website_found status)
         else try_dba r clean_legal current_restart_count website_found
                status) w
    end.

(** "Refresh context periodically" *)
Definition refresh_context : M unit :=
  let* n := get_processed_count in
  let* _ := set_processed_count (S n) in
  if 30 <=? S n
  then
    let* _ := context_close in
    let* _ := create_context in
    set_processed_count 0
  else ret tt.

(** ** Shared state *)

(** A row of the results file. *)
Record result := {
  res_row : row;
  WEBSITE_URL : option pystr;
  VERIFIED_AT : pystr;
}.

Record shared := {
  queue : list (nat * row);
  results_dict : gmap Z result;
  processed_dots : gset Z;
  stats_searched : nat;
  stats_found_towing : nat;
}.

Definition queue_put (item : nat * row) (sh : shared) : shared :=
  {| queue := queue sh ++ [item];
     results_dict := results_dict sh;
     processed_dots := processed_dots sh;
     stats_searched := stats_searched sh;
     stats_found_towing := stats_found_towing sh |}.

Definition set_queue (q : list (nat * row)) (sh : shared) : shared :=
  {| queue := q;
     results_dict := results_dict sh;
     processed_dots := processed_dots sh;
     stats_searched := stats_searched sh;
     stats_found_towing := stats_found_towing sh |}.

(** The block under [async with results_lock]. *)
Definition save_result (r : row) (found_towing : bool)
  (website_found : option pystr) (stamp : pystr) (sh : shared) : shared :=
  let dot_number := DOT_NUMBER r in
  {| queue := queue sh;
     results_dict :=
       if found_towing
       then <[dot_number :=
                {| res_row := r; WEBSITE_URL := website_found;
                   VERIFIED_AT := stamp |}]> (results_dict sh)
       else results_dict sh;
     processed_dots := {[dot_number]} ∪ processed_dots sh;
     stats_searched := S (stats_searched sh);
     stats_found_towing :=
       if found_towing then S (stats_found_towing sh)
       else stats_found_towing sh |}.

(** What one iteration of the worker's loop did with its record. *)
Inductive iteration_end :=
| Requeued
| Recorded (found_towing : bool) (status : option pstatus)
| Dropped.

(** The body of [while True] after a successful [queue.get_nowait()]:
    the [try] block and its [except Exception] handler, which logs
    and goes on to the next record. *)
Definition worker_iteration (item : nat * row) (w : wstate) (sh : shared)
  : wstate * shared * iteration_end :=
  match try_names (snd item) w with
  | (w1, Raised) => (w1, sh, Dropped)
  | (w1, Ok Requeue) => (w1, queue_put item sh, Requeued)
  | (w1, Ok (Save found_towing website_found status)) =>
      let stamp :=
        now wd (searches w1 + fetches w1 + closes w1 + creates w1) in
      (fst (refresh_context w1),
       save_result (snd item) found_towing website_found stamp sh,
       Recorded found_towing status)
  end.

End World.

(** The final disposition of a record, as the spec names them. *)
Inductive disposition :=
| FOUND
| NOT_FOUND
| BLOCKED_RETRY
| DISP_SKIPPED
| FAILED.

Definition disposition_of (e : iteration_end) : disposition :=
  match e with
  | Requeued => BLOCKED_RETRY
  | Recorded true _ => FOUND
  | Recorded false (Some SKIPPED) => DISP_SKIPPED
  | Recorded false _ => NOT_FOUND
  | Dropped => FAILED
  end.

(** ** Coordinator *)

Definition NUM_WORKERS : nat := 4.

Definition AUTO_APPROVED : pystr := str "AUTO_APPROVED".

Definition has_tow_name (r : row) : bool :=
  has_tow_in_name (LEGAL_NAME r) (DBA_NAME r).

(** The "Auto-approve" loop over [df_auto]. *)
Fixpoint auto_approve (stamp : pystr) (df_auto : list row)
  (results : gmap Z result) (processed : gset Z)
  : gmap Z result * gset Z :=
  match df_auto with
  | [] => (results, processed)
  | r :: rest =>
      let dot := DOT_NUMBER r in
      match results !! dot with
      | Some _ => auto_approve stamp rest results processed
      | None =>
          auto_approve stamp rest
            (<[dot := {| res_row := r; WEBSITE_URL := Some AUTO_APPROVED;
                         VERIFIED_AT := stamp |}]> results)
            ({[dot]} ∪ processed)
      end
  end.

(** [enumerate(rows, start)] *)
Fixpoint enumerate_from (start : nat) (rows : list row) : list (nat * row) :=
  match rows with
  | [] => []
  | r :: rest => (start, r) :: enumerate_from (S start) rest
  end.

(** [main] up to the creation of the queue: the data frame, the
    checkpoint and the results file are its inputs, as they are
    after [main] has read them. A start at which reading one of them
    fails, or whose data frame is empty, raises before this point and
    is not described. *)
Definition main_setup (stamp : pystr) (df : list row)
  (checkpoint : gset Z) (loaded : gmap Z result) : shared :=
  let df_auto := List.filter has_tow_name df in
  let df_search := List.filter (fun r => negb (has_tow_name r)) df in
  let approved := auto_approve stamp df_auto loaded checkpoint in
  let results := fst approved in
  let processed := snd approved in
  let already_done := processed ∪ dom results in
  let df_remaining :=
    List.filter (fun r => negb (bool_decide (DOT_NUMBER r ∈ already_done)))
      df_search in
  {| queue := enumerate_from 1 df_remaining;
     results_dict := results;
     processed_dots := processed;
     stats_searched := 0;
     stats_found_towing := 0 |}.

(** A worker task is between two records, holds a record, or has
    left its loop. *)
Inductive wstatus :=
| Idle (w : wstate)
| Busy (w : wstate) (item : nat * row)
| Exited.

Definition system : Type := shared * list wstatus.

Definition start_workers (sh : shared) : system :=
  (sh, repeat (Idle new_worker) NUM_WORKERS).

(** What an observer of the shared state sees a worker do. *)
Inductive label :=
| LPop (i : nat) (item : nat * row)
| LExit (i : nat)
| LEnd (i : nat) (item : nat * row) (e : iteration_end).

(** The interleavings of the worker tasks. A task gives up control
    only while it waits for the renderer or sleeps, and it touches
    the shared state at two points: when it takes a record, and when
    it puts the record back or saves it. *)
Inductive step : system -> label -> system -> Prop :=
| step_pop sh ws i w item q :
    ws !! i = Some (Idle w) ->
    queue sh = item :: q ->
    step (sh, ws) (LPop i item) (set_queue q sh, <[i := Busy w item]> ws)
| step_exit sh ws i w :
    ws !! i = Some (Idle w) ->
    queue sh = [] ->
    step (sh, ws) (LExit i) (sh, <[i := Exited]> ws)
| step_end sh ws i w item wd w' sh' e :
    ws !! i = Some (Busy w item) ->
    worker_iteration wd item w sh = (w', sh', e) ->
    step (sh, ws) (LEnd i item e) (sh', <[i := Idle w']> ws).

(** Runs, with the labels of their steps in order. *)
Inductive run : system -> list label -> system -> Prop :=
| run_nil s : run s [] s
| run_cons s l s' tr s'' :
    step s l s' -> run s' tr s'' -> run s (l :: tr) s''.

(** "The queue is empty and every worker has exited its loop." *)
Definition completed (s : system) : Prop :=
  queue (fst s) = [] /\ Forall (fun st => st = Exited) (snd s).

Definition item_id (item : nat * row) : Z := DOT_NUMBER (snd item).

(** The identifiers passed to [processed_dots.add] along a run, in
    order. *)
Fixpoint added_ids (tr : list label) : list Z :=
  match tr with
  | [] => []
  | LEnd _ item (Recorded _ _) :: tr' => item_id item :: added_ids tr'
  | _ :: tr' => added_ids tr'
  end.

(** The identifiers of the records whose iteration ended in the
    exception handler. *)
Fixpoint dropped_ids (tr : list label) : list Z :=
  match tr with
  | [] => []
  | LEnd _ item Dropped :: tr' => item_id item :: dropped_ids tr'
  | _ :: tr' => dropped_ids tr'
  end.

(** The number of times a record was put back. *)
Fixpoint requeues (tr : list label) : nat :=
  match tr with
  | [] => 0
  | LEnd _ _ Requeued :: tr' => S (requeues tr')
  | _ :: tr' => requeues tr'
  end.

(** ** Vocabulary of the properties *)

(** What a regular expression matches: [denotes r prev s prev' rest]
    says that [r] matches a prefix of [s] and leaves [rest], [prev]
    and [prev'] being the characters in front of [s] and of [rest]. *)
Fixpoint denotes (ignorecase : bool) (r : regex) (prev : option ascii)
  (s : pystr) (prev' : option ascii) (rest : pystr) : Prop :=
  match r with
  | RChar c =>
      exists x, s = x :: rest /\ char_matches ignorecase c x = true
                /\ prev' = Some x
  | RSet p => exists x, s = x :: rest /\ p x = true /\ prev' = Some x
  | RSeq r1 r2 =>
      exists pm sm, denotes ignorecase r1 prev s pm sm
                    /\ denotes ignorecase r2 pm sm prev' rest
  | RAlt r1 r2 =>
      denotes ignorecase r1 prev s prev' rest
      \/ denotes ignorecase r2 prev s prev' rest
  | ROpt r1 =>
      denotes ignorecase r1 prev s prev' rest \/ (prev' = prev /\ rest = s)
  | RStar p =>
      exists w, s = w ++ rest /\ forallb p w = true
                /\ prev' = match last w with Some c => Some c | None => prev end
  | RWordB => at_boundary prev s = true /\ prev' = prev /\ rest = s
  end.

(** [occ] occurs in [name] as a whole word: no word character touches
    it on either side. *)
Definition whole_word_at (pre occ post : pystr) : Prop :=
  is_word_opt (last pre) = false /\ is_word_opt (head post) = false.

(** A case-insensitive whole-word occurrence of [w] in [name]. *)
Definition has_whole_word (w name : pystr) : Prop :=
  exists pre occ post,
    name = pre ++ occ ++ post /\ lower occ = lower w
    /\ whole_word_at pre occ post.

(** The positions at which [kw] occurs in [s]. *)
Fixpoint occurrences_from (i : nat) (kw s : pystr) : list nat :=
  (if startswith kw s then [i] else []) ++
  match s with
  | [] => []
  | _ :: s' => occurrences_from (S i) kw s'
  end.

Definition occurrences (kw s : pystr) : list nat := occurrences_from 0 kw s.

(** The cleaned DBA name that the worker searches after the legal
    name, if there is one to search. *)
Definition dba_candidate (r : row) (clean_legal : option pystr)
  : option pystr :=
  if truthy (DBA_NAME r) && notna (DBA_NAME r)
  then
    match clean_company_name (to_str (DBA_NAME r)) with
    | Some clean_dba =>
        if opt_str_eqb (Some clean_dba) clean_legal then None
        else Some clean_dba
    | None => None
    end
  else None.

(** The maximal runs of word characters of a string. *)
Fixpoint word_runs_aux (cur : pystr) (s : pystr) : list pystr :=
  match s with
  | [] => match cur with [] => [] | _ => [rev cur] end
  | c :: s' =>
      if is_word c then word_runs_aux (c :: cur) s'
      else match cur with
           | [] => word_runs_aux [] s'
           | _ => rev cur :: word_runs_aux [] s'
           end
  end.

Definition word_runs (s : pystr) : list pystr := word_runs_aux [] s.

(** [w] is one of the legal-entity suffixes, in any letter case. *)
Definition is_suffix_word (w : pystr) : bool :=
  existsb (fun sfx => eqb_str (lower w) (lower sfx)) SUFFIXES.

(** A URL is on a priority host. *)
Definition on_priority_host (u : pystr) : bool :=
  get_domain_priority u <? 100.


(** ** Example inputs *)

Definition example_row (id : Z) (legal dba : pyval) : row :=
  {| DOT_NUMBER := id; LEGAL_NAME := legal; DBA_NAME := dba;
     PHY_STREET := PyStr (str "12 Main St");
     PHY_CITY := PyStr (str "Hartford");
     PHY_STATE := PyStr (str "CT");
     PHY_ZIP := PyStr (str "06103") |}.

Definition empty_dom : ddg_dom :=
  {| dom_articles := Ok []; dom_all_links := Ok [] |}.

(** The engine's automation-defense page. *)
Definition error_page : ddg_page :=
  {| dp_goto_raises := false;
     dp_url := str "https://duckduckgo.com/static-pages/418.html";
     dp_body_text := Ok []; dp_results_appear := false;
     dp_content := Ok []; dp_dom := empty_dom |}.

(** The navigation did not reach the engine. *)
Definition blank_page : ddg_page :=
  {| dp_goto_raises := false; dp_url := str "about:blank";
     dp_body_text := Ok []; dp_results_appear := false;
     dp_content := Ok []; dp_dom := empty_dom |}.

(** A result page without results. *)
Definition no_results_page : ddg_page :=
  {| dp_goto_raises := false; dp_url := str "https://duckduckgo.com/?q=acme";
     dp_body_text := Ok []; dp_results_appear := true;
     dp_content := Ok []; dp_dom := empty_dom |}.

Definition unreachable_page : page_view :=
  {| pv_goto_raises := true; pv_status := None; pv_main_text := Raised;
     pv_body_text := Raised |}.

(** A world in which the [n]-th search of a session shows
    [pages n], no candidate page loads, and closing a context raises
    when [close_fails]. *)
Definition world_of (pages : nat -> ddg_page) (close_fails : bool) : world :=
  {| set_order := input_order;
     ddg := fun n _ => pages n;
     fetch := fun _ _ => unreachable_page;
     close_raises := fun _ => close_fails;
     create_raises := fun _ => false;
     now := fun _ => str "2026-01-01T00:00:00" |}.

Definition blocked_world : world := world_of (fun _ => blank_page) false.

Definition error_world : world := world_of (fun _ => error_page) false.

Definition three_errors_world : world :=
  world_of (fun n => if n <? 3 then error_page else no_results_page) false.

Definition crash_world : world := world_of (fun _ => error_page) true.

Definition empty_shared : shared :=
  {| queue := []; results_dict := ∅; processed_dots := ∅;
     stats_searched := 0; stats_found_towing := 0 |}.

Definition acme_recovery : row :=
  example_row 1002 (PyStr (str "Acme Recovery Co")) PyNone.

Definition acme_with_dba : row :=
  example_row 1003 (PyStr (str "Acme Recovery Co"))
    (PyStr (str "Bravo Roadside")).

(** The records that the workers hold. *)
Definition in_flight (ws : list wstatus) : list (nat * row) :=
  omap (fun st => match st with Busy _ item => Some item | _ => None end) ws.

(** The identifiers of the records that are queued or held. *)
Definition pending_ids (s : system) : list Z :=
  map item_id (queue (fst s)) ++ map item_id (in_flight (snd s)).

(** A queue of one record, and a run on it in which the engine shows
    its error page and closing the context raises. *)
Definition one_record_queue : shared :=
  set_queue [(1, acme_recovery)] empty_shared.

Definition dropped_run : list label :=
  [ LPop 0 (1, acme_recovery); LEnd 0 (1, acme_recovery) Dropped;
    LExit 0; LExit 1; LExit 2; LExit 3 ].

Definition dropped_run_end : system :=
  (empty_shared, [Exited; Exited; Exited; Exited]).

(** A run on the same queue in which the engine blocks the first
    search and answers the later ones without results: the record is
    put back once and then saved. *)
Definition blocked_once_world : world :=
  world_of (fun n => if n =? 0 then blank_page else no_results_page) false.

Definition requeue_run : list label :=
  [ LPop 0 (1, acme_recovery); LEnd 0 (1, acme_recovery) Requeued;
    LPop 0 (1, acme_recovery);
    LEnd 0 (1, acme_recovery) (Recorded false (Some NO_URLS));
    LExit 0; LExit 1; LExit 2; LExit 3 ].

(** A record with a service term in its legal name, and a results
    file of an earlier run that holds a web site for it. *)
Definition acme_towing : row :=
  {| DOT_NUMBER := 1001; LEGAL_NAME := PyStr (str "Acme Towing LLC");
     DBA_NAME := PyNone; PHY_STREET := PyStr (str "1 Dock Rd");
     PHY_CITY := PyStr (str "Boston"); PHY_STATE := PyStr (str "MA");
     PHY_ZIP := PyStr (str "02110") |}.

Definition earlier_results : gmap Z result :=
  {[ 1001%Z := {| res_row := acme_towing;
                  WEBSITE_URL := Some (str "https://www.acmetowing.example/");
                  VERIFIED_AT := str "2025-06-01T09:00:00" |} ]}.

(** Another order a set can have: the reverse of the first one. *)
Definition reversed_order (l : list pystr) : list pystr :=
  reverse (input_order l).

Definition url_a : pystr := str "https://a.example/".
Definition url_b : pystr := str "https://b.example/".
Definition url_bbb : pystr := str "https://www.bbb.org/us/ma/acme".

(** A result page on which two result containers link to the same
    URL. *)
Definition twin_results_dom : ddg_dom :=
  {| dom_articles := Ok [Ok [Ok (Some url_a)]; Ok [Ok (Some url_a)]];
     dom_all_links := Ok [Ok (Some url_a); Ok (Some url_a)] |}.

Definition twin_results_page : ddg_page :=
  {| dp_goto_raises := false; dp_url := str "https://duckduckgo.com/?q=acme";
     dp_body_text := Ok []; dp_results_appear := true;
     dp_content := Ok []; dp_dom := twin_results_dom |}.

(** A result page with one result container and three raw links. *)
Definition mixed_results_page : ddg_page :=
  {| dp_goto_raises := false; dp_url := str "https://duckduckgo.com/?q=acme";
     dp_body_text := Ok []; dp_results_appear := true;
     dp_content := Ok [];
     dp_dom :=
       {| dom_articles := Ok [Ok [Ok None; Ok (Some url_a)]];
          dom_all_links :=
            Ok [Ok (Some (str "https://duckduckgo.com/about"));
                Ok (Some url_a); Ok (Some url_b)] |} |}.

(** A URL that [is_valid_url] accepts. *)
Definition eligible (u : pystr) : Prop := is_valid_url (Some u) = true.

(** A record whose city has two letters, and a page that shows the
    city and the postal code. *)
Definition short_city_row : row :=
  {| DOT_NUMBER := 1004; LEGAL_NAME := PyStr (str "Acme Recovery Co");
     DBA_NAME := PyNone; PHY_STREET := PyStr [];
     PHY_CITY := PyStr (str "Ay"); PHY_STATE := PyStr [];
     PHY_ZIP := PyStr (str "01432") |}.

Definition short_city_page : pystr := str "Acme Recovery, Ay 01432".

Definition hartford_page : pystr :=
  str "Acme Recovery - 12 Main St., Hartford, CT 06103. Call us today.".

(** The directory phrase of the spec, alone and at the end of a
    longer page. *)
Definition directory_phrase : pystr :=
  str "related searches: towing near Boston".

Definition page_with_directory_tail : pystr :=
  str "Acme hauls freight across the state of Massachusetts. related searches: towing near Boston".

(** The word run that ends where the accumulator [cur] stands, if
    the accumulator is not empty. *)
Definition emit_run (cur : pystr) : list pystr :=
  match cur with [] => [] | _ => [rev cur] end.

(** An accumulator that no continuation turns into a suffix word. *)
Definition tainted (cur : pystr) : Prop :=
  forall more, is_suffix_word (rev cur ++ more) = false.

(** A token of [split]: not empty, without white space. *)
Definition is_token (t : pystr) : Prop :=
  t <> [] /\ forallb (fun c => negb (is_space c)) t = true.

(** The characters that the cleaning keeps. *)
Definition kept_char (c : ascii) : bool :=
  is_word c || is_space c || eqb_char c "'"%char.

(** A page that shows the street number and the postal code of
    [acme_recovery] and not its city, and a page that shows its city
    and the name of its state and not its postal code. *)
Definition street_and_zip_page : pystr :=
  str "Acme Recovery, 12 Main Street, CT 06103".

Definition city_and_state_page : pystr :=
  str "Serving Hartford, Connecticut and the surrounding towns.".

(** [w'] differs from [w] by renderer calls of [process_company]
    only: searches and page fetches. *)
Definition same_session (w w' : wstate) : Prop :=
  closes w' = closes w /\ creates w' = creates w
  /\ restart_count w' = restart_count w
  /\ processed_count w' = processed_count w.

(** A world in which the search finds one page, on which the address
    and a service phrase stand. *)
Definition acme_site : pystr := str "https://www.acmerecovery.example/".

Definition one_result_page : ddg_page :=
  {| dp_goto_raises := false; dp_url := str "https://duckduckgo.com/?q=acme";
     dp_body_text := Ok []; dp_results_appear := true;
     dp_content := Ok [];
     dp_dom := {| dom_articles := Ok [Ok [Ok (Some acme_site)]];
                  dom_all_links := Ok [] |} |}.

Definition acme_site_view : page_view :=
  {| pv_goto_raises := false; pv_status := Some 200;
     pv_main_text :=
       Ok (str "Acme Recovery offers a 24 hour towing service. 12 Main St, Hartford, CT 06103");
     pv_body_text := Ok [] |}.

Definition found_world : world :=
  {| set_order := input_order;
     ddg := fun _ _ => one_result_page;
     fetch := fun _ _ => acme_site_view;
     close_raises := fun _ => false;
     create_raises := fun _ => false;
     now := fun _ => str "2026-01-01T00:00:00" |}.

(** Between [w] and [w'] the worker called [process_company] at most
    [calls] times and restarted its session at most [restarts]
    times. *)
Definition within (calls restarts : nat) (w w' : wstate) : Prop :=
  searches w <= searches w' <= searches w + 2 * calls
  /\ fetches w <= fetches w' <= fetches w + MAX_URLS_TO_CHECK * calls
  /\ restart_count w <= restart_count w' <= restart_count w + restarts
  /\ closes w <= closes w' <= closes w + restarts
  /\ creates w <= creates w' <= creates w + restarts
  /\ processed_count w' = processed_count w.

(** The pair [(website, status)] is what a search leaves behind: no
    web site and a status other than ["TOWING_FOUND"], or a web site
    whose text, fetched as page number [n] with [lo <= n < hi], is
    not empty and passed the address check and the keyword check
    for [r]. *)
Definition verified (wd : world) (r : row) (lo hi : nat)
  (website : option pystr) (status : pstatus) : Prop :=
  (website = None /\ status <> TOWING_FOUND)
  \/ exists url n text,
       website = Some url /\ status = TOWING_FOUND
       /\ lo <= n < hi
       /\ get_page_text (fetch wd n url) = Some text
       /\ text <> []
       /\ check_address_match text r = true
       /\ check_towing_mention text = true.

(** The entry [en] stored under [k] was written by the auto-approve
    loop for a row of [df] that has a service term in its name. *)
Definition approved_entry (df : list row) (k : Z) (en : result) : Prop :=
  WEBSITE_URL en = Some AUTO_APPROVED
  /\ res_row en ∈ df /\ has_tow_name (res_row en) = true
  /\ DOT_NUMBER (res_row en) = k.

(** A data frame of two records, one of which has a service term in
    its name, and a run on it in which the other one is found. *)
Definition two_records : list row := [acme_towing; acme_recovery].

Definition found_run : list label :=
  [ LPop 0 (1, acme_recovery);
    LEnd 0 (1, acme_recovery) (Recorded true (Some TOWING_FOUND));
    LExit 0; LExit 1; LExit 2; LExit 3 ].

(** A page with the address of [acme_recovery] and a service
    phrase. *)
Definition hartford_towing_page : pystr :=
  str "Acme Recovery offers a 24 hour towing service. 12 Main St, Hartford, CT 06103".

(** The page fetched for [url] as page number [n] has text, and the
    text passes the address check and the keyword check for [r]. *)
Definition passes (wd : world) (r : row) (n : nat) (url : pystr) : bool :=
  match get_page_text (fetch wd n url) with
  | Some (c :: t) =>
      check_address_match (c :: t) r && check_towing_mention (c :: t)
  | _ => false
  end.

(** The answers of the engine to the queries [more], the newest
    first, [n] searches having been made before them. *)
Fixpoint answered (wd : world) (n : nat) (more : list pystr)
  : list search_status :=
  match more with
  | [] => []
  | q :: rest =>
      snd (search_duckduckgo (ddg wd (n + length rest) q))
      :: answered wd n rest
  end.

(** The answers to the searches that the worker made between [w] and
    [w'], the newest first. *)
Definition answers (wd : world) (w w' : wstate) : list search_status :=
  answered wd (searches w)
    (firstn (searches w' - searches w) (queries w')).

(** Between [w] and [w'] the worker sent the queries [more], the
    newest first. *)
Definition sent (w w' : wstate) (more : list pystr) : Prop :=
  queries w' = more ++ queries w
  /\ searches w' = searches w + length more.

(** The status is ["DDG_BLOCKED"] exactly when one of the answers is
    a refusal, and a refusal is the newest answer. *)
Definition blocked_iff (sts : list search_status) (status : pstatus) : Prop :=
  (status = DDG_BLOCKED <-> SearchBlocked ∈ sts)
  /\ (SearchBlocked ∈ sts -> head sts = Some SearchBlocked).

(** The engine answers the two searches for the legal name without
    results and refuses the search for the DBA name. *)
Definition dba_blocked_world : world :=
  world_of (fun n => if n <? 2 then no_results_page else blank_page) false.

(** A link that a scan reads and passes over: its [href] is read
    without error and is not an eligible URL. *)
Definition passed_over (l : href) : Prop :=
  exists h, l = Ok h /\ is_valid_url h = false.

(** [u] is the first eligible link of a container. *)
Definition first_eligible_link (links : list href) (u : pystr) : Prop :=
  exists pre post,
    links = pre ++ Ok (Some u) :: post
    /\ Forall passed_over pre /\ eligible u.

(** What the scan takes from a container: its first eligible link,
    or nothing when it has none. *)
Definition taken_from (links : list href) (p : option pystr) : Prop :=
  match p with
  | Some u => first_eligible_link links u
  | None => Forall passed_over links
  end.

(** Reading a container fails: the query for its links raises, or
    reading an [href] raises before an eligible link is met. *)
Definition read_fails (c : res (list href)) : Prop :=
  match c with
  | Raised => True
  | Ok links =>
      exists pre post, links = pre ++ Raised :: post /\ Forall passed_over pre
  end.

(** The result containers that the first scan looks at, and the raw
    hyperlinks that the fall-back looks at. *)
Definition containers (dom : ddg_dom) : list (res (list href)) :=
  match dom_articles dom with
  | Ok arts => firstn 12 arts
  | Raised => []
  end.

Definition raw_links (dom : ddg_dom) : list href :=
  match dom_all_links dom with
  | Ok links => firstn 30 links
  | Raised => []
  end.

Definition valid (u : pystr) : bool := is_valid_url (Some u).

(** What happens at one step of a run: as a [label], and for the end
    of an iteration also the renderer's answers and the worker's
    variables before and after it. *)
Inductive event :=
| EPop (i : nat) (item : nat * row)
| EExit (i : nat)
| EEnd (i : nat) (item : nat * row) (wd : world) (w w' : wstate)
    (e : iteration_end).

Definition label_of (ev : event) : label :=
  match ev with
  | EPop i item => LPop i item
  | EExit i => LExit i
  | EEnd i item _ _ _ e => LEnd i item e
  end.

(** The steps and the runs of the worker pool, with their events. *)
Inductive traced_step : system -> event -> system -> Prop :=
| tstep_pop sh ws i w item q :
    ws !! i = Some (Idle w) ->
    queue sh = item :: q ->
    traced_step (sh, ws) (EPop i item)
      (set_queue q sh, <[i := Busy w item]> ws)
| tstep_exit sh ws i w :
    ws !! i = Some (Idle w) ->
    queue sh = [] ->
    traced_step (sh, ws) (EExit i) (sh, <[i := Exited]> ws)
| tstep_end sh ws i w item wd w' sh' e :
    ws !! i = Some (Busy w item) ->
    worker_iteration wd item w sh = (w', sh', e) ->
    traced_step (sh, ws) (EEnd i item wd w w' e)
      (sh', <[i := Idle w']> ws).

Inductive traced_run : system -> list event -> system -> Prop :=
| trun_nil s : traced_run s [] s
| trun_cons s ev s' evs s'' :
    traced_step s ev s' -> traced_run s' evs s'' ->
    traced_run s (ev :: evs) s''.

(** The event is an iteration on the record with identifier [k] that
    ended as found, and [en] holds the record's row and a web site
    that the worker fetched during that iteration, as page number
    [n] of its renderer, and whose text was not empty and passed the
    address check and the keyword check for the record. *)
Definition fetched_and_checked (ev : event) (k : Z) (en : result) : Prop :=
  match ev with
  | EEnd i item wd w w' (Recorded true _) =>
      item_id item = k /\ res_row en = snd item
      /\ exists url n text,
           WEBSITE_URL en = Some url
           /\ fetches w <= n < fetches w'
           /\ get_page_text (fetch wd n url) = Some text
           /\ text <> []
           /\ check_address_match text (snd item) = true
           /\ check_towing_mention text = true
  | _ => False
  end.

(** The rows that [main] has to search: no service term in the name,
    and the identifier neither in the checkpoint nor in the results
    file. *)
Definition to_search (checkpoint : gset Z) (loaded : gmap Z result)
  (r : row) : bool :=
  negb (has_tow_name r)
  && negb (bool_decide (DOT_NUMBER r ∈ checkpoint ∪ dom loaded)).

(** * Properties *)

(** ** Strings *)

Lemma eqb_char_eq a b : eqb_char a b = true <-> a = b.
Proof. unfold eqb_char. apply Ascii.eqb_eq. Qed.

Lemma eqb_char_refl a : eqb_char a a = true.
Proof. apply eqb_char_eq. reflexivity. Qed.

Lemma eqb_str_eq a b : eqb_str a b = true <-> a = b.
Proof.
  revert b. induction a as [|x a IH]; intros [|y b]; simpl; split;
    try congruence; try discriminate.
  - intros H. apply andb_true_iff in H as [H1 H2].
    apply eqb_char_eq in H1. apply IH in H2. congruence.
  - intros H. injection H as -> ->. rewrite eqb_char_refl.
    apply IH. reflexivity.
Qed.

Lemma eqb_str_refl a : eqb_str a a = true.
Proof. apply eqb_str_eq. reflexivity. Qed.

Lemma url_in_spec u urls : url_in u urls = true <-> u ∈ urls.
Proof.
  unfold url_in. rewrite existsb_exists. split.
  - intros (x & Hx & E). apply eqb_str_eq in E. subst.
    apply list_elem_of_In. exact Hx.
  - intros H. exists u. split; [apply list_elem_of_In, H | apply eqb_str_refl].
Qed.

(** ** The worker's iteration *)

Section WorkerFacts.

Variable wd : world.

Lemma bind_ok {A B} (m : M A) (f : A -> M B) w w' a :
  m w = (w', Ok a) -> bind m f w = f a w'.
Proof. unfold bind. intros ->. reflexivity. Qed.

Lemma bind_raised {A B} (m : M A) (f : A -> M B) w w' :
  m w = (w', Raised) -> bind m f w = (w', Raised).
Proof. unfold bind. intros ->. reflexivity. Qed.

(** A search that meets the engine's error page ends the processing of
    the name with ["DDG_RESTART"] after this one query. *)
Lemma process_company_restart r name w :
  snd (search_duckduckgo (ddg wd (searches w) (exact_query name r)))
  = SearchRestart ->
  process_company wd r name w
  = (count_search (exact_query name r) w, Ok (None, DDG_RESTART)).
Proof.
  intros H. unfold process_company, bind, do_search. rewrite H. reflexivity.
Qed.

Lemma process_company_blocked r name w :
  snd (search_duckduckgo (ddg wd (searches w) (exact_query name r)))
  = SearchBlocked ->
  process_company wd r name w
  = (count_search (exact_query name r) w, Ok (None, DDG_BLOCKED)).
Proof.
  intros H. unfold process_company, bind, do_search. rewrite H. reflexivity.
Qed.

(** [check_urls] and [process_company] do not raise, and every query
    they send is recorded in front of the earlier ones. *)
Lemma check_urls_ok r urls w :
  exists w' out,
    check_urls wd r urls w = (w', Ok out)
    /\ queries w' = queries w /\ searches w' = searches w
    /\ closes w' = closes w /\ creates w' = creates w
    /\ restart_count w' = restart_count w
    /\ processed_count w' = processed_count w.
Proof.
  revert w. induction urls as [|u urls IH]; intros w; simpl.
  - exists w, (None, NO_TOWING). repeat split; reflexivity.
  - unfold bind, do_fetch.
    destruct (IH (count_fetch w)) as (w' & out & E & Hq).
    destruct (get_page_text _) as [[|c t]|]; try (exists w', out; split; [exact E | exact Hq]).
    destruct (negb (check_address_match _ _));
      [exists w', out; split; [exact E | exact Hq]|].
    destruct (negb (check_towing_mention _));
      [exists w', out; split; [exact E | exact Hq]|].
    eexists _, _. split; [reflexivity|]. repeat split; reflexivity.
Qed.

Lemma process_company_ok r name w :
  exists w' out,
    process_company wd r name w = (w', Ok out)
    /\ (exists more, queries w' = more ++ exact_query name r :: queries w)
    /\ closes w' = closes w /\ creates w' = creates w
    /\ restart_count w' = restart_count w
    /\ processed_count w' = processed_count w.
Proof.
  unfold process_company, bind, do_search.
  destruct (search_duckduckgo _) as [urls st]; simpl.
  destruct st.
  - destruct (length urls <? 5).
    + unfold bind, do_search.
      destruct (search_duckduckgo (ddg wd (searches (count_search _ w)) _))
        as [urls2 st2]; simpl.
      destruct st2; simpl.
      * destruct (urls ++ _) as [|u l] eqn:E.
        -- eexists _, _. split; [reflexivity|]. split;
             [exists [broad_query name r]; reflexivity|].
           repeat split; reflexivity.
        -- destruct (check_urls_ok r
              (firstn MAX_URLS_TO_CHECK
                 (sort_urls_by_priority (set_order wd) (u :: l)))
              (count_search (broad_query name r)
                 (count_search (exact_query name r) w)))
             as (w' & out & Ec & Hq & Hs & Hc & Hcr & Hr & Hp).
           exists w', out. split; [exact Ec|]. split;
             [exists [broad_query name r]; rewrite Hq; reflexivity|].
           rewrite Hc, Hcr, Hr, Hp. repeat split; reflexivity.
      * eexists _, _. split; [reflexivity|]. split;
          [exists [broad_query name r]; reflexivity|].
        repeat split; reflexivity.
      * eexists _, _. split; [reflexivity|]. split;
          [exists [broad_query name r]; reflexivity|].
        repeat split; reflexivity.
    + simpl. destruct urls as [|u l].
      * eexists _, _. split; [reflexivity|]. split;
          [exists []; reflexivity|]. repeat split; reflexivity.
      * destruct (check_urls_ok r
              (firstn MAX_URLS_TO_CHECK
                 (sort_urls_by_priority (set_order wd) (u :: l)))
              (count_search (exact_query name r) w))
             as (w' & out & Ec & Hq & Hs & Hc & Hcr & Hr & Hp).
        exists w', out. split; [exact Ec|]. split;
          [exists []; rewrite Hq; reflexivity|].
        rewrite Hc, Hcr, Hr, Hp. repeat split; reflexivity.
  - eexists _, _. split; [reflexivity|]. split;
      [exists []; reflexivity|]. repeat split; reflexivity.
  - eexists _, _. split; [reflexivity|]. split;
      [exists []; reflexivity|]. repeat split; reflexivity.
Qed.

End WorkerFacts.

Section WorkerClaims.

Variable wd : world.

Lemma try_dba_no_candidate r clean_legal cur website status w :
  dba_candidate r clean_legal = None ->
  try_dba wd r clean_legal cur website status w
  = (w, Ok (Save false website status)).
Proof.
  unfold dba_candidate, try_dba. intros H.
  destruct (truthy (DBA_NAME r) && notna (DBA_NAME r)); [|reflexivity].
  destruct (clean_company_name _) as [d|]; [|reflexivity].
  destruct (opt_str_eqb (Some d) clean_legal); [reflexivity|discriminate].
Qed.

Lemma try_dba_candidate r clean_legal cur website status w d :
  dba_candidate r clean_legal = Some d ->
  try_dba wd r clean_legal cur website status w
  = bind (attempt wd r d cur)
      (fun a =>
         if pstatus_eqb (snd (snd a)) DDG_BLOCKED then ret Requeue
         else ret (Save (pstatus_eqb (snd (snd a)) TOWING_FOUND)
                     (fst (snd a)) (Some (snd (snd a))))) w.
Proof.
  unfold dba_candidate, try_dba. intros H.
  destruct (truthy (DBA_NAME r) && notna (DBA_NAME r)); [|discriminate].
  destruct (clean_company_name _) as [d'|]; [|discriminate].
  destruct (opt_str_eqb (Some d') clean_legal); [discriminate|].
  injection H as ->. reflexivity.
Qed.

(** One turn of the restart loop when the session can be replaced
    and the engine answers with its error page again. *)
Lemma restart_loop_turn fuel r name cur w :
  cur < max_restarts ->
  close_raises wd (closes w) = false ->
  create_raises wd (creates w) = false ->
  snd (search_duckduckgo (ddg wd (searches w) (exact_query name r)))
  = SearchRestart ->
  restart_loop wd (S fuel) r name cur (None, DDG_RESTART) w
  = restart_loop wd fuel r name (S cur) (None, DDG_RESTART)
      (count_search (exact_query name r)
         (count_create (count_close (count_restart w)))).
Proof.
  intros Hc Hcl Hcr Hs. simpl.
  apply Nat.ltb_lt in Hc. rewrite Hc. simpl.
  unfold bind at 1. unfold incr_restart_count.
  unfold bind at 1. unfold context_close. simpl. rewrite Hcl.
  unfold bind at 1. unfold create_context. simpl. rewrite Hcr.
  unfold bind at 1.
  rewrite process_company_restart by exact Hs. reflexivity.
Qed.

Lemma restart_loop_exhausted fuel r name out w :
  restart_loop wd fuel r name max_restarts out w
  = (w, Ok (max_restarts, out)).
Proof.
  destruct fuel; simpl; rewrite andb_false_r; reflexivity.
Qed.

(** Four engine errors in a row: the attempt on the name ends as
    ["SKIPPED"] after exactly three restarts. *)
Lemma attempt_four_errors r name w :
  (forall i q, i < 4 ->
     snd (search_duckduckgo (ddg wd (searches w + i) q)) = SearchRestart) ->
  (forall i, i < 3 ->
     close_raises wd (closes w + i) = false
     /\ create_raises wd (creates w + i) = false) ->
  exists w',
    attempt wd r name 0 w = (w', Ok (3, (None, SKIPPED)))
    /\ restart_count w' = restart_count w + 3
    /\ closes w' = closes w + 3 /\ creates w' = creates w + 3
    /\ searches w' = searches w + 4
    /\ processed_count w' = processed_count w.
Proof.
  intros Hs Hr.
  assert (H0 := Hs 0). assert (H1 := Hs 1). assert (H2 := Hs 2).
  assert (H3 := Hs 3).
  destruct (Hr 0) as [C0 D0]; [lia|]. destruct (Hr 1) as [C1 D1]; [lia|].
  destruct (Hr 2) as [C2 D2]; [lia|].
  rewrite Nat.add_0_r in *.
  replace (searches w + 1) with (S (searches w)) in * by lia.
  replace (searches w + 2) with (S (S (searches w))) in * by lia.
  replace (searches w + 3) with (S (S (S (searches w)))) in * by lia.
  replace (closes w + 1) with (S (closes w)) in * by lia.
  replace (closes w + 2) with (S (S (closes w))) in * by lia.
  replace (creates w + 1) with (S (creates w)) in * by lia.
  replace (creates w + 2) with (S (S (creates w))) in * by lia.
  eexists. split.
  - unfold attempt. unfold bind at 1.
    rewrite process_company_restart by (apply H0; lia).
    unfold bind at 1. unfold max_restarts at 1.
    rewrite restart_loop_turn;
      [|unfold max_restarts; lia|exact C0|exact D0|apply H1; lia].
    rewrite restart_loop_turn;
      [|unfold max_restarts; lia|exact C1|exact D1|apply H2; lia].
    rewrite restart_loop_turn;
      [|unfold max_restarts; lia|exact C2|exact D2|apply H3; lia].
    change 3 with max_restarts at 1.
    rewrite restart_loop_exhausted. reflexivity.
  - simpl. repeat split; lia.
Qed.

(** With the restart budget used up, one more engine error on the
    DBA name is ["SKIPPED"] at once. *)
Lemma attempt_no_budget_error r name w :
  snd (search_duckduckgo (ddg wd (searches w) (exact_query name r)))
  = SearchRestart ->
  attempt wd r name max_restarts w
  = (count_search (exact_query name r) w, Ok (max_restarts, (None, SKIPPED))).
Proof.
  intros H. unfold attempt. unfold bind at 1.
  rewrite process_company_restart by exact H.
  unfold bind. rewrite restart_loop_exhausted. reflexivity.
Qed.

(** C3 (as amended). When the engine answers four searches in a row
    with its error page (the first attempt on the legal name and the
    attempt after each of the three restarts) and the session can be
    replaced each time, the attempt on the legal name ends as
    ["SKIPPED"] after exactly three restarts; when moreover there is
    no DBA name to try, or the engine answers the search for it with
    its error page too, the record is saved with the disposition
    SKIPPED and its session was replaced exactly three times. *)
Theorem engine_error_skipped r name w :
  clean_company_name_cell (LEGAL_NAME r) = Ok (Some name) ->
  (forall i q, i < 4 ->
     snd (search_duckduckgo (ddg wd (searches w + i) q)) = SearchRestart) ->
  (forall i, i < 3 ->
     close_raises wd (closes w + i) = false
     /\ create_raises wd (creates w + i) = false) ->
  (dba_candidate r (Some name) = None
   \/ forall q,
        snd (search_duckduckgo (ddg wd (searches w + 4) q)) = SearchRestart) ->
  (exists w1,
     try_legal wd r (Some name) w = (w1, Ok (3, None, Some SKIPPED))
     /\ restart_count w1 = restart_count w + 3)
  /\ exists w',
       try_names wd r w = (w', Ok (Save false None (Some SKIPPED)))
       /\ restart_count w' = restart_count w + 3
       /\ closes w' = closes w + 3 /\ creates w' = creates w + 3
       /\ forall i sh,
            disposition_of (snd (worker_iteration wd (i, r) w sh))
            = DISP_SKIPPED.
Proof.
  intros Hname Hs Hr Hdba.
  destruct (attempt_four_errors r name w Hs Hr)
    as (w1 & E1 & R1 & C1 & D1 & S1 & P1).
  assert (EL : try_legal wd r (Some name) w = (w1, Ok (3, None, Some SKIPPED))).
  { unfold try_legal, bind. rewrite E1. reflexivity. }
  split; [exists w1; split; [exact EL | exact R1]|].
  assert (ET : exists w',
             try_names wd r w = (w', Ok (Save false None (Some SKIPPED)))
             /\ restart_count w' = restart_count w + 3
             /\ closes w' = closes w + 3 /\ creates w' = creates w + 3).
  { unfold try_names. rewrite Hname. unfold bind at 1. rewrite EL. simpl.
    destruct Hdba as [Hnone | Hfifth].
    - rewrite try_dba_no_candidate by exact Hnone.
      exists w1. repeat split; assumption.
    - destruct (dba_candidate r (Some name)) as [d|] eqn:Ed.
      + rewrite (try_dba_candidate r (Some name) 3 None (Some SKIPPED) w1 d Ed).
        unfold bind. change 3 with max_restarts.
        rewrite attempt_no_budget_error by (rewrite S1; apply Hfifth).
        simpl. eexists. split; [reflexivity|]. simpl.
        repeat split; assumption.
      + rewrite try_dba_no_candidate by exact Ed.
        exists w1. repeat split; assumption. }
  destruct ET as (w' & ET & R & C & D).
  exists w'. split; [exact ET|]. repeat split; try assumption.
  intros i sh. unfold worker_iteration. simpl. rewrite ET. reflexivity.
Qed.

(** The engine blocks the search for the legal name: the disposition
    is BLOCKED_RETRY. *)
Lemma blocked_primary_requeues i r name w sh :
  clean_company_name_cell (LEGAL_NAME r) = Ok (Some name) ->
  snd (search_duckduckgo (ddg wd (searches w) (exact_query name r)))
  = SearchBlocked ->
  disposition_of (snd (worker_iteration wd (i, r) w sh)) = BLOCKED_RETRY.
Proof.
  intros Hname Hb. unfold worker_iteration, try_names. simpl.
  rewrite Hname. unfold bind at 1. unfold try_legal, attempt.
  unfold bind at 1. unfold bind at 1.
  rewrite process_company_blocked by exact Hb.
  unfold bind at 1. simpl. reflexivity.
Qed.

Lemma attempt_ok r name cur w :
  exists w' a,
    attempt wd r name cur w = (w', a)
    /\ (exists more, queries w' = more ++ exact_query name r :: queries w)
    /\ match a with
       | Ok (_, (_, status)) => status <> DDG_RESTART
       | Raised => True
       end.
Proof.
  unfold attempt. unfold bind at 1.
  destruct (process_company_ok wd r name w)
    as (w0 & out & E & (more & Hq) & _).
  rewrite E.
  assert (L : forall fuel cur out w0,
             exists w' a,
               restart_loop wd fuel r name cur out w0 = (w', a)
               /\ exists more, queries w' = more ++ queries w0).
  { clear. induction fuel as [|fuel IH]; intros cur out w0; simpl.
    - destruct (_ && _); eexists _, _; (split; [reflexivity|]);
        exists []; reflexivity.
    - destruct (_ && _);
        [|eexists _, _; (split; [reflexivity|]); exists []; reflexivity].
      unfold bind at 1. unfold incr_restart_count.
      unfold bind at 1. unfold context_close. simpl.
      destruct (close_raises wd (closes w0));
        [eexists _, _; (split; [reflexivity|]); exists []; reflexivity|].
      unfold bind at 1. unfold create_context. simpl.
      destruct (create_raises wd (creates w0));
        [eexists _, _; (split; [reflexivity|]); exists []; reflexivity|].
      unfold bind at 1.
      destruct (process_company_ok wd r name
                  (count_create (count_close (count_restart w0))))
        as (w2 & out2 & E2 & (more2 & Hq2) & _).
      rewrite E2.
      destruct (IH (S cur) out2 w2) as (w3 & a & E3 & more3 & Hq3).
      exists w3, a. split; [exact E3|].
      exists (more3 ++ more2 ++ [exact_query name r]).
      rewrite Hq3, Hq2. simpl. rewrite <- !app_assoc. reflexivity. }
  destruct (L max_restarts cur out w0) as (w' & a & E' & more' & Hq').
  unfold bind. rewrite E'.
  destruct a as [[cur' [website status]]|].
  - eexists _, _. split; [reflexivity|]. split.
    + exists (more' ++ more). rewrite Hq', Hq, <- app_assoc. reflexivity.
    + simpl. destruct status; simpl; congruence.
  - eexists _, _. split; [reflexivity|]. split; [|exact I].
    exists (more' ++ more). rewrite Hq', Hq, <- app_assoc. reflexivity.
Qed.

(** The attempt on the legal name never leaves ["DDG_RESTART"] in
    [status]. *)
Lemma try_legal_status r clean_legal w w1 cur website status :
  try_legal wd r clean_legal w = (w1, Ok (cur, website, status)) ->
  status <> Some DDG_RESTART.
Proof.
  unfold try_legal. destruct clean_legal as [name|].
  - unfold bind.
    destruct (attempt_ok r name 0 w) as (w' & a & E & _ & H).
    rewrite E. destruct a as [[c [ws st]]|]; [|discriminate].
    simpl. intros H'. injection H' as <- <- <- <-. congruence.
  - intros H. injection H as <- <- <- <-. discriminate.
Qed.

(** C9 (as amended). After the attempt on the legal name, the worker
    searches for the cleaned DBA name exactly when the legal name
    did not end in ["TOWING_FOUND"] or ["DDG_BLOCKED"] (it ended as
    not found or as skipped, or it cleaned to nothing and was not
    searched at all) and the record has a DBA name whose cleaned form
    is not empty and differs from the cleaned legal name; otherwise
    the renderer is not called again for the record. *)
Theorem dba_search_condition r w clean_legal w1 cur website status :
  clean_company_name_cell (LEGAL_NAME r) = Ok clean_legal ->
  try_legal wd r clean_legal w = (w1, Ok (cur, website, status)) ->
  ((exists d more,
      dba_candidate r clean_legal = Some d
      /\ queries (fst (try_names wd r w))
         = more ++ exact_query d r :: queries w1)
   <-> (status ∈ [None; Some NO_URLS; Some NO_TOWING; Some SKIPPED]
        /\ exists d, dba_candidate r clean_legal = Some d))
  /\ (status ∈ [Some TOWING_FOUND; Some DDG_BLOCKED]
      \/ dba_candidate r clean_legal = None ->
      fst (try_names wd r w) = w1).
Proof.
  intros Hname HL.
  assert (Hnr := try_legal_status r clean_legal w w1 cur website status HL).
  assert (Stay : status ∈ [Some TOWING_FOUND; Some DDG_BLOCKED]
                 \/ dba_candidate r clean_legal = None ->
                 fst (try_names wd r w) = w1).
  { intros H. unfold try_names. rewrite Hname. unfold bind at 1.
    rewrite HL. cbn [fst snd]. destruct H as [H | H].
    - apply list_elem_of_In in H. simpl in H.
      destruct H as [<- | [<- | []]]; reflexivity.
    - destruct (is_status DDG_BLOCKED status); [reflexivity|].
      destruct (is_status TOWING_FOUND status); [reflexivity|].
      rewrite try_dba_no_candidate by exact H. reflexivity. }
  split; [|exact Stay]. split.
  - intros (d & more & Hd & Hq). split; [|exists d; exact Hd].
    destruct status as [[]|]; try (set_solver); try congruence.
    + exfalso. rewrite Stay in Hq by (left; set_solver).
      apply (f_equal length) in Hq. rewrite length_app in Hq. simpl in Hq. lia.
    + exfalso. rewrite Stay in Hq by (left; set_solver).
      apply (f_equal length) in Hq. rewrite length_app in Hq. simpl in Hq. lia.
  - intros (Hst & d & Hd). exists d.
    assert (Hb : is_status DDG_BLOCKED status = false
                 /\ is_status TOWING_FOUND status = false).
    { apply list_elem_of_In in Hst. simpl in Hst.
      destruct Hst as [<- | [<- | [<- | [<- | []]]]]; split; reflexivity. }
    destruct Hb as [Hb Hf].
    unfold try_names. rewrite Hname. unfold bind at 1. rewrite HL.
    cbn [fst snd]. rewrite Hb, Hf.
    rewrite (try_dba_candidate r clean_legal cur website status w1 d Hd).
    destruct (attempt_ok r d cur w1) as (w' & a & E & (more & Hq) & _).
    unfold bind. rewrite E.
    exists more. split; [exact Hd|].
    destruct a as [a|]; [|exact Hq].
    destruct (pstatus_eqb _ _); exact Hq.
Qed.

(** An exception in the attempt on the legal name ends the
    iteration: the DBA name is not searched. *)
Lemma dba_not_searched_after_exception r w clean_legal w1 :
  clean_company_name_cell (LEGAL_NAME r) = Ok clean_legal ->
  try_legal wd r clean_legal w = (w1, Raised) ->
  try_names wd r w = (w1, Raised).
Proof.
  intros Hname HL. unfold try_names. rewrite Hname. unfold bind.
  rewrite HL. reflexivity.
Qed.

End WorkerClaims.

(** C3, the spec's scenario: three engine errors in a row and a
    fourth search that is answered. The session is replaced three
    times, and the record is not skipped: the fourth attempt finds no
    URL and the disposition is NOT_FOUND. *)
Lemma three_engine_errors_not_skipped :
  (forall i q, i < 3 ->
     outcome_of (search_duckduckgo (ddg three_errors_world i q))
     = EngineError)
  /\ restart_count (fst (fst
       (worker_iteration three_errors_world (1, acme_recovery) new_worker
          empty_shared))) = 3
  /\ disposition_of (snd
       (worker_iteration three_errors_world (1, acme_recovery) new_worker
          empty_shared)) = NOT_FOUND.
Proof.
  split; [|split; vm_compute; reflexivity].
  intros i q Hi.
  destruct i as [|[|[|i]]]; try reflexivity. lia.
Qed.

Lemma engine_error_skipped_witness :
  exists w',
    try_names error_world acme_with_dba new_worker
    = (w', Ok (Save false None (Some SKIPPED)))
    /\ restart_count w' = 3.
Proof.
  destruct (engine_error_skipped error_world acme_with_dba
              (str "Acme Recovery") new_worker) as [_ (w' & E & R & _)].
  - vm_compute. reflexivity.
  - intros i q _. vm_compute. reflexivity.
  - intros i _. split; reflexivity.
  - right. intros q. vm_compute. reflexivity.
  - exists w'. split; [exact E | exact R].
Defined.

(** C9, a record whose legal name ends as ["SKIPPED"]: the worker
    goes on to search for the DBA name. *)
Lemma skipped_primary_searches_dba :
  snd (try_legal error_world acme_with_dba (Some (str "Acme Recovery"))
         new_worker) = Ok (3, None, Some SKIPPED)
  /\ head (queries (fst (try_names error_world acme_with_dba new_worker)))
     = Some (exact_query (str "Bravo Roadside") acme_with_dba).
Proof. split; vm_compute; reflexivity. Qed.

Lemma dba_search_condition_witness :
  exists more,
    queries (fst (try_names three_errors_world acme_with_dba new_worker))
    = more ++ exact_query (str "Bravo Roadside") acme_with_dba
              :: queries (fst (try_legal three_errors_world acme_with_dba
                                 (Some (str "Acme Recovery")) new_worker)).
Proof.
  assert (Hname : clean_company_name_cell (LEGAL_NAME acme_with_dba)
                  = Ok (Some (str "Acme Recovery")))
    by (vm_compute; reflexivity).
  assert (E : try_legal three_errors_world acme_with_dba
                (Some (str "Acme Recovery")) new_worker
              = (fst (try_legal three_errors_world acme_with_dba
                        (Some (str "Acme Recovery")) new_worker),
                 Ok (3, None, Some NO_URLS)))
    by (vm_compute; reflexivity).
  assert (Hd : dba_candidate acme_with_dba (Some (str "Acme Recovery"))
               = Some (str "Bravo Roadside"))
    by (vm_compute; reflexivity).
  destruct (dba_search_condition three_errors_world acme_with_dba new_worker
              (Some (str "Acme Recovery")) _ 3 None (Some NO_URLS)
              Hname E) as [[_ H] _].
  destruct H as (d & more & Hd' & Hq).
  - split; [apply list_elem_of_In; simpl; tauto|].
    exists (str "Bravo Roadside"). exact Hd.
  - rewrite Hd in Hd'. injection Hd' as <-. exists more. exact Hq.
Defined.

(** ** Runs of the worker pool *)

Lemma in_flight_app a b : in_flight (a ++ b) = in_flight a ++ in_flight b.
Proof. unfold in_flight. apply omap_app. Qed.

Lemma in_flight_cons st l : in_flight (st :: l) = in_flight [st] ++ in_flight l.
Proof. destruct st; reflexivity. Qed.

Lemma in_flight_insert ws i st st' :
  ws !! i = Some st ->
  in_flight (<[i := st']> ws)
  = in_flight (take i ws)
    ++ in_flight [st'] ++ in_flight (drop (S i) ws).
Proof.
  intros H.
  rewrite insert_take_drop by (eapply lookup_lt_Some; exact H).
  rewrite in_flight_app, in_flight_cons. reflexivity.
Qed.

Lemma in_flight_split ws i st :
  ws !! i = Some st ->
  in_flight ws
  = in_flight (take i ws) ++ in_flight [st] ++ in_flight (drop (S i) ws).
Proof.
  intros H.
  rewrite <- (take_drop_middle ws i st H) at 1.
  rewrite in_flight_app, in_flight_cons. reflexivity.
Qed.

Lemma in_flight_exited ws :
  Forall (fun st => st = Exited) ws -> in_flight ws = [].
Proof.
  induction 1 as [|st ws -> _ IH]; [reflexivity|]. exact IH.
Qed.

Lemma in_flight_start : in_flight (repeat (Idle new_worker) NUM_WORKERS) = [].
Proof. reflexivity. Qed.

(** What an iteration does to the shared state, by the way it ends. *)
Lemma worker_iteration_shared wd item w sh w' sh' e :
  worker_iteration wd item w sh = (w', sh', e) ->
  match e with
  | Requeued => sh' = queue_put item sh
  | Recorded found _ =>
      queue sh' = queue sh
      /\ processed_dots sh' = {[item_id item]} ∪ processed_dots sh
      /\ stats_searched sh' = S (stats_searched sh)
  | Dropped => sh' = sh
  end.
Proof.
  unfold worker_iteration.
  destruct (try_names wd (snd item) w) as [w1 [[|found website status]|]];
    intros H; injection H as <- <- <-; simpl; auto.
Qed.

(** One step moves identifiers between the queue, the workers, the
    processed set and the exception handler, and loses or copies
    none. *)
Lemma step_pending s l s' :
  step s l s' ->
  pending_ids s' ++ added_ids [l] ++ dropped_ids [l] ≡ₚ pending_ids s.
Proof.
  intros H. destruct H as [sh ws i w item q Hi Hq | sh ws i w Hi Hq
                          | sh ws i w item wd w' sh' e Hi Hw];
    unfold pending_ids; cbn [fst snd];
    rewrite (in_flight_insert ws i _ _ Hi), (in_flight_split ws i _ Hi).
  - simpl. rewrite Hq. rewrite !map_app. simpl. solve_Permutation.
  - simpl. solve_Permutation.
  - apply worker_iteration_shared in Hw.
    destruct e as [|found status|]; simpl.
    + subst sh'. simpl. rewrite !map_app. simpl. solve_Permutation.
    + destruct Hw as (-> & _). rewrite !map_app. simpl. solve_Permutation.
    + subst sh'. rewrite !map_app. simpl. solve_Permutation.
Qed.

Lemma added_ids_cons l tr : added_ids (l :: tr) = added_ids [l] ++ added_ids tr.
Proof. destruct l as [| |i item []]; reflexivity. Qed.

Lemma dropped_ids_cons l tr :
  dropped_ids (l :: tr) = dropped_ids [l] ++ dropped_ids tr.
Proof. destruct l as [| |i item []]; reflexivity. Qed.

Lemma run_pending s tr s' :
  run s tr s' ->
  pending_ids s' ++ added_ids tr ++ dropped_ids tr ≡ₚ pending_ids s.
Proof.
  induction 1 as [s | s l s1 tr s2 Hstep _ IH].
  - simpl. rewrite app_nil_r. reflexivity.
  - rewrite <- (step_pending _ _ _ Hstep), <- IH.
    rewrite (added_ids_cons l tr), (dropped_ids_cons l tr).
    solve_Permutation.
Qed.

(** The processed set and the counter of searched records grow by
    the identifiers added, and by nothing else. *)
Lemma run_processed s tr s' :
  run s tr s' ->
  processed_dots (fst s')
  = list_to_set (added_ids tr) ∪ processed_dots (fst s)
  /\ stats_searched (fst s')
     = stats_searched (fst s) + length (added_ids tr).
Proof.
  induction 1 as [s | s l s1 tr s2 Hstep _ [IHp IHs]].
  - split; [|simpl; lia]. cbn [added_ids]. rewrite list_to_set_nil.
    symmetry. apply (left_id_L ∅ (∪)).
  - rewrite IHp, IHs. rewrite (added_ids_cons l tr).
    destruct Hstep as [sh ws i w item q Hi Hq | sh ws i w Hi Hq
                      | sh ws i w item wd w' sh' e Hi Hw]; simpl.
    + split; reflexivity.
    + split; reflexivity.
    + apply worker_iteration_shared in Hw.
      destruct e as [|found status|]; simpl.
      * subst sh'. split; reflexivity.
      * destruct Hw as (_ & -> & ->). split; [|lia].
        rewrite (comm_L (∪) {[item_id item]} (list_to_set (added_ids tr))).
        rewrite !(assoc_L (∪)). reflexivity.
      * subst sh'. split; reflexivity.
Qed.

(** C1 (as amended). On a queue of records with distinct identifiers,
    when the run is complete every identifier was either added to
    the processed set, exactly once, or belongs to a record whose
    iteration ended in the worker's exception handler, which neither
    saves the record nor puts it back. The processed set and the
    counter of searched records have grown by the added identifiers
    and nothing else; when no iteration raised, all the identifiers
    of the queue are in the processed set and as many were added as
    the queue had records. This holds for every interleaving and
    every number of requeues. *)
Theorem run_accounts_for_every_record sh0 tr s :
  NoDup (map item_id (queue sh0)) ->
  run (start_workers sh0) tr s ->
  completed s ->
  added_ids tr ++ dropped_ids tr ≡ₚ map item_id (queue sh0)
  /\ NoDup (added_ids tr)
  /\ processed_dots (fst s)
     = list_to_set (added_ids tr) ∪ processed_dots sh0
  /\ stats_searched (fst s)
     = stats_searched sh0 + length (added_ids tr)
  /\ length (added_ids tr) + length (dropped_ids tr) = length (queue sh0)
  /\ (dropped_ids tr = [] ->
      (forall item, item ∈ queue sh0 ->
                    item_id item ∈ processed_dots (fst s))
      /\ length (added_ids tr) = length (queue sh0)).
Proof.
  intros Hnd Hrun [Hq Hex].
  assert (HP := run_pending _ _ _ Hrun).
  unfold pending_ids, start_workers in HP. cbn [fst snd] in HP.
  rewrite Hq, (in_flight_exited _ Hex), in_flight_start in HP.
  cbn [map app] in HP. rewrite app_nil_r in HP.
  destruct (run_processed _ _ _ Hrun) as [Hp Hs]. simpl in Hp, Hs.
  assert (Hlen : length (added_ids tr) + length (dropped_ids tr)
                 = length (queue sh0)).
  { apply Permutation_length in HP.
    rewrite length_app, length_map in HP. exact HP. }
  assert (Hnd' : NoDup (added_ids tr ++ dropped_ids tr)).
  { rewrite HP. exact Hnd. }
  split; [exact HP|]. split; [apply NoDup_app in Hnd'; tauto|].
  split; [exact Hp|]. split; [exact Hs|]. split; [exact Hlen|].
  intros Hd. rewrite Hd in *. rewrite app_nil_r in HP. simpl in Hlen.
  split; [|lia].
  intros item Hitem. rewrite Hp. apply elem_of_union_l.
  apply elem_of_list_to_set. rewrite HP.
  apply list_elem_of_fmap. exists item. split; [reflexivity | exact Hitem].
Qed.

(** C1, a run that loses a record: the engine shows its error page,
    the worker closes its context to restart, the renderer raises,
    and the handler goes on to the next record. The run completes
    with the record in neither the queue nor the processed set. *)
Lemma dropped_record_not_processed :
  NoDup (map item_id (queue one_record_queue))
  /\ run (start_workers one_record_queue) dropped_run dropped_run_end
  /\ completed dropped_run_end
  /\ ~ (item_id (1, acme_recovery) ∈ processed_dots (fst dropped_run_end))
  /\ added_ids dropped_run = [].
Proof.
  split; [apply NoDup_singleton|].
  split.
  - unfold dropped_run, dropped_run_end, start_workers.
    eapply run_cons; [eapply step_pop; reflexivity|].
    eapply run_cons.
    { eapply (step_end _ _ 0 _ _ crash_world); [reflexivity|].
      vm_compute. reflexivity. }
    eapply run_cons; [eapply (step_exit _ _ 0); reflexivity|].
    eapply run_cons; [eapply (step_exit _ _ 1); reflexivity|].
    eapply run_cons; [eapply (step_exit _ _ 2); reflexivity|].
    eapply run_cons; [eapply (step_exit _ _ 3); reflexivity|].
    apply run_nil.
  - split; [split; [reflexivity | repeat constructor]|].
    split; [|reflexivity]. simpl. apply not_elem_of_empty.
Qed.

Lemma requeue_run_completes :
  exists s, run (start_workers one_record_queue) requeue_run s /\ completed s.
Proof.
  unfold requeue_run, start_workers. eexists. split.
  - eapply run_cons; [eapply step_pop; reflexivity|].
    eapply run_cons.
    { eapply (step_end _ _ 0 _ _ blocked_once_world); [reflexivity|].
      vm_compute. reflexivity. }
    eapply run_cons; [eapply (step_pop _ _ 0); reflexivity|].
    eapply run_cons.
    { eapply (step_end _ _ 0 _ _ blocked_once_world); [reflexivity|].
      vm_compute. reflexivity. }
    eapply run_cons; [eapply (step_exit _ _ 0); reflexivity|].
    eapply run_cons; [eapply (step_exit _ _ 1); reflexivity|].
    eapply run_cons; [eapply (step_exit _ _ 2); reflexivity|].
    eapply run_cons; [eapply (step_exit _ _ 3); reflexivity|].
    apply run_nil.
  - split; [reflexivity | repeat constructor].
Qed.

Lemma run_accounts_for_every_record_witness :
  requeues requeue_run = 1
  /\ exists s,
       run (start_workers one_record_queue) requeue_run s
       /\ item_id (1, acme_recovery) ∈ processed_dots (fst s)
       /\ length (added_ids requeue_run) = 1.
Proof.
  split; [reflexivity|].
  destruct requeue_run_completes as (s & Hrun & Hc).
  exists s. split; [exact Hrun|].
  destruct (run_accounts_for_every_record one_record_queue requeue_run s)
    as (_ & _ & _ & _ & _ & H).
  - apply NoDup_singleton.
  - exact Hrun.
  - exact Hc.
  - destruct (H eq_refl) as [Hin Hlen]. split; [|exact Hlen].
    apply Hin. simpl. apply list_elem_of_here.
Defined.

(** ** The matcher and what a pattern denotes *)

Lemma last_or_cons (c : ascii) (w : pystr) (prev : option ascii) :
  match last (c :: w) with Some x => Some x | None => prev end
  = match last w with Some x => Some x | None => Some c end.
Proof. rewrite last_cons. destruct (last w); reflexivity. Qed.

Section MatcherFacts.

Variable ignorecase : bool.

Lemma star_sound {A} p prev s (k : option ascii -> pystr -> option A) x :
  star p prev s k = Some x ->
  exists prev' rest,
    denotes ignorecase (RStar p) prev s prev' rest /\ k prev' rest = Some x.
Proof.
  revert prev. induction s as [|c s IH]; intros prev; simpl.
  - intros H. exists prev, []. split; [|exact H].
    exists []. repeat split.
  - destruct (p c) eqn:Hp.
    + destruct (star p (Some c) s k) as [y|] eqn:E.
      * intros H. injection H as ->.
        destruct (IH _ E) as (prev' & rest & (w & -> & Hw & Hl) & Hk).
        exists prev', rest. split; [|exact Hk].
        exists (c :: w). split; [reflexivity|]. split.
        -- simpl. rewrite Hp, Hw. reflexivity.
        -- rewrite Hl. symmetry. apply last_or_cons.
      * intros H. exists prev, (c :: s). split; [|exact H].
        exists []. repeat split.
    + intros H. exists prev, (c :: s). split; [|exact H].
      exists []. repeat split.
Qed.

Lemma star_complete {A} p prev w rest
  (k : option ascii -> pystr -> option A) :
  forallb p w = true ->
  is_Some (k (match last w with Some c => Some c | None => prev end) rest) ->
  is_Some (star p prev (w ++ rest) k).
Proof.
  revert prev. induction w as [|c w IH]; intros prev Hw Hk; simpl in *.
  - destruct rest as [|c rest]; simpl; [exact Hk|].
    destruct (p c); [|exact Hk].
    destruct (star p (Some c) rest k); [eauto | exact Hk].
  - apply andb_true_iff in Hw as [Hc Hw]. rewrite Hc.
    assert (H : is_Some (star p (Some c) (w ++ rest) k)).
    { apply IH; [exact Hw|]. rewrite <- (last_or_cons c w prev). exact Hk. }
    destruct H as [y ->]. eauto.
Qed.

(** A match found by the matcher is a match of the pattern. *)
Lemma run_sound {A} r prev s (k : option ascii -> pystr -> option A) x :
  Re.run ignorecase r prev s k = Some x ->
  exists prev' rest,
    denotes ignorecase r prev s prev' rest /\ k prev' rest = Some x.
Proof.
  revert prev s k x.
  induction r as [c | p | r1 IH1 r2 IH2 | r1 IH1 r2 IH2 | r1 IH1 | p |];
    intros prev s k x; simpl.
  - destruct s as [|y s]; [discriminate|].
    destruct (char_matches ignorecase c y) eqn:E; [|discriminate].
    intros H. exists (Some y), s. split; [|exact H]. exists y. auto.
  - destruct s as [|y s]; [discriminate|].
    destruct (p y) eqn:E; [|discriminate].
    intros H. exists (Some y), s. split; [|exact H]. exists y. auto.
  - intros H. apply IH1 in H as (pm & sm & D1 & H).
    apply IH2 in H as (prev' & rest & D2 & H).
    exists prev', rest. split; [|exact H]. exists pm, sm. auto.
  - destruct (Re.run ignorecase r1 prev s k) as [y|] eqn:E.
    + intros H. injection H as ->.
      apply IH1 in E as (prev' & rest & D & H). exists prev', rest. auto.
    + intros H. apply IH2 in H as (prev' & rest & D & H).
      exists prev', rest. auto.
  - destruct (Re.run ignorecase r1 prev s k) as [y|] eqn:E.
    + intros H. injection H as ->.
      apply IH1 in E as (prev' & rest & D & H). exists prev', rest. auto.
    + intros H. exists prev, s. auto.
  - apply star_sound.
  - destruct (at_boundary prev s) eqn:E; [|discriminate].
    intros H. exists prev, s. auto.
Qed.

(** A match of the pattern after which the continuation succeeds
    makes the matcher succeed (with that match or with one of higher
    priority). *)
Lemma run_complete {A} r prev s prev' rest
  (k : option ascii -> pystr -> option A) :
  denotes ignorecase r prev s prev' rest ->
  is_Some (k prev' rest) ->
  is_Some (Re.run ignorecase r prev s k).
Proof.
  revert prev s prev' rest k.
  induction r as [c | p | r1 IH1 r2 IH2 | r1 IH1 r2 IH2 | r1 IH1 | p |];
    intros prev s prev' rest k; simpl.
  - intros (x & -> & Hc & ->) Hk. rewrite Hc. exact Hk.
  - intros (x & -> & Hc & ->) Hk. rewrite Hc. exact Hk.
  - intros (pm & sm & D1 & D2) Hk.
    eapply IH1; [exact D1|]. eapply IH2; [exact D2 | exact Hk].
  - intros [D | D] Hk.
    + destruct (IH1 _ _ _ _ k D Hk) as [y ->]. eauto.
    + destruct (Re.run ignorecase r1 prev s k); [eauto|].
      eapply IH2; [exact D | exact Hk].
  - intros [D | [-> ->]] Hk.
    + destruct (IH1 _ _ _ _ k D Hk) as [y ->]. eauto.
    + destruct (Re.run ignorecase r1 prev s k); [eauto | exact Hk].
  - intros (w & -> & Hw & ->) Hk. apply star_complete; assumption.
  - intros (Hb & -> & ->) Hk. rewrite Hb. exact Hk.
Qed.

Lemma match_at_sound r prev s rest :
  match_at ignorecase r prev s = Some rest ->
  exists prev', denotes ignorecase r prev s prev' rest.
Proof.
  unfold match_at. intros H.
  apply run_sound in H as (prev' & rest' & D & E).
  injection E as ->. exists prev'. exact D.
Qed.

Lemma match_at_complete r prev s prev' rest :
  denotes ignorecase r prev s prev' rest ->
  is_Some (match_at ignorecase r prev s).
Proof.
  intros D. unfold match_at. eapply run_complete; [exact D | eauto].
Qed.

(** A match anywhere in the subject makes the search succeed. *)
Lemma search_from_complete r prev pre s prev' rest :
  denotes ignorecase r
    (match last pre with Some c => Some c | None => prev end) s prev' rest ->
  search_from ignorecase r prev (pre ++ s) = true.
Proof.
  revert prev. induction pre as [|c pre IH]; intros prev D; simpl in *.
  - apply match_at_complete in D as [y E].
    destruct s; simpl; rewrite E; reflexivity.
  - destruct (match_at ignorecase r prev (c :: pre ++ s)); [reflexivity|].
    apply IH. rewrite <- (last_or_cons c pre prev). exact D.
Qed.

Lemma re_search_complete r pre s prev' rest :
  denotes ignorecase r (last pre) s prev' rest ->
  re_search ignorecase r (pre ++ s) = true.
Proof.
  intros D. apply (search_from_complete r None pre s prev' rest).
  destruct (last pre); exact D.
Qed.

(** A literal word matches the texts that are equal to it, up to
    letter case when the flag is set. *)
Lemma denotes_lit w prev s prev' rest :
  w <> [] ->
  denotes ignorecase (lit w) prev s prev' rest
  <-> exists occ,
        s = occ ++ rest
        /\ Forall2 (fun c x => char_matches ignorecase c x = true) w occ
        /\ prev' = last occ.
Proof.
  revert prev s. induction w as [|c w IH]; intros prev s Hne; [congruence|].
  destruct w as [|c' w].
  - simpl. split.
    + intros (x & -> & Hc & ->). exists [x].
      split; [reflexivity|]. split; [|reflexivity].
      constructor; [exact Hc | constructor].
    + intros (occ & -> & Hf & ->).
      inversion Hf as [|? x ? occ' Hc Hf']; subst.
      inversion Hf'; subst. exists x. auto.
  - change (lit (c :: c' :: w)) with (RSeq (RChar c) (lit (c' :: w))).
    cbn [denotes]. split.
    + intros (pm & sm & (x & -> & Hc & ->) & D).
      apply IH in D as (occ & -> & Hf & ->); [|discriminate].
      exists (x :: occ). split; [reflexivity|].
      split; [constructor; assumption|].
      inversion Hf; subst. rewrite (last_cons x).
      rewrite last_cons. destruct (last l'); reflexivity.
    + intros (occ & -> & Hf & ->).
      inversion Hf as [|? x ? occ' Hc Hf']; subst.
      exists (Some x), (occ' ++ rest). split; [exists x; auto|].
      apply IH; [discriminate|].
      exists occ'. split; [reflexivity|]. split; [assumption|].
      inversion Hf'; subst. rewrite (last_cons x).
      rewrite last_cons. destruct (last l'); reflexivity.
Qed.

Lemma denotes_alts r rs prev s prev' rest :
  denotes ignorecase (alts r rs) prev s prev' rest
  <-> exists r', r' ∈ r :: rs /\ denotes ignorecase r' prev s prev' rest.
Proof.
  revert r. induction rs as [|r2 rs IH]; intros r; simpl.
  - split.
    + intros D. exists r. split; [apply list_elem_of_here | exact D].
    + intros (r' & Hin & D). apply list_elem_of_singleton in Hin. subst. exact D.
  - rewrite IH. split.
    + intros [D | (r' & Hin & D)].
      * exists r. split; [apply list_elem_of_here | exact D].
      * exists r'. split; [apply list_elem_of_further, Hin | exact D].
    + intros (r' & Hin & D). apply elem_of_cons in Hin as [-> | Hin].
      * left. exact D.
      * right. exists r'. auto.
Qed.

Lemma denotes_words_alt ws prev s prev' rest :
  ws <> [] ->
  denotes ignorecase (words_alt ws) prev s prev' rest
  <-> exists w, w ∈ ws /\ denotes ignorecase (lit w) prev s prev' rest.
Proof.
  destruct ws as [|w ws]; [congruence|]. intros _. unfold words_alt.
  rewrite denotes_alts. split.
  - intros (r' & Hin & D).
    change (lit w :: map lit ws) with (map lit (w :: ws)) in Hin.
    apply list_elem_of_fmap in Hin as (w' & -> & Hin). exists w'. auto.
  - intros (w' & Hin & D). exists (lit w'). split; [|exact D].
    change (lit w :: map lit ws) with (map lit (w :: ws)).
    apply list_elem_of_fmap. exists w'. auto.
Qed.

End MatcherFacts.

(** ** Names with a service term *)

Lemma is_word_lower_char c : is_word (lower_char c) = is_word c.
Proof. destruct c as [[] [] [] [] [] [] [] []]; vm_compute; reflexivity. Qed.

Lemma lower_char_idem c : lower_char (lower_char c) = lower_char c.
Proof. destruct c as [[] [] [] [] [] [] [] []]; vm_compute; reflexivity. Qed.

Lemma lower_app a b : lower (a ++ b) = lower a ++ lower b.
Proof. apply map_app. Qed.

Lemma lower_idem s : lower (lower s) = lower s.
Proof.
  unfold lower. rewrite map_map. apply map_ext. apply lower_char_idem.
Qed.

(** Texts that are equal up to letter case match each other
    character by character under [re.IGNORECASE]. *)
Lemma lower_eq_Forall2 w occ :
  lower occ = lower w ->
  Forall2 (fun c x => char_matches true c x = true) w occ.
Proof.
  revert occ. induction w as [|c w IH]; intros [|x occ] H;
    try discriminate; [constructor|].
  simpl in H. injection H as Hc H. constructor.
  - unfold char_matches. rewrite Hc. apply eqb_char_refl.
  - apply IH. exact H.
Qed.

Lemma lower_eq_all_word w occ :
  lower occ = lower w -> forallb is_word w = true -> forallb is_word occ = true.
Proof.
  revert occ. induction w as [|c w IH]; intros [|x occ] H;
    try discriminate; [reflexivity|].
  simpl in H. injection H as Hc H. simpl.
  intros Hw. apply andb_true_iff in Hw as [Hw1 Hw2].
  rewrite <- is_word_lower_char, Hc, is_word_lower_char, Hw1. simpl.
  apply IH; assumption.
Qed.

Lemma tow_roots_are_words root :
  root ∈ TOW_ROOTS -> root <> [] /\ forallb is_word root = true.
Proof.
  intros H. apply list_elem_of_In in H. simpl in H.
  destruct H as [<- | [<- | [<- | [<- | [<- | [<- | []]]]]]];
    (split; [discriminate | vm_compute; reflexivity]).
Qed.

Lemma all_word_head w : w <> [] -> forallb is_word w = true ->
  is_word_opt (head w) = true /\ is_word_opt (last w) = true.
Proof.
  intros Hne Hw. split.
  - destruct w as [|c w]; [congruence|]. simpl in *.
    apply andb_true_iff in Hw as [-> _]. reflexivity.
  - destruct (last w) as [c|] eqn:El.
    + simpl. apply last_Some in El as (l' & ->).
      rewrite forallb_app in Hw. apply andb_true_iff in Hw as [_ Hw].
      simpl in Hw. rewrite andb_true_r in Hw. exact Hw.
    + apply last_None in El. congruence.
Qed.

(** The name pattern finds every whole-word occurrence of a service
    root, in any letter case. *)
Lemma tow_pattern_finds root pre occ post :
  root ∈ TOW_ROOTS ->
  lower occ = lower root ->
  is_word_opt (last pre) = false ->
  is_word_opt (head post) = false ->
  re_search true TOW_NAME_PATTERN (pre ++ occ ++ post) = true.
Proof.
  intros Hroot Hocc Hpre Hpost.
  destruct (tow_roots_are_words root Hroot) as [Hne Hw].
  assert (Hne' : occ <> []).
  { intros ->. destruct root; [congruence | discriminate]. }
  destruct (all_word_head occ Hne' (lower_eq_all_word _ _ Hocc Hw))
    as [Hh Hl].
  apply (re_search_complete true TOW_NAME_PATTERN pre (occ ++ post)
           (last occ) post).
  unfold TOW_NAME_PATTERN. cbn [denotes].
  exists (last pre), (occ ++ post). split.
  - split; [|split; reflexivity].
    unfold at_boundary. rewrite Hpre.
    destruct occ as [|c occ]; [congruence|]. simpl in *. rewrite Hh. reflexivity.
  - exists (last occ), post. split.
    + apply denotes_words_alt; [discriminate|].
      exists root. split; [exact Hroot|].
      apply denotes_lit; [exact Hne|].
      exists occ. split; [reflexivity|]. split; [|reflexivity].
      apply lower_eq_Forall2. exact Hocc.
    + split; [|split; reflexivity].
      unfold at_boundary. rewrite Hl, Hpost. reflexivity.
Qed.

Lemma last_app_cons {A} (l1 : list A) x l2 :
  last (l1 ++ x :: l2) = last (x :: l2).
Proof.
  induction l1 as [|y l1 IH]; [reflexivity|].
  change ((y :: l1) ++ x :: l2) with (y :: (l1 ++ x :: l2)).
  rewrite last_cons, IH. rewrite last_cons.
  destruct (last l2); reflexivity.
Qed.

(** A name with a whole-word service term is recognised, whether the
    term is in the legal name or in the DBA name. *)
Lemma has_tow_in_name_complete root legal dba :
  root ∈ TOW_ROOTS ->
  (exists s, legal = PyStr s /\ has_whole_word root s)
  \/ (exists s, dba = PyStr s /\ has_whole_word root s) ->
  has_tow_in_name legal dba = true.
Proof.
  intros Hroot [(s & -> & pre & occ & post & -> & Hocc & Hpre & Hpost)
               | (s & -> & pre & occ & post & -> & Hocc & Hpre & Hpost)];
    unfold has_tow_in_name.
  - assert (Hne : occ <> []).
    { intros ->. destruct (tow_roots_are_words root Hroot) as [Hne _].
      destruct root; [congruence | discriminate]. }
    assert (E : or_empty (PyStr (pre ++ occ ++ post)) = pre ++ occ ++ post).
    { unfold or_empty. destruct (pre ++ occ ++ post) eqn:E; [|reflexivity].
      apply app_eq_nil in E as [_ E]. apply app_eq_nil in E as [E _].
      congruence. }
    rewrite E. rewrite <- !app_assoc.
    apply (tow_pattern_finds root pre occ
             (post ++ str " " ++ or_empty dba) Hroot Hocc Hpre).
    destruct post; [reflexivity | exact Hpost].
  - assert (Hne : occ <> []).
    { intros ->. destruct (tow_roots_are_words root Hroot) as [Hne _].
      destruct root; [congruence | discriminate]. }
    assert (E : or_empty (PyStr (pre ++ occ ++ post)) = pre ++ occ ++ post).
    { unfold or_empty. destruct (pre ++ occ ++ post) eqn:E; [|reflexivity].
      apply app_eq_nil in E as [_ E]. apply app_eq_nil in E as [E _].
      congruence. }
    rewrite E. rewrite !app_assoc. rewrite <- (app_assoc _ occ post).
    apply (tow_pattern_finds root _ occ post Hroot Hocc); [|exact Hpost].
    change (str " ") with [" "%char].
    destruct pre as [|c pre].
    + rewrite app_nil_r, last_app_cons. reflexivity.
    + rewrite last_app_cons. exact Hpre.
Qed.

(** ** The coordinator's set-up *)

Lemma auto_approve_keeps stamp rows results processed k e :
  results !! k = Some e ->
  fst (auto_approve stamp rows results processed) !! k = Some e.
Proof.
  revert results processed. induction rows as [|r rows IH];
    intros results processed H; simpl; [exact H|].
  destruct (results !! DOT_NUMBER r) eqn:E; [apply IH; exact H|].
  apply IH. rewrite lookup_insert_ne; [exact H|]. congruence.
Qed.

Lemma auto_approve_processed_mono stamp rows results processed k :
  k ∈ processed ->
  k ∈ snd (auto_approve stamp rows results processed).
Proof.
  revert results processed. induction rows as [|r rows IH];
    intros results processed H; simpl; [exact H|].
  destruct (results !! DOT_NUMBER r); apply IH; [exact H|].
  apply elem_of_union_r. exact H.
Qed.

(** After the auto-approve loop every row of [df_auto] has an entry;
    the entry is the one that was loaded if there was one, and
    otherwise carries the sentinel, the identifier being added to
    the processed set. *)
Lemma auto_approve_covers stamp rows results processed r :
  r ∈ rows ->
  exists e,
    fst (auto_approve stamp rows results processed) !! DOT_NUMBER r = Some e
    /\ (forall e0, results !! DOT_NUMBER r = Some e0 -> e = e0)
    /\ (results !! DOT_NUMBER r = None ->
        WEBSITE_URL e = Some AUTO_APPROVED
        /\ DOT_NUMBER r
           ∈ snd (auto_approve stamp rows results processed)).
Proof.
  revert results processed. induction rows as [|r' rows IH];
    intros results processed Hin; [inversion Hin|].
  simpl. apply elem_of_cons in Hin.
  destruct (decide (DOT_NUMBER r = DOT_NUMBER r')) as [Heq | Hne].
  - rewrite <- Heq. destruct (results !! DOT_NUMBER r) as [e0|] eqn:E.
    + exists e0. split; [apply auto_approve_keeps; exact E|].
      split; [intros e1 H1; congruence | discriminate].
    + eexists. split.
      * apply auto_approve_keeps. rewrite Heq. apply lookup_insert_eq.
      * split; [discriminate|]. intros _. split; [reflexivity|].
        apply auto_approve_processed_mono. rewrite Heq.
        apply elem_of_union_l, elem_of_singleton. reflexivity.
  - destruct Hin as [-> | Hin]; [congruence|].
    destruct (results !! DOT_NUMBER r') eqn:E'.
    + apply IH. exact Hin.
    + destruct (IH (<[DOT_NUMBER r' :=
                       {| res_row := r'; WEBSITE_URL := Some AUTO_APPROVED;
                          VERIFIED_AT := stamp |}]> results)
                  ({[DOT_NUMBER r']} ∪ processed) Hin)
        as (e & He & Hkeep & Hnew).
      rewrite lookup_insert_ne in Hkeep, Hnew by congruence.
      exists e. auto.
Qed.

Lemma enumerate_from_rows start rows item :
  item ∈ enumerate_from start rows -> snd item ∈ rows.
Proof.
  revert start. induction rows as [|r rows IH]; intros start H; simpl in H.
  - inversion H.
  - apply elem_of_cons in H as [-> | H]; [apply list_elem_of_here|].
    apply list_elem_of_further. eapply IH. exact H.
Qed.

(** The records that [main] queues have no service term in their
    name and are neither in the result store nor in the processed
    set. *)
Lemma main_setup_queue stamp df checkpoint loaded item :
  item ∈ queue (main_setup stamp df checkpoint loaded) ->
  snd item ∈ df
  /\ has_tow_name (snd item) = false
  /\ results_dict (main_setup stamp df checkpoint loaded) !! item_id item
     = None
  /\ ~ (item_id item ∈ processed_dots (main_setup stamp df checkpoint loaded)).
Proof.
  unfold main_setup. cbn [queue results_dict processed_dots].
  intros H. apply enumerate_from_rows in H.
  apply list_elem_of_In, filter_In in H as [H Hdone].
  apply filter_In in H as [H Htow].
  apply negb_true_iff in Htow. apply negb_true_iff in Hdone.
  apply bool_decide_eq_false in Hdone.
  split; [apply list_elem_of_In; exact H|]. split; [exact Htow|].
  unfold item_id. split.
  - apply not_elem_of_dom. intros Hd. apply Hdone.
    apply elem_of_union_r. exact Hd.
  - intros Hp. apply Hdone. apply elem_of_union_l. exact Hp.
Qed.

(** ** What the workers hold comes from the queue *)

Lemma in_flight_busy ws i w item :
  ws !! i = Some (Busy w item) -> item ∈ in_flight ws.
Proof.
  intros H. rewrite (in_flight_split ws i _ H). simpl.
  apply elem_of_app. right. apply list_elem_of_here.
Qed.

Lemma in_flight_insert_subset ws i st st' item :
  ws !! i = Some st ->
  item ∈ in_flight (<[i := st']> ws) ->
  item ∈ in_flight ws \/ item ∈ in_flight [st'].
Proof.
  intros H. rewrite (in_flight_insert ws i st st' H).
  rewrite (in_flight_split ws i st H). rewrite !elem_of_app.
  intros [Hi | [Hi | Hi]]; auto.
Qed.

Lemma step_items (P : nat * row -> Prop) s l s' :
  step s l s' ->
  (forall item, item ∈ queue (fst s) ++ in_flight (snd s) -> P item) ->
  (forall item, item ∈ queue (fst s') ++ in_flight (snd s') -> P item)
  /\ match l with
     | LPop _ item | LEnd _ item _ => P item
     | LExit _ => True
     end.
Proof.
  intros H HP.
  destruct H as [sh ws i w item q Hi Hq | sh ws i w Hi Hq
                | sh ws i w item wd w' sh' e Hi Hw]; cbn [fst snd] in *.
  - assert (Pitem : P item).
    { apply HP. rewrite Hq. apply elem_of_app. left. apply list_elem_of_here. }
    split; [|exact Pitem]. intros it Hit. simpl in Hit.
    apply elem_of_app in Hit as [Hit | Hit].
    + apply HP. rewrite Hq. apply elem_of_app. left.
      apply list_elem_of_further. exact Hit.
    + apply (in_flight_insert_subset _ _ _ _ _ Hi) in Hit as [Hit | Hit].
      * apply HP. apply elem_of_app. right. exact Hit.
      * simpl in Hit. apply list_elem_of_singleton in Hit. subst. exact Pitem.
  - split; [|exact I]. intros it Hit.
    apply elem_of_app in Hit as [Hit | Hit].
    + apply HP. apply elem_of_app. left. exact Hit.
    + apply (in_flight_insert_subset _ _ _ _ _ Hi) in Hit as [Hit | Hit].
      * apply HP. apply elem_of_app. right. exact Hit.
      * inversion Hit.
  - assert (Pitem : P item).
    { apply HP. apply elem_of_app. right. eapply in_flight_busy. exact Hi. }
    split; [|exact Pitem]. intros it Hit.
    apply elem_of_app in Hit as [Hit | Hit].
    + apply worker_iteration_shared in Hw.
      destruct e as [|found status|].
      * subst sh'. simpl in Hit. apply elem_of_app in Hit as [Hit | Hit].
        -- apply HP. apply elem_of_app. left. exact Hit.
        -- apply list_elem_of_singleton in Hit. subst. exact Pitem.
      * destruct Hw as (Hq & _). rewrite Hq in Hit.
        apply HP. apply elem_of_app. left. exact Hit.
      * subst sh'. apply HP. apply elem_of_app. left. exact Hit.
    + apply (in_flight_insert_subset _ _ _ _ _ Hi) in Hit as [Hit | Hit].
      * apply HP. apply elem_of_app. right. exact Hit.
      * inversion Hit.
Qed.

(** Every record that a worker takes or finishes along a run was in
    the queue, or in a worker's hands, when the run began. *)
Lemma run_items (P : nat * row -> Prop) s tr s' :
  run s tr s' ->
  (forall item, item ∈ queue (fst s) ++ in_flight (snd s) -> P item) ->
  forall l, l ∈ tr ->
    match l with
    | LPop _ item | LEnd _ item _ => P item
    | LExit _ => True
    end.
Proof.
  induction 1 as [s | s l s1 tr s2 Hstep _ IH]; intros HP l' Hl.
  - inversion Hl.
  - destruct (step_items P _ _ _ Hstep HP) as [HP' Hlab].
    apply elem_of_cons in Hl as [-> | Hl]; [exact Hlab|].
    apply IH; assumption.
Qed.

(** C8 (as amended). A record whose legal name or DBA name contains
    a whole-word occurrence, in any letter case, of a service root
    is recognised by [has_tow_in_name]; after [main]'s set-up it has
    an entry in the result store, which is the entry loaded from the
    results file if that file already had one for the identifier
    and otherwise carries the auto-approve sentinel as its URL, the
    identifier being in the processed set; and in every run of the
    workers no worker ever takes the record, so that no search is
    made for it. *)
Theorem service_term_auto_approved root r stamp df checkpoint loaded :
  root ∈ TOW_ROOTS ->
  (exists s, LEGAL_NAME r = PyStr s /\ has_whole_word root s)
  \/ (exists s, DBA_NAME r = PyStr s /\ has_whole_word root s) ->
  r ∈ df ->
  has_tow_in_name (LEGAL_NAME r) (DBA_NAME r) = true
  /\ (exists e,
        results_dict (main_setup stamp df checkpoint loaded) !! DOT_NUMBER r
        = Some e
        /\ (forall e0, loaded !! DOT_NUMBER r = Some e0 -> e = e0)
        /\ (loaded !! DOT_NUMBER r = None ->
            WEBSITE_URL e = Some AUTO_APPROVED
            /\ DOT_NUMBER r
               ∈ processed_dots (main_setup stamp df checkpoint loaded)))
  /\ (forall tr s l,
        run (start_workers (main_setup stamp df checkpoint loaded)) tr s ->
        l ∈ tr ->
        match l with
        | LPop _ item | LEnd _ item _ =>
            item_id item <> DOT_NUMBER r /\ has_tow_name (snd item) = false
        | LExit _ => True
        end).
Proof.
  intros Hroot Hword Hdf.
  assert (Htow : has_tow_in_name (LEGAL_NAME r) (DBA_NAME r) = true).
  { apply (has_tow_in_name_complete root); assumption. }
  assert (Hauto : r ∈ List.filter has_tow_name df).
  { apply list_elem_of_In, filter_In. split; [apply list_elem_of_In, Hdf|].
    exact Htow. }
  destruct (auto_approve_covers stamp _ loaded checkpoint r Hauto)
    as (e & He & Hkeep & Hnew).
  split; [exact Htow|]. split.
  - exists e. unfold main_setup. cbn [results_dict processed_dots]. auto.
  - intros tr s l Hrun Hl.
    apply (run_items
             (fun item => item_id item <> DOT_NUMBER r
                          /\ has_tow_name (snd item) = false)
             _ _ _ Hrun); [|exact Hl].
    intros item Hitem. unfold start_workers in Hitem. cbn [fst snd] in Hitem.
    rewrite in_flight_start, app_nil_r in Hitem.
    apply main_setup_queue in Hitem as (_ & Hno & Hres & _).
    split; [|exact Hno].
    intros Heq. rewrite Heq in Hres.
    unfold main_setup in Hres. cbn [results_dict] in Hres. congruence.
Qed.

(** C8, a record with a service term in its name for which the
    results file already has an entry: the set-up leaves the entry as
    it is, and the URL recorded for the record is not the sentinel. *)
Lemma loaded_result_not_overwritten :
  has_tow_in_name (LEGAL_NAME acme_towing) (DBA_NAME acme_towing) = true
  /\ WEBSITE_URL <$>
       (results_dict
          (main_setup (str "2026-01-01T00:00:00") [acme_towing] ∅
             earlier_results) !! DOT_NUMBER acme_towing)
     = Some (Some (str "https://www.acmetowing.example/")).
Proof. split; vm_compute; reflexivity. Qed.

Lemma service_term_auto_approved_witness :
  exists e,
    results_dict (main_setup (str "2026-01-01T00:00:00")
                    [acme_recovery; acme_towing] ∅ ∅) !! 1001%Z = Some e
    /\ WEBSITE_URL e = Some AUTO_APPROVED.
Proof.
  destruct (service_term_auto_approved (str "towing") acme_towing
              (str "2026-01-01T00:00:00") [acme_recovery; acme_towing] ∅ ∅)
    as (_ & (e & He & _ & Hnew) & _).
  - apply list_elem_of_In. simpl. tauto.
  - left. exists (str "Acme Towing LLC"). split; [reflexivity|].
    exists (str "Acme "), (str "Towing"), (str " LLC").
    split; [reflexivity|]. split; [reflexivity|]. split; reflexivity.
  - apply list_elem_of_In. simpl. tauto.
  - exists e. split; [exact He|]. apply Hnew. reflexivity.
Defined.

(** ** Ordering the candidate URLs *)

Section SortedFacts.

Context {A : Type}.
Variable key : A -> nat.

Lemma insert_by_perm x l : insert_by key x l ≡ₚ x :: l.
Proof.
  induction l as [|y l IH]; simpl; [reflexivity|].
  destruct (key x <=? key y); [reflexivity|].
  rewrite IH. apply perm_swap.
Qed.

Lemma sorted_by_perm l : sorted_by key l ≡ₚ l.
Proof.
  induction l as [|x l IH]; simpl; [reflexivity|].
  rewrite insert_by_perm, IH. reflexivity.
Qed.

Lemma insert_by_sorted x l :
  StronglySorted (fun a b => key a <= key b) l ->
  StronglySorted (fun a b => key a <= key b) (insert_by key x l).
Proof.
  induction 1 as [|y l Hs IH Hy]; simpl.
  - constructor; constructor.
  - destruct (key x <=? key y) eqn:E.
    + apply Nat.leb_le in E. constructor; [constructor; assumption|].
      constructor; [exact E|].
      eapply Forall_impl; [exact Hy|]. intros z Hz. simpl in *. lia.
    + apply Nat.leb_gt in E. constructor; [exact IH|].
      rewrite insert_by_perm. constructor; [lia | exact Hy].
Qed.

Lemma sorted_by_sorted l :
  StronglySorted (fun a b => key a <= key b) (sorted_by key l).
Proof.
  induction l as [|x l IH]; simpl; [constructor|].
  apply insert_by_sorted. exact IH.
Qed.

(** The sort is stable: the elements of one key keep their relative
    order. *)
Lemma insert_by_stable k x l :
  List.filter (fun y => key y =? k) (insert_by key x l)
  = List.filter (fun y => key y =? k) (x :: l).
Proof.
  induction l as [|y l IH]; [reflexivity|].
  cbn [insert_by]. destruct (key x <=? key y) eqn:E; [reflexivity|].
  apply Nat.leb_gt in E.
  cbn [List.filter] in *. rewrite IH.
  destruct (key x =? k) eqn:Ex; destruct (key y =? k) eqn:Ey;
    try reflexivity.
  apply Nat.eqb_eq in Ex, Ey. lia.
Qed.

Lemma sorted_by_stable k l :
  List.filter (fun y => key y =? k) (sorted_by key l)
  = List.filter (fun y => key y =? k) l.
Proof.
  induction l as [|x l IH]; [reflexivity|].
  cbn [sorted_by]. rewrite insert_by_stable.
  cbn [List.filter]. rewrite IH. reflexivity.
Qed.

(** In a list in key order, the elements below a bound come before
    the others. *)
Lemma sorted_split bound l :
  StronglySorted (fun a b => key a <= key b) l ->
  l = List.filter (fun y => key y <? bound) l
      ++ List.filter (fun y => negb (key y <? bound)) l.
Proof.
  induction 1 as [|y l Hs IH Hy]; [reflexivity|].
  cbn [List.filter]. destruct (key y <? bound) eqn:E; simpl.
  - f_equal. exact IH.
  - apply Nat.ltb_ge in E.
    assert (Hnone : List.filter (fun y => key y <? bound) l = []).
    { clear IH Hs. induction Hy as [|z l Hz _ IH]; [reflexivity|].
      simpl. destruct (key z <? bound) eqn:Ez; [|exact IH].
      apply Nat.ltb_lt in Ez. lia. }
    rewrite Hnone in IH |- *. simpl in *. f_equal. exact IH.
Qed.

End SortedFacts.

Lemma first_index_bound u i ds :
  first_index u i ds = 100
  \/ (i <= first_index u i ds < i + length ds).
Proof.
  revert i. induction ds as [|d ds IH]; intros i; simpl; [left; reflexivity|].
  destruct (contains d u); [right; lia|].
  destruct (IH (S i)) as [H | H]; [left; exact H | right; lia].
Qed.

(** A URL is on no priority host exactly when its key is 100. *)
Lemma not_on_priority_host u :
  negb (on_priority_host u) = (get_domain_priority u =? 100).
Proof.
  unfold on_priority_host, get_domain_priority.
  destruct (first_index_bound (lower u) 0 PRIORITY_DOMAINS) as [H | H].
  - rewrite H. reflexivity.
  - set (k := first_index (lower u) 0 PRIORITY_DOMAINS) in *.
    change (length PRIORITY_DOMAINS) with 6 in H.
    destruct (_ <? 100) eqn:E1; destruct (_ =? 100) eqn:E2; try reflexivity.
    + apply Nat.eqb_eq in E2. lia.
    + apply Nat.ltb_ge in E1. lia.
Qed.

Lemma first_occurrences_spec seen l :
  NoDup (first_occurrences seen l)
  /\ forall u, u ∈ first_occurrences seen l <-> u ∈ l /\ ~ (u ∈ seen).
Proof.
  revert seen. induction l as [|x l IH]; intros seen; simpl.
  - split; [constructor|]. intros u. split; [intros H; inversion H|].
    intros [H _]. inversion H.
  - destruct (existsb (eqb_str x) seen) eqn:E.
    + destruct (IH seen) as [Hnd Hel]. split; [exact Hnd|].
      intros u. rewrite Hel, elem_of_cons. split; [tauto|].
      intros [[-> | H] Hs]; [|tauto].
      exfalso. apply Hs. apply url_in_spec. exact E.
    + destruct (IH (x :: seen)) as [Hnd Hel].
      assert (Hx : ~ (x ∈ seen)).
      { intros H. apply url_in_spec in H. unfold url_in in H. congruence. }
      split.
      * constructor; [|exact Hnd]. rewrite Hel. intros [_ H].
        apply H. apply list_elem_of_here.
      * intros u. rewrite !elem_of_cons, Hel, elem_of_cons.
        destruct (decide (u = x)) as [-> | Hne]; [tauto|]. tauto.
Qed.

Lemma input_order_is_set_order : is_set_order input_order.
Proof.
  intros l. destruct (first_occurrences_spec [] l) as [Hnd Hel].
  split; [exact Hnd|]. intros u. unfold input_order. rewrite Hel.
  split; [tauto|]. intros H. split; [exact H|]. intros H'. inversion H'.
Qed.

Lemma reversed_order_is_set_order : is_set_order reversed_order.
Proof.
  intros l. destruct (input_order_is_set_order l) as [Hnd Hel].
  unfold reversed_order. split; [rewrite reverse_Permutation; exact Hnd|].
  intros u. rewrite elem_of_reverse. apply Hel.
Qed.

(** C6 (as amended). [sort_urls_by_priority] returns the distinct
    URLs of its argument, each once, in key order: the URLs on a
    priority host come first and the URLs on none come last. The
    sort is stable with respect to the order in which the set of
    URLs is iterated, which need not be the order of the input: the
    URLs on no priority host (and the URLs of any one priority host)
    keep the relative order they have in that iteration. *)
Theorem sort_urls_by_priority_spec set_order urls :
  is_set_order set_order ->
  NoDup (sort_urls_by_priority set_order urls)
  /\ (forall u, u ∈ sort_urls_by_priority set_order urls <-> u ∈ urls)
  /\ StronglySorted
       (fun a b => get_domain_priority a <= get_domain_priority b)
       (sort_urls_by_priority set_order urls)
  /\ sort_urls_by_priority set_order urls
     = List.filter on_priority_host (sort_urls_by_priority set_order urls)
       ++ List.filter (fun u => negb (on_priority_host u)) (set_order urls)
  /\ forall k,
       List.filter (fun u => get_domain_priority u =? k)
         (sort_urls_by_priority set_order urls)
       = List.filter (fun u => get_domain_priority u =? k) (set_order urls).
Proof.
  intros Hset. destruct (Hset urls) as [Hnd Hel].
  unfold sort_urls_by_priority.
  assert (Hperm := sorted_by_perm get_domain_priority (set_order urls)).
  split; [rewrite Hperm; exact Hnd|].
  split; [intros u; rewrite Hperm; apply Hel|].
  split; [apply sorted_by_sorted|].
  split; [|intros k; apply sorted_by_stable].
  rewrite (sorted_split get_domain_priority 100
             (sorted_by get_domain_priority (set_order urls))
             (sorted_by_sorted _ _)) at 1.
  f_equal.
  rewrite (filter_ext _ (fun u => get_domain_priority u =? 100))
    by (intros u; apply not_on_priority_host).
  rewrite sorted_by_stable.
  apply filter_ext. intros u. symmetry. apply not_on_priority_host.
Qed.

(** C6, two URLs on no priority host, and a set that iterates them
    in the order opposite to the input's: the result has them in the
    set's order, not in the input's. *)
Lemma set_order_not_input_order :
  is_set_order reversed_order
  /\ on_priority_host url_a = false /\ on_priority_host url_b = false
  /\ sort_urls_by_priority reversed_order [url_b; url_a] = [url_a; url_b].
Proof.
  split; [exact reversed_order_is_set_order|].
  repeat split; vm_compute; reflexivity.
Qed.

Lemma sort_urls_by_priority_spec_witness :
  sort_urls_by_priority input_order [url_a; url_bbb; url_a; url_b]
  = List.filter on_priority_host
      (sort_urls_by_priority input_order [url_a; url_bbb; url_a; url_b])
    ++ [url_a; url_b].
Proof.
  destruct (sort_urls_by_priority_spec input_order
              [url_a; url_bbb; url_a; url_b] input_order_is_set_order)
    as (_ & _ & _ & H & _).
  exact H.
Defined.

(** ** The search client *)

Lemma first_valid_link_spec links u :
  first_valid_link links = Ok (Some u) ->
  eligible u /\ Ok (Some u) ∈ links.
Proof.
  induction links as [|[h|] links IH]; cbn [first_valid_link];
    try discriminate.
  destruct (is_valid_url h) eqn:E.
  - intros H. injection H as ->. split; [exact E | apply list_elem_of_here].
  - intros H. destruct (IH H) as [H1 H2]. split; [exact H1|].
    apply list_elem_of_further. exact H2.
Qed.

(** The loop over the result containers adds, per container, at most
    one link, which is eligible and is a link of that container. *)
Lemma scan_articles_spec arts urls :
  exists found,
    scan_articles arts urls = urls ++ found
    /\ length found <= length arts
    /\ Forall eligible found
    /\ forall u, u ∈ found ->
         exists links, Ok links ∈ arts /\ Ok (Some u) ∈ links.
Proof.
  revert urls. induction arts as [|[links|] arts IH]; intros urls;
    cbn [scan_articles].
  - exists []. rewrite app_nil_r. repeat split; auto.
    intros u H. inversion H.
  - destruct (first_valid_link links) as [[h|]|] eqn:E.
    + destruct (IH (urls ++ [h])) as (found & Hf & Hl & Hv & Hp).
      apply first_valid_link_spec in E as [E1 E2].
      exists (h :: found). rewrite Hf, <- app_assoc. split; [reflexivity|].
      split; [simpl; lia|]. split; [constructor; assumption|].
      intros u Hu. apply elem_of_cons in Hu as [-> | Hu].
      * exists links. split; [apply list_elem_of_here | exact E2].
      * destruct (Hp u Hu) as (l & Hl1 & Hl2). exists l.
        split; [apply list_elem_of_further; exact Hl1 | exact Hl2].
    + destruct (IH urls) as (found & Hf & Hl & Hv & Hp).
      exists found. split; [exact Hf|]. split; [simpl; lia|].
      split; [exact Hv|].
      intros u Hu. destruct (Hp u Hu) as (l & Hl1 & Hl2). exists l.
      split; [apply list_elem_of_further; exact Hl1 | exact Hl2].
    + exists []. rewrite app_nil_r. repeat split; auto; [simpl; lia|].
      intros u H. inversion H.
  - exists []. rewrite app_nil_r. repeat split; auto; [simpl; lia|].
    intros u H. inversion H.
Qed.

(** The fallback loop adds eligible links that are not in the list
    yet, and stops at twelve URLs. *)
Lemma scan_links_spec links urls :
  exists added,
    scan_links links urls = urls ++ added
    /\ (length urls < 12 -> length (urls ++ added) <= 12)
    /\ Forall eligible added
    /\ NoDup added
    /\ (forall u, u ∈ added -> ~ (u ∈ urls) /\ Ok (Some u) ∈ links).
Proof.
  revert urls. induction links as [|[[u|]|] links IH]; intros urls;
    cbn [scan_links].
  - exists []. rewrite app_nil_r. split; [reflexivity|]. split; [lia|].
    split; [constructor|]. split; [apply NoDup_nil_2|].
    intros v H; inversion H.
  - destruct (is_valid_url (Some u) && negb (url_in u urls)) eqn:E.
    + apply andb_true_iff in E as [Ev En]. apply negb_true_iff in En.
      assert (Hnot : ~ (u ∈ urls)).
      { intros H. apply url_in_spec in H. congruence. }
      destruct (12 <=? length (urls ++ [u])) eqn:E12.
      * exists [u]. split; [reflexivity|].
        split; [rewrite length_app; simpl; lia|].
        split; [constructor; [exact Ev | constructor]|].
        split; [apply NoDup_singleton|].
        intros v Hv. apply list_elem_of_singleton in Hv. subst.
        split; [exact Hnot | apply list_elem_of_here].
      * apply Nat.leb_gt in E12.
        destruct (IH (urls ++ [u])) as (added & Ha & Hl & Hv & Hnd & Hp).
        exists (u :: added). rewrite Ha, <- app_assoc.
        split; [reflexivity|].
        split; [intros _; rewrite <- app_assoc in Hl; apply Hl; exact E12|].
        split; [constructor; assumption|].
        split.
        -- constructor; [|exact Hnd]. intros Hin.
           destruct (Hp u Hin) as [Hn _]. apply Hn.
           apply elem_of_app. right. apply list_elem_of_here.
        -- intros v Hin. apply elem_of_cons in Hin as [-> | Hin].
           ++ split; [exact Hnot | apply list_elem_of_here].
           ++ destruct (Hp v Hin) as [Hn Hl']. split.
              ** intros H. apply Hn. apply elem_of_app. left. exact H.
              ** apply list_elem_of_further. exact Hl'.
    + destruct (IH urls) as (added & Ha & Hl & Hv & Hnd & Hp).
      exists added. repeat split; auto; try (apply Hp; assumption).
      apply list_elem_of_further. apply Hp. assumption.
  - destruct (IH urls) as (added & Ha & Hl & Hv & Hnd & Hp).
    exists added. repeat split; auto; try (apply Hp; assumption).
    apply list_elem_of_further. apply Hp. assumption.
  - exists []. rewrite app_nil_r. split; [reflexivity|]. split; [lia|].
    split; [constructor|]. split; [apply NoDup_nil_2|].
    intros v H; inversion H.
Qed.

(** What [extract_urls_from_ddg] returns. *)
Lemma extract_urls_spec dom :
  exists top extra,
    extract_urls_from_ddg dom = top ++ extra
    /\ length top <= 12
    /\ length (top ++ extra) <= 12
    /\ Forall eligible (top ++ extra)
    /\ (extra <> [] -> length top < 5)
    /\ NoDup extra
    /\ (forall u, u ∈ extra -> ~ (u ∈ top))
    /\ (forall u, u ∈ top ->
          exists arts links,
            dom_articles dom = Ok arts
            /\ Ok links ∈ firstn 12 arts /\ Ok (Some u) ∈ links)
    /\ (forall u, u ∈ extra ->
          exists links,
            dom_all_links dom = Ok links /\ Ok (Some u) ∈ firstn 30 links).
Proof.
  unfold extract_urls_from_ddg.
  assert (Htop : exists top,
             match dom_articles dom with
             | Ok arts => scan_articles (firstn 12 arts) []
             | Raised => []
             end = top
             /\ length top <= 12 /\ Forall eligible top
             /\ forall u, u ∈ top ->
                  exists arts links,
                    dom_articles dom = Ok arts
                    /\ Ok links ∈ firstn 12 arts /\ Ok (Some u) ∈ links).
  { destruct (dom_articles dom) as [arts|].
    - destruct (scan_articles_spec (firstn 12 arts) [])
        as (found & Hf & Hl & Hv & Hp).
      exists found. split; [exact Hf|].
      split; [rewrite length_firstn in Hl; lia|]. split; [exact Hv|].
      intros u Hu. destruct (Hp u Hu) as (links & H1 & H2).
      exists arts, links. auto.
    - exists []. split; [reflexivity|]. split; [simpl; lia|].
      split; [constructor|]. intros u H. inversion H. }
  destruct Htop as (top & -> & Hlen & Hv & Hp).
  destruct (length top <? 5) eqn:E5.
  - apply Nat.ltb_lt in E5.
    destruct (dom_all_links dom) as [links|].
    + destruct (scan_links_spec (firstn 30 links) top)
        as (added & Ha & Hl & Hva & Hnd & Hpa).
      exists top, added. split; [exact Ha|]. split; [exact Hlen|].
      split; [apply Hl; lia|].
      split; [apply Forall_app; split; assumption|].
      split; [intros _; exact E5|]. split; [exact Hnd|].
      split; [intros u Hu; apply Hpa; exact Hu|]. split; [exact Hp|].
      intros u Hu. exists links. split; [reflexivity|]. apply Hpa. exact Hu.
    + exists top, []. rewrite app_nil_r.
      split; [reflexivity|]. split; [exact Hlen|]. split; [exact Hlen|].
      split; [exact Hv|]. split; [congruence|]. split; [apply NoDup_nil_2|].
      split; [intros u H; inversion H|]. split; [exact Hp|].
      intros u H; inversion H.
  - exists top, []. rewrite app_nil_r.
    split; [reflexivity|]. split; [exact Hlen|]. split; [exact Hlen|].
    split; [exact Hv|]. split; [congruence|]. split; [apply NoDup_nil_2|].
    split; [intros u H; inversion H|]. split; [exact Hp|].
    intros u H; inversion H.
Qed.

Lemma search_ok_extracts pg urls :
  search_duckduckgo pg = (urls, SearchOk) ->
  urls = extract_urls_from_ddg (dp_dom pg).
Proof.
  unfold search_duckduckgo.
  repeat match goal with
         | |- context [if ?b then _ else _] => destruct b
         end; try discriminate; try (intros H; congruence).
  destruct (dp_content pg) as [c|]; try discriminate.
  destruct (length c <? 1000); try discriminate. congruence.
Qed.

(** C7, a page on which two result containers link to the same URL:
    the search succeeds and returns that URL twice. *)
Lemma search_success_with_duplicate :
  search_duckduckgo twin_results_page = ([url_a; url_a], SearchOk)
  /\ ~ NoDup [url_a; url_a].
Proof.
  split; [vm_compute; reflexivity|].
  intros H. apply NoDup_cons in H as [H _]. apply H. apply list_elem_of_here.
Qed.

(** ** Substrings, lower case and stripping *)

Lemma startswith_spec p s :
  startswith p s = true <-> exists post, s = p ++ post.
Proof.
  revert s. induction p as [|x p IH]; intros s; simpl.
  - split; [intros _; exists s; reflexivity | reflexivity].
  - destruct s as [|y s]; simpl.
    + split; [discriminate | intros (post & H); discriminate].
    + rewrite andb_true_iff, eqb_char_eq, IH. split.
      * intros (-> & post & ->). exists post. reflexivity.
      * intros (post & H). injection H as -> ->. split; [reflexivity|].
        exists post. reflexivity.
Qed.

Lemma contains_spec p s :
  contains p s = true <-> exists pre post, s = pre ++ p ++ post.
Proof.
  induction s as [|y s IH]; simpl.
  - rewrite orb_false_r, startswith_spec. split.
    + intros (post & H). exists [], post. exact H.
    + intros (pre & post & H). destruct pre; [exists post; exact H|].
      discriminate.
  - rewrite orb_true_iff, startswith_spec, IH. split.
    + intros [(post & H) | (pre & post & ->)].
      * exists [], post. exact H.
      * exists (y :: pre), post. reflexivity.
    + intros (pre & post & H). destruct pre as [|c pre].
      * left. exists post. exact H.
      * right. injection H as -> ->. exists pre, post. reflexivity.
Qed.

Lemma contains_false p s pre post :
  contains p s = false -> s <> pre ++ p ++ post.
Proof.
  intros H E.
  assert (contains p s = true) by (apply contains_spec; eauto). congruence.
Qed.

(** Lower-casing keeps occurrences. *)
Lemma contains_lower p s :
  contains p s = true -> contains (lower p) (lower s) = true.
Proof.
  rewrite !contains_spec. intros (pre & post & ->).
  exists (lower pre), (lower post). rewrite !lower_app. reflexivity.
Qed.

Lemma re_sub_set_app f repl a b :
  re_sub_set f repl (a ++ b) = re_sub_set f repl a ++ re_sub_set f repl b.
Proof. unfold re_sub_set. apply flat_map_app. Qed.

Lemma lstrip_keeps a s b :
  s <> [] -> is_space (hd " "%char s) = false ->
  exists a', lstrip (a ++ s ++ b) = a' ++ s ++ b.
Proof.
  intros Hne Hs. induction a as [|c a IH]; simpl.
  - exists []. destruct s as [|x s]; [congruence|]. simpl in *.
    rewrite Hs. reflexivity.
  - destruct (is_space c); [exact IH|]. exists (c :: a). reflexivity.
Qed.

Lemma hd_rev_last (s : pystr) d : hd d (rev s) = List.last s d.
Proof.
  induction s as [|x s IH]; [reflexivity|].
  simpl. destruct s as [|y s]; [reflexivity|].
  rewrite <- IH. simpl. destruct (rev s ++ [y]) eqn:E; [|reflexivity].
  apply app_eq_nil in E as [_ E]. discriminate.
Qed.

(** An occurrence that begins and ends with a character other than
    white space survives [strip]. *)
Lemma strip_keeps a s b :
  s <> [] ->
  is_space (hd " "%char s) = false ->
  is_space (List.last s " "%char) = false ->
  exists a' b', strip (a ++ s ++ b) = a' ++ s ++ b'.
Proof.
  intros Hne Hh Hl. unfold strip, rstrip.
  destruct (lstrip_keeps a s b Hne Hh) as (a' & ->).
  rewrite !rev_app_distr, <- app_assoc.
  destruct (lstrip_keeps (rev b) (rev s) (rev a')) as (b' & ->).
  - intros E. apply (f_equal (@rev _)) in E. rewrite rev_involutive in E.
    simpl in E. congruence.
  - rewrite hd_rev_last. exact Hl.
  - exists a', (rev b'). rewrite !rev_app_distr, !rev_involutive, <- app_assoc.
    reflexivity.
Qed.

Lemma lstrip_spec s :
  exists ws, s = ws ++ lstrip s
             /\ (lstrip s = [] \/ is_space (hd " "%char (lstrip s)) = false).
Proof.
  induction s as [|c s (ws & E & H)]; simpl.
  - exists []. split; [reflexivity | left; reflexivity].
  - destruct (is_space c) eqn:Ec.
    + exists (c :: ws). split; [simpl; f_equal; exact E | exact H].
    + exists []. split; [reflexivity | right; exact Ec].
Qed.

(** What [strip] returns is a part of its argument, and is empty or
    begins and ends with a character other than white space. *)
Lemma strip_spec s :
  (exists a b, s = a ++ strip s ++ b)
  /\ (strip s = []
      \/ (is_space (hd " "%char (strip s)) = false
          /\ is_space (List.last (strip s) " "%char) = false)).
Proof.
  unfold strip, rstrip.
  destruct (lstrip_spec s) as (ws & E & H).
  destruct (lstrip_spec (rev (lstrip s))) as (ws' & E' & H').
  set (t := lstrip (rev (lstrip s))) in *.
  assert (El : lstrip s = rev t ++ rev ws').
  { rewrite <- (rev_involutive (lstrip s)), E', rev_app_distr. reflexivity. }
  split.
  - exists ws, (rev ws'). rewrite <- El. exact E.
  - destruct H' as [H' | H']; [left; rewrite H'; reflexivity|].
    destruct t as [|x t]; [left; reflexivity|]. right. split.
    + destruct H as [H | H].
      * rewrite H in El. symmetry in El. apply app_eq_nil in El as [El _].
        apply (f_equal (@rev _)) in El. rewrite rev_involutive in El.
        discriminate.
      * rewrite El in H.
        destruct (rev (x :: t)) eqn:Er; [|exact H].
        apply (f_equal (@rev _)) in Er. rewrite rev_involutive in Er.
        discriminate.
    + rewrite <- hd_rev_last, rev_involutive. exact H'.
Qed.

(** ** The address check *)

Lemma normalize_text_str s :
  s <> [] ->
  normalize_text (PyStr s)
  = strip (re_sub_set (fun c => negb (is_word c || is_space c)) []
             (lower s)).
Proof. destruct s; [congruence | reflexivity]. Qed.

(** An occurrence of the city on the page, in any letter case, is an
    occurrence of the normalized city in the normalized page. *)
Lemma normalize_keeps_occurrence c page :
  contains (lower c) (lower page) = true ->
  contains (normalize_text (PyStr c)) (normalize_text (PyStr page)) = true.
Proof.
  intros H. destruct c as [|x c].
  - apply contains_spec. exists [], (normalize_text (PyStr page)). reflexivity.
  - destruct page as [|y page].
    + apply contains_spec in H as (pre & post & H).
      destruct pre; discriminate.
    + rewrite !normalize_text_str by discriminate.
      apply contains_spec in H as (pre & post & ->).
      rewrite !re_sub_set_app.
      set (F := re_sub_set (fun c => negb (is_word c || is_space c)) []).
      destruct (strip_spec (F (lower (x :: c)))) as [(a & b & E) H].
      set (S := strip (F (lower (x :: c)))) in *.
      destruct H as [H | [Hh Hl]].
      * rewrite H. apply contains_spec. eexists [], _. reflexivity.
      * rewrite E, <- !app_assoc. rewrite (app_assoc (F pre) a).
        destruct (strip_keeps (F pre ++ a) S (b ++ F post))
          as (a' & b' & ->); try assumption.
        -- intros E0. rewrite E0 in Hh. discriminate.
        -- apply contains_spec. exists a', b'. reflexivity.
Qed.

(** C4 (as amended). The address check succeeds when the page shows
    the city (in any letter case; the comparison is made on the
    normalized texts), the normalized city is longer than two
    characters, and the page shows the first five characters of the
    postal code, which are digits. It fails when the normalized page
    does not show the normalized city and the page does not show
    those five characters. *)
Theorem address_match_city_and_zip page r :
  ((exists c, PHY_CITY r = PyStr c /\ contains (lower c) (lower page) = true)
   \/ contains (normalize_text (PHY_CITY r)) (normalize_text (PyStr page))
      = true ->
   2 < length (normalize_text (PHY_CITY r)) ->
   length (firstn 5 (to_str (PHY_ZIP r))) = 5 ->
   forallb is_digit (firstn 5 (to_str (PHY_ZIP r))) = true ->
   contains (firstn 5 (to_str (PHY_ZIP r))) page = true ->
   check_address_match page r = true)
  /\ (contains (normalize_text (PHY_CITY r)) (normalize_text (PyStr page))
      = false ->
      contains (firstn 5 (to_str (PHY_ZIP r))) page = false ->
      check_address_match page r = false).
Proof.
  split.
  - intros Hcity Hlen Hz5 Hzd Hzp.
    assert (Hc : contains (normalize_text (PHY_CITY r))
                   (normalize_text (PyStr page)) = true).
    { destruct Hcity as [(c & -> & H) | H]; [|exact H].
      apply normalize_keeps_occurrence. exact H. }
    unfold check_address_match. rewrite Hc, Hz5, Hzd, Hzp.
    apply Nat.ltb_lt in Hlen. rewrite Hlen.
    destruct (length (normalize_text (PHY_CITY r))) eqn:E;
      [apply Nat.ltb_lt in Hlen; lia|]. reflexivity.
  - intros Hc Hz. unfold check_address_match. rewrite Hc, Hz.
    rewrite !andb_false_r. reflexivity.
Qed.

(** C4, a record whose city has two letters: the page shows the city
    and the five-digit postal code, and the check fails, because a
    city of fewer than three characters is never matched. *)
Lemma short_city_not_matched :
  contains (str "Ay") short_city_page = true
  /\ contains (str "01432") short_city_page = true
  /\ PHY_CITY short_city_row = PyStr (str "Ay")
  /\ PHY_ZIP short_city_row = PyStr (str "01432")
  /\ check_address_match short_city_page short_city_row = false.
Proof. repeat split; vm_compute; reflexivity. Qed.

Lemma address_match_city_and_zip_witness :
  check_address_match hartford_page acme_recovery = true.
Proof.
  destruct (address_match_city_and_zip hartford_page acme_recovery)
    as [H _].
  apply H.
  - left. exists (str "Hartford"). split; vm_compute; reflexivity.
  - vm_compute. lia.
  - vm_compute. reflexivity.
  - vm_compute. reflexivity.
  - vm_compute. reflexivity.
Defined.

(** ** The keyword check *)

Lemma false_positive_loop_rejects patterns page_lower :
  existsb (fun p => re_search false p page_lower) patterns = true ->
  existsb (fun kw =>
             contains kw
               (firstn (sixty_percent (length page_lower)) page_lower))
    SECONDARY_TOW_KEYWORDS = false ->
  false_positive_loop patterns page_lower = false.
Proof.
  intros Hp Hs. induction patterns as [|p patterns IH]; [discriminate|].
  cbn [existsb false_positive_loop] in *.
  destruct (re_search false p page_lower).
  - rewrite Hs. reflexivity.
  - apply IH. exact Hp.
Qed.

(** C2 (as amended). [check_towing_mention] accepts every page that
    contains the phrase "24/7 towing", in any letter case. It rejects
    every page without a primary phrase on which a false-positive
    pattern matches and no secondary keyword at all, the keywords of
    the directory phrase included, occurs in the first 60% of the
    lower-cased text. *)
Theorem towing_mention_spec page_text :
  (contains (str "24/7 towing") page_text = true
   \/ contains (str "24/7 towing") (lower page_text) = true ->
   check_towing_mention page_text = true)
  /\ (existsb (fun kw => contains kw (lower page_text)) PRIMARY_TOW_KEYWORDS
      = false ->
      existsb (fun p => re_search false p (lower page_text))
        FALSE_POSITIVE_PATTERNS = true ->
      existsb (fun kw =>
                 contains kw
                   (firstn (sixty_percent (length (lower page_text)))
                      (lower page_text)))
        SECONDARY_TOW_KEYWORDS = false ->
      check_towing_mention page_text = false).
Proof.
  split.
  - intros H.
    assert (Hl : contains (str "24/7 towing") (lower page_text) = true).
    { destruct H as [H | H]; [|exact H].
      apply contains_lower in H. exact H. }
    unfold check_towing_mention.
    assert (Hp : existsb (fun kw => contains kw (lower page_text))
                   PRIMARY_TOW_KEYWORDS = true).
    { apply existsb_exists. exists (str "24/7 towing").
      split; [|exact Hl]. unfold PRIMARY_TOW_KEYWORDS. simpl. tauto. }
    rewrite Hp. reflexivity.
  - intros Hprim Hfp Hsec. unfold check_towing_mention. rewrite Hprim.
    destruct (negb _); [reflexivity|].
    apply false_positive_loop_rejects; assumption.
Qed.

(** C2, the directory phrase of the spec as the whole page: all the
    occurrences of a secondary keyword (at position 18) are inside
    the match of the pattern "towing near \w+" (positions 18 to 36),
    no primary phrase occurs, and the page is accepted, because the
    keywords of the phrase are themselves in the first 60% of the
    text (its first 21 characters). *)
Lemma directory_phrase_accepted :
  match_at false (lit_then_word "towing near ") (Some " "%char)
    (skipn 18 (lower directory_phrase)) = Some []
  /\ map (fun kw => occurrences kw (lower directory_phrase))
       SECONDARY_TOW_KEYWORDS = [[18]; [18]; []; []]
  /\ existsb (fun kw => contains kw (lower directory_phrase))
       PRIMARY_TOW_KEYWORDS = false
  /\ sixty_percent (length (lower directory_phrase)) = 21
  /\ check_towing_mention directory_phrase = true.
Proof. repeat split; vm_compute; reflexivity. Qed.

Lemma towing_mention_spec_witness :
  check_towing_mention page_with_directory_tail = false.
Proof.
  destruct (towing_mention_spec page_with_directory_tail) as [_ H].
  apply H; vm_compute; reflexivity.
Defined.

(** ** Cleaning a company name *)

Lemma lower_char_dot x : lower_char "."%char = lower_char x -> x = "."%char.
Proof.
  destruct x as [[] [] [] [] [] [] [] []]; vm_compute; intros H;
    solve [reflexivity | discriminate].
Qed.

Lemma space_not_word c : is_space c = true -> is_word c = false.
Proof.
  destruct c as [[] [] [] [] [] [] [] []]; vm_compute; intros H;
    solve [reflexivity | discriminate].
Qed.

Lemma Forall2_lower_eq w occ :
  Forall2 (fun c x => char_matches true c x = true) w occ ->
  lower occ = lower w.
Proof.
  induction 1 as [|c x w occ Hc _ IH]; [reflexivity|].
  simpl. rewrite IH. f_equal. unfold char_matches in Hc.
  apply eqb_char_eq in Hc. congruence.
Qed.

Lemma suffixes_are_words sfx :
  sfx ∈ SUFFIXES -> sfx <> [] /\ forallb is_word sfx = true.
Proof.
  intros H. apply list_elem_of_In in H. simpl in H.
  destruct H as [<- | [<- | [<- | [<- | [<- | [<- | [<- | []]]]]]]];
    (split; [discriminate | vm_compute; reflexivity]).
Qed.

Lemma is_suffix_word_spec occ :
  is_suffix_word occ = true
  <-> exists sfx, sfx ∈ SUFFIXES /\ lower occ = lower sfx.
Proof.
  unfold is_suffix_word. rewrite existsb_exists. split.
  - intros (sfx & Hin & E). apply eqb_str_eq in E.
    exists sfx. split; [apply list_elem_of_In; exact Hin | exact E].
  - intros (sfx & Hin & E). exists sfx.
    split; [apply list_elem_of_In; exact Hin | apply eqb_str_eq; exact E].
Qed.

Lemma suffix_word_is_word occ :
  is_suffix_word occ = true -> occ <> [] /\ forallb is_word occ = true.
Proof.
  intros H. apply is_suffix_word_spec in H as (sfx & Hin & E).
  destruct (suffixes_are_words sfx Hin) as [Hne Hw]. split.
  - intros ->. destruct sfx; [congruence | discriminate].
  - eapply lower_eq_all_word; eassumption.
Qed.

(** What a match of the suffix pattern looks like: it starts where
    no word character precedes, it consists of a suffix word,
    followed either by a character that is not a word character (or
    by the end), or by a period that a word character follows, the
    period then being part of the match. *)
Lemma suffix_match_sound prev s rest :
  match_at true SUFFIX_PATTERN prev s = Some rest ->
  is_word_opt prev = false
  /\ exists occ,
       is_suffix_word occ = true
       /\ ((s = occ ++ rest /\ is_word_opt (head rest) = false)
           \/ (s = occ ++ "."%char :: rest /\ is_word_opt (head rest) = true)).
Proof.
  intros H. apply match_at_sound in H as (prev' & D).
  unfold SUFFIX_PATTERN in D. cbn [denotes] in D.
  destruct D as (p1 & s1 & (Hb & -> & ->) & p2 & s2 & Dw & p3 & s3 & Do
                 & Hb' & Ep & Er).
  subst p3 s3.
  apply denotes_words_alt in Dw as (sfx & Hin & Dl); [|discriminate].
  destruct (suffixes_are_words sfx Hin) as [Hne Hw].
  apply denotes_lit in Dl as (occ & -> & Hf & ->); [|exact Hne].
  apply Forall2_lower_eq in Hf.
  assert (Hsw : is_suffix_word occ = true).
  { apply is_suffix_word_spec. exists sfx. auto. }
  destruct (suffix_word_is_word occ Hsw) as [Hne' Hw'].
  destruct (all_word_head occ Hne' Hw') as [Hh Hl].
  split.
  - unfold at_boundary in Hb. destruct occ as [|c occ]; [congruence|].
    simpl in Hb, Hh. rewrite Hh in Hb.
    destruct (is_word_opt prev); [discriminate | reflexivity].
  - exists occ. split; [exact Hsw|].
    destruct Do as [(x & -> & Hx & Ex) | [Ex Er]].
    + subst prev'. right. unfold char_matches in Hx. apply eqb_char_eq in Hx.
      apply lower_char_dot in Hx. subst x. split; [reflexivity|].
      unfold at_boundary in Hb'. simpl in Hb'. exact Hb'.
    + subst prev' s2. left. split; [reflexivity|].
      unfold at_boundary in Hb'. rewrite Hl in Hb'.
      destruct (is_word_opt (head rest)); [discriminate | reflexivity].
Qed.

(** A suffix word that stands alone is matched. *)
Lemma suffix_match_complete prev occ rest :
  is_word_opt prev = false ->
  is_suffix_word occ = true ->
  is_word_opt (head rest) = false ->
  is_Some (match_at true SUFFIX_PATTERN prev (occ ++ rest)).
Proof.
  intros Hp Hsw Hr.
  destruct (suffix_word_is_word occ Hsw) as [Hne Hw].
  destruct (all_word_head occ Hne Hw) as [Hh Hl].
  apply is_suffix_word_spec in Hsw as (sfx & Hin & E).
  destruct (suffixes_are_words sfx Hin) as [Hne' _].
  apply (match_at_complete true SUFFIX_PATTERN prev (occ ++ rest)
           (last occ) rest).
  unfold SUFFIX_PATTERN. cbn [denotes].
  exists prev, (occ ++ rest). split.
  - split; [|split; reflexivity]. unfold at_boundary. rewrite Hp.
    destruct occ as [|c occ]; [congruence|]. simpl in *. exact Hh.
  - exists (last occ), rest. split.
    + apply denotes_words_alt; [discriminate|]. exists sfx.
      split; [exact Hin|]. apply denotes_lit; [exact Hne'|].
      exists occ. split; [reflexivity|]. split; [|reflexivity].
      apply lower_eq_Forall2. exact E.
    + exists (last occ), rest. split; [right; split; reflexivity|].
      split; [|split; reflexivity].
      unfold at_boundary. rewrite Hl, Hr. reflexivity.
Qed.

(** Two ways of cutting a string into a run of word characters and a
    rest that does not begin with one are the same. *)
Lemma word_prefix_unique (a b ra rb : pystr) :
  a ++ ra = b ++ rb ->
  forallb is_word a = true -> forallb is_word b = true ->
  is_word_opt (head ra) = false -> is_word_opt (head rb) = false ->
  a = b /\ ra = rb.
Proof.
  revert b. induction a as [|x a IH]; intros [|y b] E Ha Hb Hra Hrb;
    simpl in *.
  - auto.
  - subst ra. simpl in Hra. apply andb_true_iff in Hb as [Hy _]. congruence.
  - subst rb. simpl in Hrb. apply andb_true_iff in Ha as [Hx _]. congruence.
  - injection E as -> E. apply andb_true_iff in Ha as [_ Ha].
    apply andb_true_iff in Hb as [_ Hb].
    destruct (IH b E Ha Hb Hra Hrb) as [-> ->]. auto.
Qed.

Lemma word_prefix_exists (s : pystr) :
  exists R rest,
    s = R ++ rest /\ forallb is_word R = true
    /\ is_word_opt (head rest) = false.
Proof.
  induction s as [|c s (R & rest & -> & HR & Hrest)].
  - exists [], []. auto.
  - destruct (is_word c) eqn:E.
    + exists (c :: R), rest. simpl. rewrite E, HR. auto.
    + exists [], (c :: R ++ rest). simpl. auto.
Qed.

(** *** Word runs *)

Lemma word_runs_aux_nonword cur c t :
  is_word c = false ->
  word_runs_aux cur (c :: t) = emit_run cur ++ word_runs t.
Proof. intros H. simpl. rewrite H. destruct cur; reflexivity. Qed.

Lemma word_runs_aux_app cur a c b :
  is_word c = false ->
  word_runs_aux cur (a ++ c :: b) = word_runs_aux cur a ++ word_runs b.
Proof.
  intros Hc. revert cur. induction a as [|x a IH]; intros cur.
  - simpl. rewrite Hc. destruct cur; reflexivity.
  - simpl. destruct (is_word x); [apply IH|].
    destruct cur; rewrite IH; reflexivity.
Qed.

Lemma word_runs_app a c b :
  is_word c = false -> word_runs (a ++ c :: b) = word_runs a ++ word_runs b.
Proof. apply word_runs_aux_app. Qed.

Lemma word_runs_aux_word cur R t :
  forallb is_word R = true ->
  word_runs_aux cur (R ++ t) = word_runs_aux (rev R ++ cur) t.
Proof.
  revert cur. induction R as [|x R IH]; intros cur H; [reflexivity|].
  simpl in *. apply andb_true_iff in H as [Hx H]. rewrite Hx.
  rewrite IH by exact H. rewrite <- app_assoc. reflexivity.
Qed.

Lemma word_runs_skip c t :
  is_word c = false -> word_runs (c :: t) = word_runs t.
Proof. intros H. unfold word_runs. simpl. rewrite H. reflexivity. Qed.

(** A run of word characters in front of a text that does not begin
    with one is the first word run. *)
Lemma word_runs_run R t :
  R <> [] -> forallb is_word R = true -> is_word_opt (head t) = false ->
  word_runs (R ++ t) = R :: word_runs t.
Proof.
  intros Hne HR Ht. unfold word_runs at 1.
  rewrite word_runs_aux_word by exact HR.
  rewrite app_nil_r.
  assert (Hr : rev R <> []).
  { intros E. apply (f_equal (@rev _)) in E. rewrite rev_involutive in E.
    simpl in E. congruence. }
  destruct t as [|c t].
  - simpl. destruct (rev R) eqn:E; [congruence|].
    rewrite <- E, rev_involutive. reflexivity.
  - simpl in Ht. rewrite word_runs_aux_nonword by exact Ht.
    rewrite (word_runs_skip c t Ht).
    unfold emit_run. destruct (rev R) eqn:E; [congruence|].
    rewrite <- E, rev_involutive. reflexivity.
Qed.

(** *** Dropping the matches of the suffix pattern *)

Lemma sub_go_skip ic r a b prev :
  sub_go ic r prev (a ++ b) (length a)
  = sub_go ic r (match last a with Some c => Some c | None => prev end) b 0.
Proof.
  revert prev. induction a as [|c a IH]; intros prev; [reflexivity|].
  cbn [app length sub_go]. rewrite IH. rewrite (last_or_cons c a prev).
  reflexivity.
Qed.

Lemma sub_go_match ic r prev m rest :
  m <> [] ->
  match_at ic r prev (m ++ rest) = Some rest ->
  sub_go ic r prev (m ++ rest) 0 = sub_go ic r (last m) rest 0.
Proof.
  intros Hne H. destruct m as [|c m]; [congruence|].
  cbn [app sub_go]. cbn [app] in H. rewrite H.
  replace (length (c :: m ++ rest) - length rest) with (S (length m))
    by (simpl; rewrite length_app; lia).
  rewrite sub_go_skip. rewrite last_cons. reflexivity.
Qed.

Lemma sub_go_no_match ic r prev c t :
  match_at ic r prev (c :: t) = None ->
  sub_go ic r prev (c :: t) 0 = c :: sub_go ic r (Some c) t 0.
Proof. intros H. cbn [sub_go]. rewrite H. reflexivity. Qed.

Lemma suffix_no_match_nonword prev s :
  is_word_opt (head s) = false ->
  match_at true SUFFIX_PATTERN prev s = None.
Proof.
  intros Hs. destruct (match_at true SUFFIX_PATTERN prev s) eqn:E;
    [|reflexivity].
  apply suffix_match_sound in E as (_ & occ & Hsw & H).
  destruct (suffix_word_is_word occ Hsw) as [Hne Hw].
  destruct (all_word_head occ Hne Hw) as [Hh _].
  destruct occ as [|c occ]; [congruence|].
  destruct H as [[-> _] | [-> _]]; simpl in *; congruence.
Qed.

Lemma suffix_no_match_inside prev s :
  is_word_opt prev = true ->
  match_at true SUFFIX_PATTERN prev s = None.
Proof.
  intros Hp. destruct (match_at true SUFFIX_PATTERN prev s) eqn:E;
    [|reflexivity].
  apply suffix_match_sound in E as (Hp' & _). congruence.
Qed.

Lemma sub_go_in_run prev R rest :
  is_word_opt prev = true -> forallb is_word R = true ->
  sub_go true SUFFIX_PATTERN prev (R ++ rest) 0
  = R ++ sub_go true SUFFIX_PATTERN
           (match last R with Some c => Some c | None => prev end) rest 0.
Proof.
  revert prev. induction R as [|c R IH]; intros prev Hp HR; [reflexivity|].
  simpl in HR. apply andb_true_iff in HR as [Hc HR].
  cbn [app]. rewrite sub_go_no_match by (apply suffix_no_match_inside, Hp).
  rewrite IH by assumption. rewrite (last_or_cons c R prev). reflexivity.
Qed.

(** A word run that is not a suffix word is copied. *)
Lemma sub_go_keeps_run prev R rest :
  is_word_opt prev = false ->
  R <> [] -> forallb is_word R = true -> is_word_opt (head rest) = false ->
  is_suffix_word R = false ->
  sub_go true SUFFIX_PATTERN prev (R ++ rest) 0
  = R ++ sub_go true SUFFIX_PATTERN (last R) rest 0.
Proof.
  intros Hp Hne HR Hrest Hns.
  assert (Hnone : match_at true SUFFIX_PATTERN prev (R ++ rest) = None).
  { destruct (match_at true SUFFIX_PATTERN prev (R ++ rest)) as [rest'|] eqn:E;
      [|reflexivity].
    apply suffix_match_sound in E as (_ & occ & Hsw & H).
    destruct (suffix_word_is_word occ Hsw) as [_ Hw].
    destruct H as [[E Hr] | [E Hr]].
    - destruct (word_prefix_unique R occ rest rest' E HR Hw Hrest Hr)
        as [-> _]. congruence.
    - destruct (word_prefix_unique R occ rest ("."%char :: rest') E HR Hw
                  Hrest eq_refl) as [-> _]. congruence. }
  destruct R as [|c R]; [congruence|].
  simpl in HR. apply andb_true_iff in HR as [Hc HR].
  cbn [app] in *. rewrite sub_go_no_match by exact Hnone.
  rewrite sub_go_in_run by (simpl; assumption).
  rewrite last_cons. destruct (last R); reflexivity.
Qed.

(** A word run that is a suffix word is dropped, with the period
    that follows it when a word character follows the period. *)
Lemma sub_go_drops_run prev R rest :
  is_word_opt prev = false ->
  R <> [] -> forallb is_word R = true -> is_word_opt (head rest) = false ->
  is_suffix_word R = true ->
  sub_go true SUFFIX_PATTERN prev (R ++ rest) 0
  = sub_go true SUFFIX_PATTERN (last R) rest 0
  \/ exists rest',
       rest = "."%char :: rest' /\ is_word_opt (head rest') = true
       /\ sub_go true SUFFIX_PATTERN prev (R ++ rest) 0
          = sub_go true SUFFIX_PATTERN (Some "."%char) rest' 0.
Proof.
  intros Hp Hne HR Hrest Hsw.
  destruct (suffix_match_complete prev R rest Hp Hsw Hrest) as [rest' E].
  assert (E' := E).
  apply suffix_match_sound in E' as (_ & occ & Hsw' & H).
  destruct (suffix_word_is_word occ Hsw') as [_ Hw].
  destruct H as [[E2 Hr] | [E2 Hr]].
  - destruct (word_prefix_unique R occ rest rest' E2 HR Hw Hrest Hr)
      as [-> ->].
    left. apply sub_go_match; assumption.
  - destruct (word_prefix_unique R occ rest ("."%char :: rest') E2 HR Hw
                Hrest eq_refl) as [-> ->].
    right. exists rest'. split; [reflexivity|]. split; [exact Hr|].
    replace (occ ++ "."%char :: rest') with ((occ ++ ["."%char]) ++ rest')
      in * by (rewrite <- app_assoc; reflexivity).
    rewrite sub_go_match; [|intros E0; apply app_eq_nil in E0 as [_ E0];
                             discriminate | exact E].
    rewrite last_snoc. reflexivity.
Qed.

(** After the suffix pattern's matches are dropped, no word run of
    the text is a suffix word. *)
Lemma sub_go_no_suffix_run n :
  forall prev s,
    length s <= n ->
    is_word_opt prev = false \/ is_word_opt (head s) = false ->
    Forall (fun run => is_suffix_word run = false)
      (word_runs (sub_go true SUFFIX_PATTERN prev s 0))
    /\ (is_word_opt (head s) = false ->
        is_word_opt (head (sub_go true SUFFIX_PATTERN prev s 0)) = false).
Proof.
  induction n as [|n IH]; intros prev s Hlen Hpos.
  - destruct s; [|simpl in Hlen; lia]. split; [constructor | reflexivity].
  - destruct s as [|c t]; [split; [constructor | reflexivity]|].
    simpl in Hlen.
    destruct (is_word c) eqn:Ec.
    + destruct Hpos as [Hp | Hp]; [|simpl in Hp; congruence].
      split; [|simpl; congruence].
      destruct (word_prefix_exists (c :: t)) as (R & rest & E & HR & Hrest).
      assert (Hne : R <> []).
      { intros ->. simpl in E. subst rest. simpl in Hrest. congruence. }
      assert (Hl : length rest <= n).
      { apply (f_equal (@length _)) in E. rewrite length_app in E.
        simpl in E. destruct R; [congruence|]. simpl in E. lia. }
      rewrite E.
      destruct (is_suffix_word R) eqn:Hsw.
      * destruct (sub_go_drops_run prev R rest Hp Hne HR Hrest Hsw)
          as [-> | (rest' & -> & Hr' & ->)].
        -- apply IH; [exact Hl | right; exact Hrest].
        -- apply IH; [simpl in Hl; lia | left; reflexivity].
      * rewrite (sub_go_keeps_run prev R rest Hp Hne HR Hrest Hsw).
        destruct (IH (last R) rest Hl (or_intror Hrest)) as [HQ Hh].
        rewrite word_runs_run; [|exact Hne | exact HR | apply Hh, Hrest].
        constructor; assumption.
    + rewrite sub_go_no_match
        by (apply suffix_no_match_nonword; simpl; exact Ec).
      destruct (IH (Some c) t) as [HQ _]; [lia | left; simpl; exact Ec|].
      split; [|intros _; simpl; exact Ec].
      rewrite word_runs_skip by exact Ec. exact HQ.
Qed.

(** A text none of whose word runs is a suffix word is left as it
    is. *)
Lemma sub_go_identity n :
  forall prev s,
    length s <= n ->
    is_word_opt prev = false \/ is_word_opt (head s) = false ->
    Forall (fun run => is_suffix_word run = false) (word_runs s) ->
    sub_go true SUFFIX_PATTERN prev s 0 = s.
Proof.
  induction n as [|n IH]; intros prev s Hlen Hpos HQ.
  - destruct s; [reflexivity | simpl in Hlen; lia].
  - destruct s as [|c t]; [reflexivity|]. simpl in Hlen.
    destruct (is_word c) eqn:Ec.
    + destruct Hpos as [Hp | Hp]; [|simpl in Hp; congruence].
      destruct (word_prefix_exists (c :: t)) as (R & rest & E & HR & Hrest).
      assert (Hne : R <> []).
      { intros ->. simpl in E. subst rest. simpl in Hrest. congruence. }
      assert (Hl : length rest <= n).
      { apply (f_equal (@length _)) in E. rewrite length_app in E.
        simpl in E. destruct R; [congruence|]. simpl in E. lia. }
      rewrite E in *.
      rewrite word_runs_run in HQ by assumption.
      apply Forall_cons in HQ as [Hns HQ].
      rewrite (sub_go_keeps_run prev R rest Hp Hne HR Hrest Hns).
      rewrite (IH (last R) rest Hl (or_intror Hrest) HQ). reflexivity.
    + rewrite sub_go_no_match
        by (apply suffix_no_match_nonword; simpl; exact Ec).
      rewrite word_runs_skip in HQ by exact Ec.
      rewrite (IH (Some c) t); [reflexivity | lia | left; simpl; exact Ec
                               | exact HQ].
Qed.

(** *** The later steps keep the word runs *)

Lemma and_taints cur :
  tainted ("d"%char :: "n"%char :: "a"%char :: cur).
Proof.
  intros more. destruct (is_suffix_word _) eqn:E; [|reflexivity].
  exfalso. apply is_suffix_word_spec in E as (sfx & Hin & E).
  assert (Hc : contains (str "and") (lower sfx) = true).
  { apply contains_spec. rewrite <- E. simpl rev.
    rewrite <- !app_assoc. rewrite !lower_app.
    exists (lower (rev cur)), (lower more). reflexivity. }
  apply list_elem_of_In in Hin. simpl in Hin.
  destruct Hin as [<- | [<- | [<- | [<- | [<- | [<- | [<- | []]]]]]]];
    vm_compute in Hc; discriminate.
Qed.

Lemma tainted_cons c cur : tainted cur -> tainted (c :: cur).
Proof.
  intros H more. simpl. rewrite <- app_assoc. apply H.
Qed.

Lemma tainted_emit cur :
  tainted cur -> Forall (fun run => is_suffix_word run = false) (emit_run cur).
Proof.
  intros H. destruct cur as [|c cur]; [constructor|].
  constructor; [|constructor].
  specialize (H []). rewrite app_nil_r in H. exact H.
Qed.

Lemma word_runs_aux_emit cur s :
  Forall (fun run => is_suffix_word run = false) (word_runs_aux cur s) ->
  is_word_opt (head s) = false ->
  Forall (fun run => is_suffix_word run = false) (emit_run cur)
  /\ Forall (fun run => is_suffix_word run = false) (word_runs s).
Proof.
  intros H Hs. destruct s as [|c s].
  - simpl in H. split; [exact H | constructor].
  - simpl in Hs. rewrite word_runs_aux_nonword in H by exact Hs.
    apply Forall_app in H. rewrite word_runs_skip by exact Hs. exact H.
Qed.

(** Replacing the ampersands by "and" makes no word run a suffix
    word: a run that has taken up an "and" is none. *)
Lemma replace_amp_runs s :
  forall cur cur',
    cur' = cur \/ tainted cur' ->
    Forall (fun run => is_suffix_word run = false) (word_runs_aux cur s) ->
    Forall (fun run => is_suffix_word run = false)
      (word_runs_aux cur' (replace_char "&"%char (str "and") s)).
Proof.
  induction s as [|c s IH]; intros cur cur' Hrel H.
  - simpl in *. destruct Hrel as [-> | Ht]; [exact H|].
    apply (tainted_emit cur' Ht).
  - unfold replace_char. cbn [flat_map]. fold (replace_char "&"%char (str "and") s).
    destruct (eqb_char c "&"%char) eqn:Eamp.
    + apply eqb_char_eq in Eamp. subst c.
      change (str "and" ++ replace_char "&"%char (str "and") s)
        with ("a"%char :: "n"%char :: "d"%char
              :: replace_char "&"%char (str "and") s).
      cbn [word_runs_aux]. change (is_word "a"%char) with true.
      change (is_word "n"%char) with true. change (is_word "d"%char) with true.
      cbv iota.
      rewrite word_runs_aux_nonword in H by reflexivity.
      apply Forall_app in H as [_ H].
      apply (IH [] _ (or_intror (and_taints cur')) H).
    + cbn [app]. destruct (is_word c) eqn:Ec.
      * cbn [word_runs_aux] in *. rewrite Ec in *.
        apply (IH (c :: cur)); [|exact H].
        destruct Hrel as [-> | Ht]; [left; reflexivity|].
        right. apply tainted_cons. exact Ht.
      * rewrite word_runs_aux_nonword in * by exact Ec.
        apply Forall_app in H as [H1 H2]. apply Forall_app. split.
        -- destruct Hrel as [-> | Ht]; [exact H1 | apply tainted_emit, Ht].
        -- apply (IH [] [] (or_introl eq_refl) H2).
Qed.

Lemma kept_killer_not_word c : kept_char c = false -> is_word c = false.
Proof.
  unfold kept_char. intros H. apply orb_false_iff in H as [H _].
  apply orb_false_iff in H as [H _]. exact H.
Qed.

(** Replacing the other characters by spaces keeps the word runs. *)
Lemma blank_out_runs s cur :
  word_runs_aux cur
    (re_sub_set (fun c => negb (kept_char c)) (str " ") s)
  = word_runs_aux cur s.
Proof.
  revert cur. induction s as [|c s IH]; intros cur; [reflexivity|].
  unfold re_sub_set. cbn [flat_map].
  fold (re_sub_set (fun c => negb (kept_char c)) (str " ") s).
  destruct (kept_char c) eqn:Ek; cbn [negb app].
  - cbn [word_runs_aux]. destruct (is_word c); [apply IH|].
    destruct cur; rewrite IH; reflexivity.
  - change (str " ") with [" "%char]. cbn [app].
    rewrite !word_runs_aux_nonword
      by (first [reflexivity | apply kept_killer_not_word; exact Ek]).
    unfold word_runs. rewrite IH. reflexivity.
Qed.

(** Splitting at white space and joining with single spaces keeps
    the word runs. *)
Lemma split_aux_runs s tok :
  word_runs (rev tok ++ s) = flat_map word_runs (split_aux tok s).
Proof.
  revert tok. induction s as [|c s IH]; intros tok.
  - simpl. rewrite app_nil_r. destruct tok as [|x tok]; [reflexivity|].
    cbn [flat_map]. rewrite app_nil_r. reflexivity.
  - cbn [split_aux]. destruct (is_space c) eqn:Ec.
    + rewrite word_runs_app by (apply space_not_word; exact Ec).
      specialize (IH []). simpl in IH.
      destruct tok as [|x tok]; [rewrite <- IH; reflexivity|].
      cbn [flat_map]. rewrite <- IH. reflexivity.
    + rewrite <- IH. simpl. rewrite <- app_assoc. reflexivity.
Qed.

Lemma join_runs toks :
  word_runs (join (str " ") toks) = flat_map word_runs toks.
Proof.
  induction toks as [|p [|q toks] IH]; [reflexivity| |].
  - simpl. rewrite app_nil_r. reflexivity.
  - change (join (str " ") (p :: q :: toks))
      with (p ++ " "%char :: join (str " ") (q :: toks)).
    rewrite word_runs_app by reflexivity. rewrite IH. reflexivity.
Qed.

Lemma split_join_runs s :
  word_runs (join (str " ") (split s)) = word_runs s.
Proof.
  rewrite join_runs. unfold split. rewrite <- split_aux_runs. reflexivity.
Qed.

(** *** Tokens *)

Lemma forallb_rev {A} (f : A -> bool) l : forallb f (rev l) = forallb f l.
Proof.
  induction l as [|x l IH]; [reflexivity|].
  simpl. rewrite forallb_app, IH. simpl. rewrite andb_true_r.
  apply andb_comm.
Qed.

Lemma split_aux_tokens s tok :
  forallb (fun c => negb (is_space c)) tok = true ->
  Forall is_token (split_aux tok s).
Proof.
  revert tok. induction s as [|c s IH]; intros tok Htok.
  - simpl. destruct tok as [|x tok]; [constructor|].
    constructor; [|constructor]. split.
    + intros E. apply (f_equal (@rev _)) in E. rewrite rev_involutive in E.
      discriminate.
    + rewrite forallb_rev. exact Htok.
  - cbn [split_aux]. destruct (is_space c) eqn:Ec.
    + destruct tok as [|x tok]; [apply IH; reflexivity|].
      constructor; [|apply IH; reflexivity]. split.
      * intros E. apply (f_equal (@rev _)) in E. rewrite rev_involutive in E.
        discriminate.
      * rewrite forallb_rev. exact Htok.
    + apply IH. simpl. rewrite Ec, Htok. reflexivity.
Qed.

Lemma split_aux_Forall (P : ascii -> Prop) s tok :
  Forall P tok -> Forall P s -> Forall (Forall P) (split_aux tok s).
Proof.
  revert tok. induction s as [|c s IH]; intros tok Htok Hs.
  - simpl. destruct tok as [|x tok]; [constructor|].
    constructor; [|constructor]. apply Forall_rev. exact Htok.
  - apply Forall_cons in Hs as [Hc Hs]. cbn [split_aux].
    destruct (is_space c).
    + destruct tok as [|x tok]; [apply IH; [constructor | exact Hs]|].
      constructor; [apply Forall_rev; exact Htok|].
      apply IH; [constructor | exact Hs].
    + apply IH; [constructor; assumption | exact Hs].
Qed.

Lemma join_Forall (P : ascii -> Prop) toks :
  P " "%char -> Forall (Forall P) toks -> Forall P (join (str " ") toks).
Proof.
  intros Hsp. induction toks as [|p [|q toks] IH]; intros H.
  - constructor.
  - apply Forall_cons in H as [H _]. exact H.
  - apply Forall_cons in H as [Hp H].
    change (join (str " ") (p :: q :: toks))
      with (p ++ " "%char :: join (str " ") (q :: toks)).
    apply Forall_app. split; [exact Hp|].
    constructor; [exact Hsp | apply IH; exact H].
Qed.

Lemma split_aux_nonspace t tok rest :
  forallb (fun c => negb (is_space c)) t = true ->
  split_aux tok (t ++ rest) = split_aux (rev t ++ tok) rest.
Proof.
  revert tok. induction t as [|c t IH]; intros tok H; [reflexivity|].
  simpl in H. apply andb_true_iff in H as [Hc H].
  apply negb_true_iff in Hc. cbn [app split_aux]. rewrite Hc.
  rewrite IH by exact H. simpl. rewrite <- app_assoc. reflexivity.
Qed.

(** Splitting what was joined gives the tokens back. *)
Lemma split_join toks :
  Forall is_token toks -> split (join (str " ") toks) = toks.
Proof.
  induction toks as [|p [|q toks] IH]; intros H; [reflexivity| |].
  - apply Forall_cons in H as [[Hne Hp] _]. unfold split. simpl.
    rewrite <- (app_nil_r p) at 1. rewrite split_aux_nonspace by exact Hp.
    rewrite app_nil_r. simpl.
    destruct (rev p) eqn:E.
    + apply (f_equal (@rev _)) in E. rewrite rev_involutive in E.
      simpl in E. congruence.
    + rewrite <- E, rev_involutive. reflexivity.
  - apply Forall_cons in H as [[Hne Hp] H].
    change (join (str " ") (p :: q :: toks))
      with (p ++ " "%char :: join (str " ") (q :: toks)).
    unfold split. rewrite split_aux_nonspace by exact Hp.
    rewrite app_nil_r. cbn [split_aux]. change (is_space " "%char) with true.
    cbv iota.
    destruct (rev p) eqn:E.
    + apply (f_equal (@rev _)) in E. rewrite rev_involutive in E.
      simpl in E. congruence.
    + rewrite <- E, rev_involutive. f_equal. apply IH. exact H.
Qed.

Lemma list_last_app (a b : pystr) d :
  b <> [] -> List.last (a ++ b) d = List.last b d.
Proof.
  intros Hb. induction a as [|x a IH]; [reflexivity|].
  simpl. destruct (a ++ b) eqn:E; [|exact IH].
  apply app_eq_nil in E as [_ E]. congruence.
Qed.

Lemma join_ends toks :
  Forall is_token toks -> toks <> [] ->
  is_space (hd " "%char (join (str " ") toks)) = false
  /\ is_space (List.last (join (str " ") toks) " "%char) = false.
Proof.
  induction toks as [|p [|q toks] IH]; intros H Hne; [congruence| |].
  - apply Forall_cons in H as [[Hp Hs] _]. simpl. split.
    + destruct p as [|c p]; [congruence|]. simpl in *.
      apply andb_true_iff in Hs as [Hc _]. apply negb_true_iff in Hc.
      exact Hc.
    + rewrite <- hd_rev_last. rewrite <- forallb_rev in Hs.
      destruct (rev p) as [|c rp] eqn:E.
      * apply (f_equal (@rev _)) in E. rewrite rev_involutive in E.
        simpl in E. congruence.
      * simpl in *. apply andb_true_iff in Hs as [Hc _].
        apply negb_true_iff in Hc. exact Hc.
  - apply Forall_cons in H as [[Hp Hs] H].
    change (join (str " ") (p :: q :: toks))
      with (p ++ " "%char :: join (str " ") (q :: toks)).
    destruct (IH H) as [Hh Hl]; [discriminate|]. split.
    + destruct p as [|c p]; [congruence|]. simpl in *.
      apply andb_true_iff in Hs as [Hc _]. apply negb_true_iff in Hc.
      exact Hc.
    + rewrite list_last_app by discriminate.
      destruct (join (str " ") (q :: toks)) eqn:E.
      * simpl in Hh. discriminate.
      * exact Hl.
Qed.

Lemma strip_identity s :
  is_space (hd " "%char s) = false ->
  is_space (List.last s " "%char) = false ->
  strip s = s.
Proof.
  intros Hh Hl. unfold strip, rstrip.
  assert (E1 : lstrip s = s).
  { destruct s as [|c s]; [reflexivity|]. simpl in *. rewrite Hh.
    reflexivity. }
  rewrite E1.
  assert (E2 : lstrip (rev s) = rev s).
  { rewrite <- hd_rev_last in Hl. destruct (rev s) as [|c rs];
      [reflexivity|]. simpl in *. rewrite Hl. reflexivity. }
  rewrite E2. apply rev_involutive.
Qed.

Lemma join_strip toks :
  Forall is_token toks -> strip (join (str " ") toks) = join (str " ") toks.
Proof.
  intros H. destruct toks as [|p toks]; [reflexivity|].
  destruct (join_ends (p :: toks) H) as [Hh Hl]; [discriminate|].
  apply strip_identity; assumption.
Qed.

Lemma replace_char_identity old new s :
  Forall (fun c => eqb_char c old = false) s -> replace_char old new s = s.
Proof.
  induction 1 as [|c s Hc _ IH]; [reflexivity|].
  unfold replace_char in *. simpl. rewrite Hc, IH. reflexivity.
Qed.

Lemma re_sub_set_identity p repl s :
  Forall (fun c => p c = false) s -> re_sub_set p repl s = s.
Proof.
  induction 1 as [|c s Hc _ IH]; [reflexivity|].
  unfold re_sub_set in *. simpl. rewrite Hc, IH. reflexivity.
Qed.

Lemma blank_out_kept s :
  Forall (fun c => kept_char c = true)
    (re_sub_set (fun c => negb (kept_char c)) (str " ") s).
Proof.
  induction s as [|c s IH]; [constructor|].
  unfold re_sub_set in *. simpl.
  destruct (kept_char c) eqn:E; simpl; constructor; auto.
Qed.

(** *** The cleaned name *)

(** The shape of a cleaned name: single spaces between tokens of
    kept characters, and no word run that is a suffix word. *)
Lemma clean_company_name_shape name cleaned :
  clean_company_name name = Some cleaned ->
  cleaned <> []
  /\ (exists toks, Forall is_token toks /\ cleaned = join (str " ") toks)
  /\ Forall (fun c => kept_char c = true) cleaned
  /\ Forall (fun run => is_suffix_word run = false) (word_runs cleaned).
Proof.
  unfold clean_company_name. destruct name as [|x name]; [discriminate|].
  set (name1 := re_sub_del true SUFFIX_PATTERN (x :: name)).
  set (name2 := replace_char "&"%char (str "and") name1).
  change (fun c => negb (is_word c || is_space c || eqb_char c "'"%char))
    with (fun c => negb (kept_char c)).
  set (name3 := re_sub_set (fun c => negb (kept_char c)) (str " ") name2).
  assert (Htok : Forall is_token (split name3))
    by (apply split_aux_tokens; reflexivity).
  rewrite (join_strip _ Htok).
  destruct (join (str " ") (split name3)) as [|c y] eqn:E; [discriminate|].
  intros H. injection H as <-. rewrite <- E.
  split; [rewrite E; discriminate|].
  split; [exists (split name3); auto|]. split.
  - apply join_Forall; [reflexivity|].
    apply split_aux_Forall; [constructor | apply blank_out_kept].
  - rewrite split_join_runs. unfold name3, word_runs.
    rewrite blank_out_runs.
    apply (replace_amp_runs name1 [] [] (or_introl eq_refl)).
    unfold name1, re_sub_del.
    apply (sub_go_no_suffix_run (length (x :: name)) None (x :: name));
      [lia | left; reflexivity].
Qed.

(** A name of that shape is its own cleaned form. *)
Lemma clean_company_name_fixed cleaned :
  cleaned <> [] ->
  (exists toks, Forall is_token toks /\ cleaned = join (str " ") toks) ->
  Forall (fun c => kept_char c = true) cleaned ->
  Forall (fun run => is_suffix_word run = false) (word_runs cleaned) ->
  clean_company_name cleaned = Some cleaned.
Proof.
  intros Hne (toks & Htok & E) Hkept Hruns.
  unfold clean_company_name. destruct cleaned as [|c y] eqn:Ec; [congruence|].
  rewrite <- Ec in *.
  change (fun c => negb (is_word c || is_space c || eqb_char c "'"%char))
    with (fun c => negb (kept_char c)).
  assert (E1 : re_sub_del true SUFFIX_PATTERN cleaned = cleaned).
  { unfold re_sub_del.
    apply (sub_go_identity (length cleaned)); [lia | left; reflexivity|].
    exact Hruns. }
  rewrite E1.
  assert (E2 : replace_char "&"%char (str "and") cleaned = cleaned).
  { apply replace_char_identity.
    eapply Forall_impl; [exact Hkept|]. intros a Ha. simpl in Ha.
    destruct (eqb_char a "&"%char) eqn:Ea; [|reflexivity].
    apply eqb_char_eq in Ea. subst a. discriminate. }
  rewrite E2.
  assert (E3 : re_sub_set (fun c => negb (kept_char c)) (str " ") cleaned
               = cleaned).
  { apply re_sub_set_identity.
    eapply Forall_impl; [exact Hkept|]. intros a Ha. simpl in Ha.
    rewrite Ha. reflexivity. }
  rewrite E3. rewrite E at 1. rewrite (split_join toks Htok).
  rewrite (join_strip toks Htok). rewrite <- E. rewrite Ec. reflexivity.
Qed.

(** C5. Cleaning a cleaned name changes nothing: when a non-empty
    name has the cleaned form [cleaned], the cleaned form of
    [cleaned] is [cleaned] again. *)
Theorem clean_company_name_idempotent name cleaned :
  name <> [] ->
  clean_company_name name = Some cleaned ->
  clean_company_name cleaned = clean_company_name name.
Proof.
  intros _ H. rewrite H.
  destruct (clean_company_name_shape name cleaned H) as (H1 & H2 & H3 & H4).
  apply clean_company_name_fixed; assumption.
Qed.

Lemma clean_company_name_idempotent_witness :
  clean_company_name (str "A & B Towing CO., INC.") = Some (str "A and B Towing")
  /\ clean_company_name (str "A and B Towing") = Some (str "A and B Towing").
Proof.
  assert (E : clean_company_name (str "A & B Towing CO., INC.")
              = Some (str "A and B Towing")) by (vm_compute; reflexivity).
  split; [exact E|].
  rewrite <- E.
  apply (clean_company_name_idempotent (str "A & B Towing CO., INC.")
           (str "A and B Towing")); [discriminate | exact E].
Defined.

(** * Further properties of the code *)

(** ** The name pattern *)

Lemma search_from_sound ic r prev s :
  search_from ic r prev s = true ->
  exists pre post rest,
    s = pre ++ post
    /\ match_at ic r (match last pre with Some c => Some c | None => prev end)
         post = Some rest.
Proof.
  revert prev. induction s as [|c s IH]; intros prev; simpl.
  - destruct (match_at ic r prev []) as [rest|] eqn:E; [|discriminate].
    intros _. exists [], [], rest. auto.
  - destruct (match_at ic r prev (c :: s)) as [rest|] eqn:E.
    + intros _. exists [], (c :: s), rest. auto.
    + intros H. destruct (IH _ H) as (pre & post & rest & -> & Hm).
      exists (c :: pre), post, rest. split; [reflexivity|].
      rewrite (last_or_cons c pre prev). exact Hm.
Qed.

(** [has_tow_in_name] holds exactly when the text made of the legal
    name, a space and the DBA name has a whole-word occurrence, in
    any letter case, of one of the six roots of the pattern. A root
    inside a longer word ("Stowing", "Towns") does not count. *)
Theorem has_tow_in_name_iff legal dba :
  has_tow_in_name legal dba = true
  <-> exists root,
        root ∈ TOW_ROOTS
        /\ has_whole_word root (or_empty legal ++ str " " ++ or_empty dba).
Proof.
  unfold has_tow_in_name. split.
  - intros H. unfold re_search in H.
    apply search_from_sound in H as (pre & post & rest & E & Hm).
    apply match_at_sound in Hm as (prev' & D).
    unfold TOW_NAME_PATTERN in D. cbn [denotes] in D.
    destruct D as (p1 & s1 & (Hb & Ep1 & Es1) & p2 & s2 & Dw & Hb' & Ep & Er).
    subst p1 s1 s2.
    apply denotes_words_alt in Dw as (root & Hin & Dl); [|discriminate].
    destruct (tow_roots_are_words root Hin) as [Hne Hw].
    apply denotes_lit in Dl as (occ & -> & Hf & ->); [|exact Hne].
    apply Forall2_lower_eq in Hf.
    assert (Hne' : occ <> []).
    { intros ->. destruct root; [congruence | discriminate]. }
    destruct (all_word_head occ Hne' (lower_eq_all_word _ _ Hf Hw))
      as [Hh Hl].
    exists root. split; [exact Hin|].
    exists pre, occ, rest. split; [exact E|]. split; [exact Hf|]. split.
    + unfold at_boundary in Hb.
      replace (is_word_opt (head (occ ++ rest))) with true in Hb
        by (destruct occ; [congruence | exact (eq_sym Hh)]).
      destruct (last pre) as [c|]; [|reflexivity].
      cbn [is_word_opt] in *. destruct (is_word c); [discriminate|].
      reflexivity.
    + unfold at_boundary in Hb'. rewrite Hl in Hb'.
      destruct (is_word_opt (head rest)); [discriminate | reflexivity].
  - intros (root & Hin & pre & occ & post & E & Hocc & Hpre & Hpost).
    rewrite E. apply (tow_pattern_finds root); assumption.
Qed.

(** ** Normalized text *)

Lemma strip_Forall (P : ascii -> Prop) s : Forall P s -> Forall P (strip s).
Proof.
  intros H. destruct (strip_spec s) as [(a & b & E) _].
  rewrite E in H. apply Forall_app in H as [_ H].
  apply Forall_app in H as [H _]. exact H.
Qed.

Lemma strip_idempotent s : strip (strip s) = strip s.
Proof.
  destruct (strip_spec s) as [_ [-> | [Hh Hl]]]; [reflexivity|].
  apply strip_identity; assumption.
Qed.

Lemma punctuation_removed s :
  Forall (fun c => (is_word c || is_space c) = true)
    (re_sub_set (fun c => negb (is_word c || is_space c)) [] s).
Proof.
  induction s as [|c s IH]; [constructor|].
  unfold re_sub_set in *. simpl.
  destruct (is_word c || is_space c) eqn:E; simpl; [constructor|]; auto.
Qed.

Lemma punctuation_removed_Forall (P : ascii -> Prop) s :
  Forall P s ->
  Forall P (re_sub_set (fun c => negb (is_word c || is_space c)) [] s).
Proof.
  induction 1 as [|c s Hc _ IH]; [constructor|].
  unfold re_sub_set in *. simpl.
  destruct (negb _); simpl; [|constructor]; auto.
Qed.

Lemma lower_Forall s : Forall (fun c => lower_char c = c) (lower s).
Proof.
  induction s as [|c s IH]; constructor; [apply lower_char_idem | exact IH].
Qed.

Lemma lower_fixed s : Forall (fun c => lower_char c = c) s -> lower s = s.
Proof.
  induction 1 as [|c s Hc _ IH]; [reflexivity|].
  simpl. rewrite Hc, IH. reflexivity.
Qed.

(** [normalize_text] returns lower-case text without punctuation and
    without white space at its ends, and normalizing a normalized
    text changes nothing. *)
Theorem normalize_text_normal v :
  Forall (fun c => (is_word c || is_space c) = true /\ lower_char c = c)
    (normalize_text v)
  /\ strip (normalize_text v) = normalize_text v
  /\ normalize_text (PyStr (normalize_text v)) = normalize_text v.
Proof.
  assert (H : Forall (fun c => (is_word c || is_space c) = true
                               /\ lower_char c = c) (normalize_text v)
              /\ strip (normalize_text v) = normalize_text v).
  { unfold normalize_text. destruct (truthy v); [|split; [constructor|]; reflexivity].
    split; [|apply strip_idempotent].
    apply strip_Forall. apply Forall_and. split.
    - apply punctuation_removed.
    - apply punctuation_removed_Forall, lower_Forall. }
  destruct H as [Hc Hs]. split; [exact Hc|]. split; [exact Hs|].
  destruct (normalize_text v) as [|c n] eqn:E; [reflexivity|].
  rewrite normalize_text_str by discriminate.
  apply Forall_and in Hc as [Hk Hl].
  rewrite (lower_fixed _ Hl).
  rewrite re_sub_set_identity; [exact Hs|].
  eapply Forall_impl; [exact Hk|]. intros a Ha. simpl in Ha.
  rewrite Ha. reflexivity.
Qed.

(** ** URL eligibility and priority *)

(** An excluded host is recognised in any letter case, wherever it
    stands in the URL. *)
Theorem excluded_host_rejected url pre occ post skip :
  skip ∈ SKIP_DOMAINS ->
  url = pre ++ occ ++ post ->
  lower occ = skip ->
  is_valid_url (Some url) = false.
Proof.
  intros Hin -> Hocc. unfold is_valid_url.
  destruct (pre ++ occ ++ post) as [|c u] eqn:E; [reflexivity|].
  destruct (startswith (str "http") (c :: u)); [|reflexivity].
  rewrite <- E.
  assert (H : existsb (fun skip => contains skip (lower (pre ++ occ ++ post)))
                SKIP_DOMAINS = true).
  { apply existsb_exists. exists skip.
    split; [apply list_elem_of_In; exact Hin|].
    apply contains_spec. exists (lower pre), (lower post).
    rewrite !lower_app, Hocc. reflexivity. }
  rewrite H. reflexivity.
Qed.

Lemma excluded_host_rejected_witness :
  is_valid_url (Some (str "https://Maps.GOOGLE.com/maps?q=acme")) = false.
Proof.
  apply (excluded_host_rejected _ (str "https://Maps.") (str "GOOGLE.com")
           (str "/maps?q=acme") (str "google.com")).
  - apply list_elem_of_In. simpl. tauto.
  - reflexivity.
  - reflexivity.
Defined.

Lemma first_index_spec u ds i k :
  first_index u i ds = k ->
  (k = 100 /\ (forall d, d ∈ ds -> contains d u = false))
  \/ (exists j d,
        k = i + j /\ ds !! j = Some d /\ contains d u = true
        /\ forall j' d', j' < j -> ds !! j' = Some d' -> contains d' u = false).
Proof.
  revert i k. induction ds as [|d ds IH]; intros i k; simpl.
  - intros <-. left. split; [reflexivity|]. intros d H. inversion H.
  - destruct (contains d u) eqn:E.
    + intros <-. right. exists 0, d. split; [lia|]. split; [reflexivity|].
      split; [exact E|]. intros j' d' Hj. lia.
    + intros H. destruct (IH _ _ H) as [[-> Hall] | (j & d0 & -> & Hl & Hc & Hm)].
      * left. split; [reflexivity|]. intros d' Hd.
        apply elem_of_cons in Hd as [-> | Hd]; [exact E | apply Hall, Hd].
      * right. exists (S j), d0. split; [lia|]. split; [exact Hl|].
        split; [exact Hc|]. intros [|j'] d' Hj Hl'.
        -- simpl in Hl'. injection Hl' as <-. exact E.
        -- simpl in Hl'. apply (Hm j' d'); [lia | exact Hl'].
Qed.

(** The priority of a URL is the position of the first priority
    domain that occurs in the lower-cased URL, and 100 when none
    occurs; it does not depend on the letter case of the URL. *)
Theorem get_domain_priority_spec url :
  get_domain_priority (lower url) = get_domain_priority url
  /\ ((get_domain_priority url = 100
       /\ forall d, d ∈ PRIORITY_DOMAINS -> contains d (lower url) = false)
      \/ (exists d,
            get_domain_priority url < 6
            /\ PRIORITY_DOMAINS !! get_domain_priority url = Some d
            /\ contains d (lower url) = true
            /\ forall j d', j < get_domain_priority url ->
                 PRIORITY_DOMAINS !! j = Some d' ->
                 contains d' (lower url) = false)).
Proof.
  split; [unfold get_domain_priority; rewrite lower_idem; reflexivity|].
  unfold get_domain_priority.
  pose proof (first_index_spec (lower url) PRIORITY_DOMAINS 0 _ eq_refl)
    as H.
  revert H. generalize (first_index (lower url) 0 PRIORITY_DOMAINS) as k.
  intros k [[E Hall] | (j & d & E & Hl & Hc & Hm)].
  - left. split; assumption.
  - right. exists d. change (0 + j) with j in E. subst k.
    split; [apply lookup_lt_Some in Hl; exact Hl|].
    split; [exact Hl|]. split; [exact Hc | exact Hm].
Qed.

(** ** The keyword check as one test *)

Lemma false_positive_loop_spec patterns page_lower :
  false_positive_loop patterns page_lower
  = negb (existsb (fun p => re_search false p page_lower) patterns)
    || existsb (fun kw =>
                  contains kw
                    (firstn (sixty_percent (length page_lower)) page_lower))
         SECONDARY_TOW_KEYWORDS.
Proof.
  induction patterns as [|p patterns IH]; [reflexivity|].
  cbn [false_positive_loop existsb].
  rewrite IH.
  destruct (re_search false p page_lower); cbn [orb negb]; [|reflexivity].
  destruct (existsb _ SECONDARY_TOW_KEYWORDS); cbn [negb];
    [apply orb_true_r | reflexivity].
Qed.

(** The loop over the false-positive patterns amounts to one test:
    the page is accepted when a primary phrase occurs, or when a
    secondary keyword occurs and either no false-positive pattern
    matches or a secondary keyword occurs in the first 60% of the
    text. Which pattern matches, and how many do, makes no
    difference; and a page that is accepted contains a keyword. *)
Theorem check_towing_mention_spec page_text :
  check_towing_mention page_text
  = existsb (fun kw => contains kw (lower page_text)) PRIMARY_TOW_KEYWORDS
    || (existsb (fun kw => contains kw (lower page_text))
          SECONDARY_TOW_KEYWORDS
        && (negb (existsb (fun p => re_search false p (lower page_text))
                    FALSE_POSITIVE_PATTERNS)
            || existsb (fun kw =>
                          contains kw
                            (firstn (sixty_percent (length (lower page_text)))
                               (lower page_text)))
                 SECONDARY_TOW_KEYWORDS))
  /\ (check_towing_mention page_text = true ->
      exists kw, kw ∈ PRIMARY_TOW_KEYWORDS ++ SECONDARY_TOW_KEYWORDS
                 /\ contains kw (lower page_text) = true).
Proof.
  assert (E : check_towing_mention page_text
              = existsb (fun kw => contains kw (lower page_text))
                  PRIMARY_TOW_KEYWORDS
                || (existsb (fun kw => contains kw (lower page_text))
                      SECONDARY_TOW_KEYWORDS
                    && (negb (existsb
                                (fun p => re_search false p (lower page_text))
                                FALSE_POSITIVE_PATTERNS)
                        || existsb
                             (fun kw =>
                                contains kw
                                  (firstn
                                     (sixty_percent
                                        (length (lower page_text)))
                                     (lower page_text)))
                             SECONDARY_TOW_KEYWORDS))).
  { unfold check_towing_mention.
    destruct (existsb _ PRIMARY_TOW_KEYWORDS); [reflexivity|].
    destruct (existsb (fun kw => contains kw (lower page_text))
                SECONDARY_TOW_KEYWORDS); [|reflexivity].
    cbn [negb orb andb]. apply false_positive_loop_spec. }
  split; [exact E|].
  rewrite E. intros H. apply orb_true_iff in H as [H | H].
  - apply existsb_exists in H as (kw & Hin & Hc). exists kw.
    split; [|exact Hc]. apply elem_of_app. left.
    apply list_elem_of_In. exact Hin.
  - apply andb_true_iff in H as [H _].
    apply existsb_exists in H as (kw & Hin & Hc). exists kw.
    split; [|exact Hc]. apply elem_of_app. right.
    apply list_elem_of_In. exact Hin.
Qed.

(** ** Other ways to match the address *)

Lemma star_greedy (p : ascii -> bool) prev ds rest :
  forallb p ds = true ->
  match rest with c :: _ => p c = false | [] => True end ->
  star p prev (ds ++ rest) (fun _ r => Some r) = Some rest.
Proof.
  revert prev. induction ds as [|d ds IH]; intros prev Hd Hr.
  - simpl. destruct rest as [|c rest]; [reflexivity|].
    simpl. rewrite Hr. reflexivity.
  - simpl in Hd. apply andb_true_iff in Hd as [Hd1 Hd]. simpl.
    rewrite Hd1. rewrite IH by assumption. reflexivity.
Qed.

(** The street-number pattern takes the digits at the start of the
    street, when there are at least two. *)
Lemma street_number_found num rest :
  2 <= length num ->
  forallb is_decimal num = true ->
  match rest with c :: _ => is_decimal c = false | [] => True end ->
  re_match false STREET_NUM_PATTERN (num ++ rest) = Some num.
Proof.
  intros Hlen Hd Hr.
  destruct num as [|d1 [|d2 ds]]; simpl in Hlen; try lia.
  simpl in Hd. apply andb_true_iff in Hd as [H1 Hd].
  apply andb_true_iff in Hd as [H2 Hd].
  unfold re_match, match_at, STREET_NUM_PATTERN. cbn [Re.run app].
  rewrite H1, H2. rewrite star_greedy by assumption.
  replace (length (d1 :: d2 :: ds ++ rest) - length rest)
    with (length (d1 :: d2 :: ds)) by (simpl; rewrite length_app; lia).
  change (d1 :: d2 :: ds ++ rest) with ((d1 :: d2 :: ds) ++ rest).
  rewrite firstn_app, Nat.sub_diag, firstn_all. simpl.
  rewrite app_nil_r. reflexivity.
Qed.

(** The postal code together with the street number is enough: when
    the page shows the five digits of the postal code and the digits
    that the street begins with, at least two, the address matches
    whatever the city is. *)
Theorem street_number_and_zip_match page r num rest :
  PHY_STREET r = PyStr (num ++ rest) ->
  2 <= length num ->
  forallb is_decimal num = true ->
  match rest with c :: _ => is_decimal c = false | [] => True end ->
  contains num page = true ->
  length (firstn 5 (to_str (PHY_ZIP r))) = 5 ->
  forallb is_digit (firstn 5 (to_str (PHY_ZIP r))) = true ->
  contains (firstn 5 (to_str (PHY_ZIP r))) page = true ->
  check_address_match page r = true.
Proof.
  intros Hst Hlen Hd Hr Hnum Hz5 Hzd Hzp.
  unfold check_address_match. rewrite Hz5, Hzd, Hzp, Hst.
  cbn [to_str]. rewrite street_number_found by assumption.
  rewrite Hnum. cbn. apply orb_true_r.
Qed.

Lemma street_number_and_zip_match_witness :
  contains (str "hartford") (lower street_and_zip_page) = false
  /\ check_address_match street_and_zip_page acme_recovery = true.
Proof.
  split; [vm_compute; reflexivity|].
  apply (street_number_and_zip_match street_and_zip_page acme_recovery
           (str "12") (str " Main St")).
  - reflexivity.
  - simpl. lia.
  - reflexivity.
  - reflexivity.
  - vm_compute. reflexivity.
  - reflexivity.
  - reflexivity.
  - vm_compute. reflexivity.
Defined.

Lemma state_names_normal st name :
  (st, [name]) ∈ STATE_NAMES ->
  lower name = name /\ normalize_text (PyStr name) = name
  /\ find (fun kv => eqb_str (fst kv) st) STATE_NAMES = Some (st, [name]).
Proof.
  intros H. apply list_elem_of_In in H. simpl in H.
  destruct H as [H | [H | [H | [H | [H | [H | [H | []]]]]]]];
    injection H as <- <-; repeat split; vm_compute; reflexivity.
Qed.

(** The city together with the full name of the state is enough:
    when the page shows the city, of more than two characters, and
    the name of the record's state, both in any letter case, the
    address matches without the postal code. *)
Theorem city_and_state_match page r c st name :
  PHY_CITY r = PyStr c ->
  PHY_STATE r = PyStr st ->
  (st, [name]) ∈ STATE_NAMES ->
  2 < length (normalize_text (PyStr c)) ->
  contains (lower c) (lower page) = true ->
  contains name (lower page) = true ->
  check_address_match page r = true.
Proof.
  intros Hc Hs Hin Hlen Hcity Hstate.
  destruct (state_names_normal st name Hin) as (Hl & Hn & Hf).
  unfold check_address_match. rewrite Hc, Hs.
  rewrite (normalize_keeps_occurrence c page Hcity).
  assert (Hsm : state_match (PyStr st) (normalize_text (PyStr page)) = true).
  { unfold state_match. rewrite Hf. cbn [existsb]. rewrite orb_false_r.
    rewrite <- Hn. apply normalize_keeps_occurrence. rewrite Hl.
    exact Hstate. }
  rewrite Hsm. apply Nat.ltb_lt in Hlen. rewrite Hlen.
  destruct (length (normalize_text (PyStr c))) eqn:E;
    [apply Nat.ltb_lt in Hlen; lia|].
  cbn [Nat.eqb negb andb]. rewrite orb_true_r. reflexivity.
Qed.

Lemma city_and_state_match_witness :
  contains (str "06103") city_and_state_page = false
  /\ check_address_match city_and_state_page acme_recovery = true.
Proof.
  split; [vm_compute; reflexivity|].
  apply (city_and_state_match city_and_state_page acme_recovery
           (str "Hartford") (str "CT") (str "connecticut")).
  - reflexivity.
  - reflexivity.
  - apply list_elem_of_In. simpl. tauto.
  - vm_compute. lia.
  - vm_compute. reflexivity.
  - vm_compute. reflexivity.
Defined.

(** ** The search client's outcomes *)

Lemma contains_prefix a b s :
  contains (a ++ b) s = true -> contains a s = true.
Proof.
  rewrite !contains_spec. intros (pre & post & ->).
  exists pre, (b ++ post). rewrite <- app_assoc. reflexivity.
Qed.

(** A search reports the engine's error page exactly when the
    navigation did not raise and the URL reached contains
    "static-pages" or the page body contains "Unexpected error";
    the error page wins over every sign of a block. A search that is
    not successful returns no URL. *)
Theorem search_duckduckgo_spec pg :
  (snd (search_duckduckgo pg) = SearchRestart
   <-> dp_goto_raises pg = false
       /\ (contains (str "static-pages") (dp_url pg) = true
           \/ exists t, dp_body_text pg = Ok t
                        /\ contains (str "Unexpected error") t = true))
  /\ (snd (search_duckduckgo pg) <> SearchOk ->
      fst (search_duckduckgo pg) = []).
Proof.
  unfold search_duckduckgo.
  destruct (dp_goto_raises pg).
  { split; [|reflexivity]. simpl. split; [discriminate|].
    intros [H _]. discriminate. }
  destruct (contains (str "static-pages/418") (dp_url pg)) eqn:E418.
  { simpl. split; [|reflexivity]. split; [|reflexivity]. intros _.
    split; [reflexivity|]. left.
    apply (contains_prefix (str "static-pages") (str "/418")). exact E418. }
  destruct (contains (str "static-pages") (dp_url pg)) eqn:Esp.
  { simpl. split; [|reflexivity]. split; [|reflexivity]. intros _.
    split; [reflexivity|]. left. reflexivity. }
  cbn [orb].
  destruct (dp_body_text pg) as [t|] eqn:Eb.
  - destruct (contains (str "Unexpected error") t) eqn:Eu.
    { simpl. split; [|reflexivity]. split; [|reflexivity]. intros _.
      split; [reflexivity|]. right. exists t. auto. }
    assert (Hno : ~ (false = false
                     /\ (false = true
                         \/ exists t0, Ok t = Ok t0
                              /\ contains (str "Unexpected error") t0 = true))).
    { intros [_ [H | (t0 & H1 & H2)]]; [discriminate|].
      injection H1 as <-. congruence. }
    destruct (_ || _); [split; [split; [discriminate | tauto] | reflexivity]|].
    destruct (dp_results_appear pg);
      [split; [split; [discriminate | tauto] | simpl; congruence]|].
    destruct (dp_content pg) as [c|];
      [|split; [split; [discriminate | tauto] | reflexivity]].
    destruct (length c <? 1000);
      split; try reflexivity; try (split; [discriminate | tauto]).
    simpl. congruence.
  - assert (Hno : ~ (false = false
                     /\ (false = true
                         \/ exists t0, @Raised pystr = Ok t0
                              /\ contains (str "Unexpected error") t0 = true))).
    { intros [_ [H | (t0 & H1 & H2)]]; discriminate. }
    destruct (_ || _); [split; [split; [discriminate | tauto] | reflexivity]|].
    destruct (dp_results_appear pg);
      [split; [split; [discriminate | tauto] | simpl; congruence]|].
    destruct (dp_content pg) as [c|];
      [|split; [split; [discriminate | tauto] | reflexivity]].
    destruct (length c <? 1000);
      split; try reflexivity; try (split; [discriminate | tauto]).
    simpl. congruence.
Qed.

(** ** What processing one name does *)

Section CompanyFacts.

Variable wd : world.

Lemma check_urls_effects r urls w :
  exists w' out,
    check_urls wd r urls w = (w', Ok out)
    /\ fetches w <= fetches w' <= fetches w + length urls
    /\ searches w' = searches w /\ queries w' = queries w
    /\ same_session w w'
    /\ (out = (None, NO_TOWING)
        \/ exists url n text,
             out = (Some url, TOWING_FOUND) /\ url ∈ urls
             /\ fetches w <= n < fetches w'
             /\ get_page_text (fetch wd n url) = Some text
             /\ text <> []
             /\ check_address_match text r = true
             /\ check_towing_mention text = true).
Proof.
  revert w. induction urls as [|u urls IH]; intros w.
  - exists w, (None, NO_TOWING). simpl. unfold same_session.
    repeat split; auto; lia.
  - cbn [check_urls]. unfold bind, do_fetch.
    destruct (IH (count_fetch w))
      as (w' & out & E & Hf & Hs & Hq & Hsess & Hout).
    assert (Skip : exists w' out,
               check_urls wd r urls (count_fetch w) = (w', Ok out)
               /\ fetches w <= fetches w' <= fetches w + length (u :: urls)
               /\ searches w' = searches w /\ queries w' = queries w
               /\ same_session w w'
               /\ (out = (None, NO_TOWING)
                   \/ exists url n text,
                        out = (Some url, TOWING_FOUND) /\ url ∈ u :: urls
                        /\ fetches w <= n < fetches w'
                        /\ get_page_text (fetch wd n url) = Some text
                        /\ text <> []
                        /\ check_address_match text r = true
                        /\ check_towing_mention text = true)).
    { exists w', out. split; [exact E|]. simpl in Hf |- *.
      split; [lia|]. split; [exact Hs|]. split; [exact Hq|].
      split; [exact Hsess|].
      destruct Hout as [-> | (url & n & text & -> & Hin & Hn & Hg & Hne & Ha & Ht)];
        [left; reflexivity|].
      right. exists url, n, text. split; [reflexivity|].
      split; [apply list_elem_of_further; exact Hin|].
      split; [simpl in Hn; lia|]. auto. }
    destruct (get_page_text (fetch wd (fetches w) u)) as [[|c t]|] eqn:Eg;
      try exact Skip.
    destruct (check_address_match (c :: t) r) eqn:Ea; [|exact Skip].
    destruct (check_towing_mention (c :: t)) eqn:Et; [|exact Skip].
    cbn [negb]. exists (count_fetch w), (Some u, TOWING_FOUND).
    split; [reflexivity|]. simpl. split; [lia|].
    split; [reflexivity|]. split; [reflexivity|].
    split; [unfold same_session; auto|].
    right. exists u, (fetches w), (c :: t). split; [reflexivity|].
    split; [apply list_elem_of_here|]. split; [lia|].
    split; [exact Eg|]. split; [discriminate|]. auto.
Qed.

Lemma same_session_trans w1 w2 w3 :
  same_session w1 w2 -> same_session w2 w3 -> same_session w1 w3.
Proof.
  unfold same_session. intros (A & B & C & D) (A' & B' & C' & D').
  repeat split; congruence.
Qed.

Lemma same_session_search q w : same_session w (count_search q w).
Proof. unfold same_session. auto. Qed.

(** The URLs that [process_company] checks are URLs that its searches
    returned. *)
Lemma shortlist_subset all_urls u :
  is_set_order (set_order wd) ->
  u ∈ firstn MAX_URLS_TO_CHECK (sort_urls_by_priority (set_order wd) all_urls) ->
  u ∈ all_urls.
Proof.
  intros Hset H. apply elem_of_take in H as (i & H & _).
  apply list_elem_of_lookup_2 in H.
  unfold sort_urls_by_priority in H. rewrite sorted_by_perm in H.
  apply (Hset all_urls). exact H.
Qed.

(** Processing one name never raises and leaves the session alone.
    It makes one search, or two, and fetches at most
    [MAX_URLS_TO_CHECK] pages. It returns a URL exactly when its
    status is ["TOWING_FOUND"]; that URL is one that the exact or
    the broad search returned, and the text fetched for it is not
    empty and passed the address check and the keyword check. *)
Theorem process_company_effects r name w :
  is_set_order (set_order wd) ->
  exists w' out,
    process_company wd r name w = (w', Ok out)
    /\ same_session w w'
    /\ searches w < searches w' <= searches w + 2
    /\ fetches w <= fetches w' <= fetches w + MAX_URLS_TO_CHECK
    /\ ((fst out = None /\ snd out <> TOWING_FOUND)
        \/ exists url n text,
             out = (Some url, TOWING_FOUND)
             /\ (url ∈ fst (search_duckduckgo
                              (ddg wd (searches w) (exact_query name r)))
                 \/ url ∈ fst (search_duckduckgo
                                 (ddg wd (S (searches w))
                                    (broad_query name r))))
             /\ fetches w <= n < fetches w'
             /\ get_page_text (fetch wd n url) = Some text
             /\ text <> []
             /\ check_address_match text r = true
             /\ check_towing_mention text = true).
Proof.
  intros Hset. unfold process_company, bind, do_search.
  set (found := search_duckduckgo (ddg wd (searches w) (exact_query name r))).
  destruct (snd found) eqn:Est.
  - (* the exact search succeeded *)
    assert (Scan : forall w0 all_urls,
               same_session w w0 ->
               searches w < searches w0 <= searches w + 2 ->
               fetches w0 = fetches w ->
               (forall u, u ∈ all_urls ->
                  u ∈ fst found
                  \/ u ∈ fst (search_duckduckgo
                                (ddg wd (S (searches w))
                                   (broad_query name r)))) ->
               exists w' out,
                 match all_urls with
                 | [] => ret (None, NO_URLS)
                 | _ :: _ =>
                     check_urls wd r
                       (firstn MAX_URLS_TO_CHECK
                          (sort_urls_by_priority (set_order wd) all_urls))
                 end w0 = (w', Ok out)
                 /\ same_session w w'
                 /\ searches w < searches w' <= searches w + 2
                 /\ fetches w <= fetches w' <= fetches w + MAX_URLS_TO_CHECK
                 /\ ((fst out = None /\ snd out <> TOWING_FOUND)
                     \/ exists url n text,
                          out = (Some url, TOWING_FOUND)
                          /\ (url ∈ fst found
                              \/ url ∈ fst (search_duckduckgo
                                              (ddg wd (S (searches w))
                                                 (broad_query name r))))
                          /\ fetches w <= n < fetches w'
                          /\ get_page_text (fetch wd n url) = Some text
                          /\ text <> []
                          /\ check_address_match text r = true
                          /\ check_towing_mention text = true)).
    { intros w0 all_urls Hsess Hsr Hfe Hfrom.
      destruct all_urls as [|u0 l0] eqn:Eall.
      - exists w0, (None, NO_URLS). split; [reflexivity|].
        split; [exact Hsess|]. split; [exact Hsr|]. split; [lia|].
        left. split; [reflexivity | discriminate].
      - rewrite <- Eall in *.
        destruct (check_urls_effects r
                    (firstn MAX_URLS_TO_CHECK
                       (sort_urls_by_priority (set_order wd) all_urls)) w0)
          as (w' & out & E & Hf & Hs & Hq & Hsess' & Hout).
        exists w', out. split; [exact E|].
        split; [eapply same_session_trans; eassumption|].
        split; [lia|].
        assert (Hl : length (firstn MAX_URLS_TO_CHECK
                               (sort_urls_by_priority (set_order wd) all_urls))
                     <= MAX_URLS_TO_CHECK) by (rewrite length_firstn; lia).
        split; [lia|].
        destruct Hout as [-> | (url & n & text & -> & Hin & Hn & Hrest)].
        + left. split; [reflexivity | discriminate].
        + right. exists url, n, text. split; [reflexivity|].
          split; [apply Hfrom; apply (shortlist_subset _ _ Hset Hin)|].
          split; [lia | exact Hrest]. }
    destruct (length (fst found) <? 5).
    + unfold bind, do_search.
      change (searches (count_search (exact_query name r) w))
        with (S (searches w)).
      set (found2 := search_duckduckgo
                       (ddg wd (S (searches w)) (broad_query name r))).
      destruct (snd found2) eqn:Est2.
      * apply Scan.
        -- unfold same_session. auto.
        -- simpl. lia.
        -- reflexivity.
        -- intros u Hu. apply elem_of_app in Hu as [Hu | Hu]; [left; exact Hu|].
           right. apply list_elem_of_In, filter_In in Hu as [Hu _].
           apply list_elem_of_In. exact Hu.
      * eexists _, _. split; [reflexivity|].
        split; [unfold same_session; auto|]. simpl.
        split; [lia|]. split; [lia|]. left. split; [reflexivity | discriminate].
      * eexists _, _. split; [reflexivity|].
        split; [unfold same_session; auto|]. simpl.
        split; [lia|]. split; [lia|]. left. split; [reflexivity | discriminate].
    + apply Scan.
      * unfold same_session. auto.
      * simpl. lia.
      * reflexivity.
      * intros u Hu. left. exact Hu.
  - eexists _, _. split; [reflexivity|].
    split; [unfold same_session; auto|]. simpl.
    split; [lia|]. split; [lia|]. left. split; [reflexivity | discriminate].
  - eexists _, _. split; [reflexivity|].
    split; [unfold same_session; auto|]. simpl.
    split; [lia|]. split; [lia|]. left. split; [reflexivity | discriminate].
Qed.

End CompanyFacts.

Lemma process_company_effects_witness :
  snd (process_company found_world acme_recovery (str "Acme Recovery")
         new_worker) = Ok (Some acme_site, TOWING_FOUND)
  /\ searches (fst (process_company found_world acme_recovery
                      (str "Acme Recovery") new_worker)) <= 2.
Proof.
  split; [vm_compute; reflexivity|].
  destruct (process_company_effects found_world acme_recovery
              (str "Acme Recovery") new_worker input_order_is_set_order)
    as (w' & out & E & _ & Hs & _).
  rewrite E. simpl in *. lia.
Defined.

(** ** What one record costs, and what a saved result stands for *)

Section RecordFacts.

Variable wd : world.

Lemma verified_weaken r lo hi lo' hi' website status :
  verified wd r lo hi website status -> lo' <= lo -> hi <= hi' ->
  verified wd r lo' hi' website status.
Proof.
  intros [H | (url & n & text & H1 & H2 & Hn & H)] Hlo Hhi; [left; exact H|].
  right. exists url, n, text. split; [exact H1|]. split; [exact H2|].
  split; [lia | exact H].
Qed.

Lemma process_company_within r name w :
  exists w' out,
    process_company wd r name w = (w', Ok out)
    /\ within 1 0 w w'
    /\ verified wd r (fetches w) (fetches w') (fst out) (snd out).
Proof.
  assert (Scan : forall w0 all_urls,
             searches w < searches w0 <= searches w + 2 ->
             fetches w0 = fetches w ->
             same_session w w0 ->
             exists w' out,
               match all_urls with
               | [] => ret (None, NO_URLS)
               | _ :: _ =>
                   check_urls wd r
                     (firstn MAX_URLS_TO_CHECK
                        (sort_urls_by_priority (set_order wd) all_urls))
               end w0 = (w', Ok out)
               /\ within 1 0 w w'
               /\ verified wd r (fetches w) (fetches w') (fst out) (snd out)).
  { intros w0 all_urls Hsr Hfe (Hc & Hcr & Hr & Hp).
    destruct all_urls as [|u0 l0] eqn:Eall.
    - exists w0, (None, NO_URLS). split; [reflexivity|].
      split; [unfold within, MAX_URLS_TO_CHECK; lia|].
      left. split; [reflexivity | discriminate].
    - rewrite <- Eall.
      destruct (check_urls_effects wd r
                  (firstn MAX_URLS_TO_CHECK
                     (sort_urls_by_priority (set_order wd) all_urls)) w0)
        as (w' & out & E & Hf & Hs & Hq & (Hc' & Hcr' & Hr' & Hp') & Hout).
      exists w', out. split; [exact E|].
      assert (Hl : length (firstn MAX_URLS_TO_CHECK
                             (sort_urls_by_priority (set_order wd) all_urls))
                   <= MAX_URLS_TO_CHECK) by (rewrite length_firstn; lia).
      split; [unfold within; unfold MAX_URLS_TO_CHECK in *; lia|].
      destruct Hout as [-> | (url & n & text & -> & Hin & Hn & Hrest)].
      + left. split; [reflexivity | discriminate].
      + right. exists url, n, text. split; [reflexivity|].
        split; [reflexivity|]. split; [lia | exact Hrest]. }
  unfold process_company, bind, do_search.
  destruct (search_duckduckgo (ddg wd (searches w) (exact_query name r)))
    as [urls st]. cbn [fst snd].
  destruct st.
  - destruct (length urls <? 5).
    + unfold bind, do_search.
      destruct (search_duckduckgo _) as [urls2 st2]. cbn [fst snd].
      destruct st2.
      * apply Scan; [simpl; lia | reflexivity | unfold same_session; auto].
      * eexists _, _. split; [reflexivity|].
        split; [unfold within, MAX_URLS_TO_CHECK; simpl; lia|].
        left. split; [reflexivity | discriminate].
      * eexists _, _. split; [reflexivity|].
        split; [unfold within, MAX_URLS_TO_CHECK; simpl; lia|].
        left. split; [reflexivity | discriminate].
    + apply Scan; [simpl; lia | reflexivity | unfold same_session; auto].
  - eexists _, _. split; [reflexivity|].
    split; [unfold within, MAX_URLS_TO_CHECK; simpl; lia|].
    left. split; [reflexivity | discriminate].
  - eexists _, _. split; [reflexivity|].
    split; [unfold within, MAX_URLS_TO_CHECK; simpl; lia|].
    left. split; [reflexivity | discriminate].
Qed.

Lemma restart_loop_within fuel r name cur out w lo :
  cur <= max_restarts -> lo <= fetches w ->
  verified wd r lo (fetches w) (fst out) (snd out) ->
  exists w' res k,
    restart_loop wd fuel r name cur out w = (w', res)
    /\ cur + k <= max_restarts
    /\ within k k w w'
    /\ match res with
       | Ok (cur', out') =>
           cur' = cur + k
           /\ verified wd r lo (fetches w') (fst out') (snd out')
       | Raised => True
       end.
Proof.
  revert cur out w. induction fuel as [|fuel IH]; intros cur out w Hcur Hlo Hv.
  - exists w, (Ok (cur, out)), 0. split.
    + simpl. destruct (_ && _); reflexivity.
    + split; [lia|]. split; [unfold within, MAX_URLS_TO_CHECK; lia|].
      split; [lia | exact Hv].
  - cbn [restart_loop].
    destruct (pstatus_eqb (snd out) DDG_RESTART && (cur <? max_restarts))
      eqn:Econd.
    2:{ exists w, (Ok (cur, out)), 0. split; [reflexivity|].
        split; [lia|]. split; [unfold within, MAX_URLS_TO_CHECK; lia|].
        split; [lia | exact Hv]. }
    apply andb_true_iff in Econd as [_ Hlt]. apply Nat.ltb_lt in Hlt.
    unfold bind at 1. unfold incr_restart_count.
    unfold bind at 1. unfold context_close.
    change (closes (count_restart w)) with (closes w).
    destruct (close_raises wd (closes w)).
    { exists (count_restart w), Raised, 1. split; [reflexivity|].
      split; [lia|].
      split; [unfold within, MAX_URLS_TO_CHECK; simpl; lia | exact I]. }
    unfold bind at 1. unfold create_context.
    change (creates (count_close (count_restart w))) with (creates w).
    destruct (create_raises wd (creates w)).
    { exists (count_close (count_restart w)), Raised, 1.
      split; [reflexivity|]. split; [lia|].
      split; [unfold within, MAX_URLS_TO_CHECK; simpl; lia | exact I]. }
    unfold bind at 1.
    destruct (process_company_within r name
                (count_create (count_close (count_restart w))))
      as (w2 & out2 & E2 & HW2 & Hv2).
    rewrite E2.
    assert (Hf2 : fetches w <= fetches w2).
    { unfold within in HW2. simpl in HW2. lia. }
    destruct (IH (S cur) out2 w2) as (w3 & res & k & E3 & Hk & HW3 & Hres).
    + lia.
    + lia.
    + eapply verified_weaken; [exact Hv2 | simpl; lia | lia].
    + exists w3, res, (S k). split; [exact E3|]. split; [lia|].
      split.
      * unfold within in *. unfold MAX_URLS_TO_CHECK in *. simpl in HW2. lia.
      * destruct res as [[cur' out']|]; [|exact I].
        destruct Hres as [-> Hv3]. split; [lia | exact Hv3].
Qed.

Lemma attempt_within r name cur w :
  cur <= max_restarts ->
  exists w' res k,
    attempt wd r name cur w = (w', res)
    /\ cur + k <= max_restarts
    /\ within (S k) k w w'
    /\ match res with
       | Ok (cur', (website, status)) =>
           cur' = cur + k /\ status <> DDG_RESTART
           /\ verified wd r (fetches w) (fetches w') website status
       | Raised => True
       end.
Proof.
  intros Hcur. unfold attempt. unfold bind at 1.
  destruct (process_company_within r name w) as (w1 & out & E & HW & Hv).
  rewrite E.
  assert (Hf : fetches w <= fetches w1) by (unfold within in HW; lia).
  destruct (restart_loop_within max_restarts r name cur out w1 (fetches w)
              Hcur Hf Hv)
    as (w2 & res & k & E2 & Hk & HW2 & Hres).
  unfold bind. rewrite E2.
  destruct res as [[cur' [website status]]|].
  - exists w2, (Ok (cur', (website,
                           if pstatus_eqb status DDG_RESTART then SKIPPED
                           else status))), k.
    split; [reflexivity|]. split; [exact Hk|].
    split; [unfold within in *; unfold MAX_URLS_TO_CHECK in *; lia|].
    destruct Hres as [-> Hv2]. split; [reflexivity|].
    cbn [fst snd] in Hv2.
    destruct status; cbn [pstatus_eqb]; (split; [discriminate|]);
      try exact Hv2.
    destruct Hv2 as [[-> _] | (url & n & text & _ & Hst & _)];
      [|discriminate].
    left. split; [reflexivity | discriminate].
  - exists w2, Raised, k. split; [reflexivity|]. split; [exact Hk|].
    split; [unfold within in *; unfold MAX_URLS_TO_CHECK in *; lia | exact I].
Qed.

(** The [try] block of one record: at most five calls of
    [process_company] and three restarts, whatever the renderer does;
    and [found_towing] is set only together with a verified web
    site. *)
Lemma try_names_within r w :
  exists w' res,
    try_names wd r w = (w', res)
    /\ within 5 max_restarts w w'
    /\ match res with
       | Ok (Save found website status) =>
           if found
           then exists url,
                  website = Some url /\ status = Some TOWING_FOUND
                  /\ verified wd r (fetches w) (fetches w') (Some url)
                       TOWING_FOUND
           else status <> Some TOWING_FOUND
       | _ => True
       end.
Proof.
  assert (Hfound : forall lo hi website,
             verified wd r lo hi website TOWING_FOUND ->
             exists url, website = Some url /\ Some TOWING_FOUND = Some TOWING_FOUND
                         /\ verified wd r lo hi (Some url) TOWING_FOUND).
  { intros lo hi website Hv.
    destruct Hv as [[_ H] | (url & n & text & -> & H)]; [congruence|].
    exists url. split; [reflexivity|]. split; [reflexivity|].
    right. exists url, n, text. split; [reflexivity | exact H]. }
  unfold try_names.
  destruct (clean_company_name_cell (LEGAL_NAME r)) as [clean_legal|].
  2:{ exists w, Raised. split; [reflexivity|].
      split; [unfold within, MAX_URLS_TO_CHECK, max_restarts; lia | exact I]. }
  unfold bind at 1.
  assert (Legal : exists w1 res1 k1,
             try_legal wd r clean_legal w = (w1, res1)
             /\ k1 <= max_restarts
             /\ within (S k1) k1 w w1
             /\ match res1 with
                | Ok (cur, website, status) =>
                    cur = k1
                    /\ match status with
                       | Some st =>
                           verified wd r (fetches w) (fetches w1) website st
                       | None => True
                       end
                | Raised => True
                end).
  { unfold try_legal. destruct clean_legal as [name|].
    - unfold bind.
      destruct (attempt_within r name 0 w) as (w1 & res & k & E & Hk & HW & Hres);
        [unfold max_restarts; lia|].
      rewrite E. destruct res as [[cur' [website status]]|].
      + exists w1, (Ok (cur', website, Some status)), k.
        split; [reflexivity|]. split; [lia|]. split; [exact HW|].
        destruct Hres as (-> & _ & Hv). split; [reflexivity | exact Hv].
      + exists w1, Raised, k. split; [reflexivity|]. split; [lia|].
        split; [exact HW | exact I].
    - exists w, (Ok (0, None, None)), 0. split; [reflexivity|].
      split; [lia|].
      split; [unfold within, MAX_URLS_TO_CHECK; lia|].
      split; [reflexivity | exact I]. }
  destruct Legal as (w1 & res1 & k1 & E1 & Hk1 & HW1 & Hres1).
  rewrite E1. destruct res1 as [[[cur website] status]|].
  2:{ exists w1, Raised. split; [reflexivity|].
      split; [|exact I].
      unfold within in *. unfold MAX_URLS_TO_CHECK, max_restarts in *. lia. }
  cbn [fst snd]. destruct Hres1 as [-> Hv1].
  assert (HW1' : within 5 max_restarts w w1).
  { unfold within in *. unfold MAX_URLS_TO_CHECK, max_restarts in *. lia. }
  destruct (is_status DDG_BLOCKED status) eqn:Eb.
  { exists w1, (Ok Requeue). split; [reflexivity|]. split; [exact HW1' | exact I]. }
  destruct (is_status TOWING_FOUND status) eqn:Et.
  { exists w1, (Ok (Save true website status)). split; [reflexivity|].
    split; [exact HW1'|].
    destruct status as [st|]; [|discriminate].
    destruct st; try discriminate. apply Hfound. exact Hv1. }
  assert (Hnot : status <> Some TOWING_FOUND).
  { intros ->. discriminate. }
  unfold try_dba.
  destruct (truthy (DBA_NAME r) && notna (DBA_NAME r)).
  2:{ exists w1, (Ok (Save false website status)). split; [reflexivity|].
      split; [exact HW1' | exact Hnot]. }
  destruct (clean_company_name (to_str (DBA_NAME r))) as [clean_dba|].
  2:{ exists w1, (Ok (Save false website status)). split; [reflexivity|].
      split; [exact HW1' | exact Hnot]. }
  destruct (negb (opt_str_eqb (Some clean_dba) clean_legal)).
  2:{ exists w1, (Ok (Save false website status)). split; [reflexivity|].
      split; [exact HW1' | exact Hnot]. }
  unfold bind.
  destruct (attempt_within r clean_dba k1 w1 Hk1)
    as (w2 & res & k2 & E2 & Hk2 & HW2 & Hres2).
  rewrite E2.
  assert (HW : within 5 max_restarts w w2).
  { unfold within in *. unfold MAX_URLS_TO_CHECK, max_restarts in *. lia. }
  destruct res as [[cur' [website' status']]|].
  2:{ exists w2, Raised. split; [reflexivity|]. split; [exact HW | exact I]. }
  cbn [fst snd]. destruct Hres2 as (_ & _ & Hv2).
  assert (Hv2' : verified wd r (fetches w) (fetches w2) website' status').
  { eapply verified_weaken; [exact Hv2 | unfold within in HW1; lia | lia]. }
  destruct (pstatus_eqb status' DDG_BLOCKED) eqn:Eb2.
  { exists w2, (Ok Requeue). split; [reflexivity|]. split; [exact HW | exact I]. }
  exists w2, (Ok (Save (pstatus_eqb status' TOWING_FOUND) website'
                    (Some status'))).
  split; [reflexivity|]. split; [exact HW|].
  destruct status'; cbn [pstatus_eqb]; try discriminate.
  apply Hfound. exact Hv2'.
Qed.

Lemma refresh_context_within w :
  searches (fst (refresh_context wd w)) = searches w
  /\ fetches (fst (refresh_context wd w)) = fetches w
  /\ restart_count (fst (refresh_context wd w)) = restart_count w
  /\ closes w <= closes (fst (refresh_context wd w)) <= S (closes w)
  /\ creates w <= creates (fst (refresh_context wd w)) <= S (creates w).
Proof.
  unfold refresh_context, bind, get_processed_count, set_processed_count.
  destruct (30 <=? S (processed_count w)); [|simpl; lia].
  unfold context_close. cbn [closes with_processed_count].
  destruct (close_raises wd (closes w)); [simpl; lia|].
  unfold create_context. cbn [creates count_close with_processed_count].
  destruct (create_raises wd (creates w)); simpl; lia.
Qed.

(** What one record costs. Whatever the renderer answers, and
    however the iteration ends, the worker sends at most ten search
    queries for the record and fetches at most fifty pages, and it
    restarts its session at most [max_restarts] times because of
    engine errors, the budget being shared by the legal name and the
    DBA name; with the periodic refresh it closes and creates at most
    four sessions. *)
Theorem record_budget item w sh :
  let w' := fst (fst (worker_iteration wd item w sh)) in
  searches w <= searches w' <= searches w + 10
  /\ fetches w <= fetches w' <= fetches w + 50
  /\ restart_count w <= restart_count w' <= restart_count w + max_restarts
  /\ closes w <= closes w' <= closes w + 4
  /\ creates w <= creates w' <= creates w + 4.
Proof.
  unfold worker_iteration.
  destruct (try_names_within (snd item) w) as (w1 & res & E & HW & _).
  rewrite E. unfold within, MAX_URLS_TO_CHECK, max_restarts in HW.
  destruct res as [[|found website status]|]; cbn [fst snd];
    unfold max_restarts; try lia.
  pose proof (refresh_context_within w1) as (Hs & Hf & Hr & Hc & Hcr).
  lia.
Qed.

(** What a saved result stands for. When an iteration saves its
    record as found, the result store holds for the record's
    identifier the row and a web site; the worker fetched that site
    during this iteration, and the text it got was not empty and
    passed the address check and the keyword check for the record;
    the counter of found records grew by one. When it saves the
    record as not found, the store and the counter are unchanged.
    In both cases the entries of all other identifiers are left as
    they were. *)
Theorem saved_result_is_verified item w sh w' sh' found status :
  worker_iteration wd item w sh = (w', sh', Recorded found status) ->
  (forall k, k <> item_id item ->
             results_dict sh' !! k = results_dict sh !! k)
  /\ if found
     then
       status = Some TOWING_FOUND
       /\ stats_found_towing sh' = S (stats_found_towing sh)
       /\ exists url n text e,
            results_dict sh' !! item_id item = Some e
            /\ res_row e = snd item /\ WEBSITE_URL e = Some url
            /\ fetches w <= n < fetches w'
            /\ get_page_text (fetch wd n url) = Some text
            /\ text <> []
            /\ check_address_match text (snd item) = true
            /\ check_towing_mention text = true
     else
       status <> Some TOWING_FOUND
       /\ results_dict sh' = results_dict sh
       /\ stats_found_towing sh' = stats_found_towing sh.
Proof.
  unfold worker_iteration.
  destruct (try_names_within (snd item) w) as (w1 & res & E & _ & Hres).
  rewrite E. destruct res as [[|found' website status']|]; try discriminate.
  intros H. injection H as <- <- <- <-.
  pose proof (refresh_context_within w1) as (_ & Hf & _).
  split.
  - intros k Hk. unfold save_result. cbn [results_dict].
    destruct found'; [|reflexivity].
    apply lookup_insert_ne. unfold item_id in Hk. congruence.
  - destruct found'.
    + destruct Hres as (url & -> & -> & Hv). split; [reflexivity|].
      split; [reflexivity|].
      destruct Hv as [[H _] | (url' & n & text & Hu & _ & Hn & Hrest)];
        [discriminate|].
      injection Hu as <-.
      exists url, n, text. eexists. unfold save_result. cbn [results_dict].
      split; [apply lookup_insert_eq|]. split; [reflexivity|].
      split; [reflexivity|]. split; [rewrite Hf; exact Hn | exact Hrest].
    + split; [exact Hres|]. split; reflexivity.
Qed.

End RecordFacts.

Lemma saved_result_is_verified_witness :
  exists url n text e,
    results_dict
      (snd (fst (worker_iteration found_world (1, acme_recovery) new_worker
                   empty_shared))) !! 1002%Z = Some e
    /\ WEBSITE_URL e = Some url
    /\ get_page_text (fetch found_world n url) = Some text
    /\ check_address_match text acme_recovery = true
    /\ check_towing_mention text = true.
Proof.
  assert (E : worker_iteration found_world (1, acme_recovery) new_worker
                empty_shared
              = (fst (fst (worker_iteration found_world (1, acme_recovery)
                             new_worker empty_shared)),
                 snd (fst (worker_iteration found_world (1, acme_recovery)
                             new_worker empty_shared)),
                 Recorded true (Some TOWING_FOUND)))
    by (vm_compute; reflexivity).
  destruct (saved_result_is_verified found_world _ _ _ _ _ _ _ E)
    as (_ & _ & _ & url & n & text & e & He & _ & Hurl & _ & Hg & _ & Ha & Ht).
  exists url, n, text, e. auto.
Defined.

(** ** Runs: what is stored, and what is never done twice *)

Lemma worker_iteration_keeps wd item w sh w' sh' e k :
  worker_iteration wd item w sh = (w', sh', e) ->
  is_Some (results_dict sh !! k) -> is_Some (results_dict sh' !! k).
Proof.
  unfold worker_iteration.
  destruct (try_names wd (snd item) w) as [w1 [[|found website status]|]];
    intros H; injection H as <- <- <-; try (intros; assumption).
  unfold save_result. cbn [results_dict].
  destruct found; [|intros; assumption].
  intros Hk. destruct (decide (k = DOT_NUMBER (snd item))) as [-> | Hne].
  - rewrite lookup_insert_eq. eexists. reflexivity.
  - rewrite lookup_insert_ne by congruence. exact Hk.
Qed.

Lemma run_keeps s tr s' k :
  run s tr s' ->
  is_Some (results_dict (fst s) !! k) -> is_Some (results_dict (fst s') !! k).
Proof.
  induction 1 as [s | s l s1 tr s2 Hstep _ IH]; intros Hk; [exact Hk|].
  apply IH.
  destruct Hstep as [sh ws i w item q Hi Hq | sh ws i w Hi Hq
                    | sh ws i w item wd w' sh' e Hi Hw];
    cbn [fst] in *; try exact Hk.
  eapply worker_iteration_keeps; eassumption.
Qed.

Lemma auto_approve_entries stamp rows results processed k en :
  fst (auto_approve stamp rows results processed) !! k = Some en ->
  results !! k = Some en
  \/ (WEBSITE_URL en = Some AUTO_APPROVED
      /\ res_row en ∈ rows /\ DOT_NUMBER (res_row en) = k).
Proof.
  revert results processed. induction rows as [|r rows IH];
    intros results processed H; [left; exact H|].
  cbn [auto_approve] in H.
  destruct (results !! DOT_NUMBER r) eqn:E.
  - destruct (IH _ _ H) as [H' | (H1 & H2 & H3)]; [left; exact H'|].
    right. split; [exact H1|]. split; [apply list_elem_of_further; exact H2|].
    exact H3.
  - destruct (IH _ _ H) as [H' | (H1 & H2 & H3)].
    + destruct (decide (k = DOT_NUMBER r)) as [-> | Hne].
      * rewrite lookup_insert_eq in H'. injection H' as <-. right.
        split; [reflexivity|]. split; [apply list_elem_of_here | reflexivity].
      * rewrite lookup_insert_ne in H' by congruence. left. exact H'.
    + right. split; [exact H1|].
      split; [apply list_elem_of_further; exact H2 | exact H3].
Qed.

Lemma auto_approve_others stamp rows results processed k :
  ~ (k ∈ map DOT_NUMBER rows) ->
  fst (auto_approve stamp rows results processed) !! k = results !! k
  /\ (k ∈ snd (auto_approve stamp rows results processed) <-> k ∈ processed).
Proof.
  revert results processed. induction rows as [|r rows IH];
    intros results processed Hk; [split; reflexivity|].
  cbn [map] in Hk. rewrite not_elem_of_cons in Hk. destruct Hk as [Hne Hk].
  cbn [auto_approve]. destruct (results !! DOT_NUMBER r).
  - apply IH. exact Hk.
  - destruct (IH (<[DOT_NUMBER r :=
                     {| res_row := r; WEBSITE_URL := Some AUTO_APPROVED;
                        VERIFIED_AT := stamp |}]> results)
                ({[DOT_NUMBER r]} ∪ processed) Hk) as [H1 H2].
    split.
    + rewrite H1. apply lookup_insert_ne. congruence.
    + rewrite H2. rewrite elem_of_union, elem_of_singleton. tauto.
Qed.

Lemma enumerate_from_snd start rows :
  map snd (enumerate_from start rows) = rows.
Proof.
  revert start. induction rows as [|r rows IH]; intros start;
    [reflexivity|]. simpl. rewrite IH. reflexivity.
Qed.

Lemma enumerate_from_fst start rows :
  map fst (enumerate_from start rows) = seq start (length rows).
Proof.
  revert start. induction rows as [|r rows IH]; intros start;
    [reflexivity|]. simpl. rewrite IH. reflexivity.
Qed.

Lemma enumerate_from_length start rows :
  length (enumerate_from start rows) = length rows.
Proof.
  revert start. induction rows as [|r rows IH]; intros start;
    [reflexivity|]. simpl. rewrite IH. reflexivity.
Qed.

Lemma enumerate_from_ids start rows :
  map item_id (enumerate_from start rows) = map DOT_NUMBER rows.
Proof.
  revert start. induction rows as [|r rows IH]; intros start;
    [reflexivity|]. simpl. rewrite IH. reflexivity.
Qed.

Lemma enumerate_from_elem start rows r :
  r ∈ rows -> exists idx, (idx, r) ∈ enumerate_from start rows.
Proof.
  revert start. induction rows as [|r' rows IH]; intros start H;
    [inversion H|].
  apply elem_of_cons in H as [-> | H].
  - exists start. apply list_elem_of_here.
  - destruct (IH (S start) H) as (idx & Hidx). exists idx.
    simpl. apply list_elem_of_further. exact Hidx.
Qed.

Lemma NoDup_map_filter {A B} (f : A -> B) (p : A -> bool) l :
  NoDup (map f l) -> NoDup (map f (List.filter p l)).
Proof.
  induction l as [|x l IH]; intros H; [exact H|].
  simpl in H. apply NoDup_cons in H as [Hx H].
  simpl. destruct (p x); [|apply IH; exact H].
  simpl. apply NoDup_cons. split; [|apply IH; exact H].
  intros Hin. apply Hx.
  apply list_elem_of_fmap in Hin as (y & -> & Hy).
  apply list_elem_of_In, filter_In in Hy as [Hy _].
  apply list_elem_of_fmap. exists y. split; [reflexivity|].
  apply list_elem_of_In. exact Hy.
Qed.

Lemma NoDup_map_other {A B} (f : A -> B) (p : A -> bool) l x :
  NoDup (map f l) -> x ∈ l -> p x = false ->
  ~ (f x ∈ map f (List.filter p l)).
Proof.
  induction l as [|y l IH]; intros Hnd Hx Hp; [inversion Hx|].
  simpl in Hnd. apply NoDup_cons in Hnd as [Hy Hnd].
  apply elem_of_cons in Hx as [-> | Hx].
  - simpl. rewrite Hp. intros Hin. apply Hy.
    apply list_elem_of_fmap in Hin as (z & Hz & Hin).
    apply list_elem_of_In, filter_In in Hin as [Hin _].
    apply list_elem_of_fmap. exists z. split; [exact Hz|].
    apply list_elem_of_In. exact Hin.
  - simpl. destruct (p y) eqn:Epy; [|apply IH; assumption].
    simpl. rewrite not_elem_of_cons. split; [|apply IH; assumption].
    intros Heq. apply Hy. rewrite <- Heq.
    apply list_elem_of_fmap. exists x. split; [reflexivity | exact Hx].
Qed.

Lemma filter_none {A} (p : A -> bool) l :
  (forall x, x ∈ l -> p x = false) -> List.filter p l = [].
Proof.
  induction l as [|x l IH]; intros H; [reflexivity|].
  simpl. rewrite (H x (list_elem_of_here _ _)).
  apply IH. intros y Hy. apply H. apply list_elem_of_further. exact Hy.
Qed.

(** No record is handled twice. On a queue of records with distinct
    identifiers, at every point of every run the identifiers that
    are queued, held by a worker, already processed or dropped are
    pairwise distinct: no record is held by two workers or held and
    queued at once, and a record that was processed or dropped is
    never taken again. *)
Theorem no_record_twice sh0 tr s :
  NoDup (map item_id (queue sh0)) ->
  run (start_workers sh0) tr s ->
  NoDup (pending_ids s ++ added_ids tr ++ dropped_ids tr).
Proof.
  intros Hnd Hrun.
  rewrite (run_pending _ _ _ Hrun).
  unfold pending_ids, start_workers. cbn [fst snd].
  rewrite in_flight_start. cbn [map]. rewrite app_nil_r. exact Hnd.
Qed.

Lemma no_record_twice_witness :
  NoDup (added_ids requeue_run).
Proof.
  destruct requeue_run_completes as (s & Hrun & Hc).
  assert (H := no_record_twice one_record_queue requeue_run s
                 (NoDup_singleton _) Hrun).
  apply NoDup_app in H as (_ & _ & H).
  apply NoDup_app in H as (H & _). exact H.
Defined.

Lemma found_run_runs :
  exists s,
    run (start_workers (main_setup (str "2026-01-01T00:00:00") two_records
                          ∅ ∅)) found_run s
    /\ completed s
    /\ WEBSITE_URL <$> results_dict (fst s) !! 1002%Z
       = Some (Some acme_site)
    /\ WEBSITE_URL <$> results_dict (fst s) !! 1001%Z
       = Some (Some AUTO_APPROVED).
Proof.
  unfold found_run, start_workers. eexists. split.
  - eapply run_cons; [eapply step_pop; reflexivity|].
    eapply run_cons.
    { eapply (step_end _ _ 0 _ _ found_world); [reflexivity|].
      vm_compute. reflexivity. }
    eapply run_cons; [eapply (step_exit _ _ 0); reflexivity|].
    eapply run_cons; [eapply (step_exit _ _ 1); reflexivity|].
    eapply run_cons; [eapply (step_exit _ _ 2); reflexivity|].
    eapply run_cons; [eapply (step_exit _ _ 3); reflexivity|].
    apply run_nil.
  - split; [split; [reflexivity | repeat constructor]|].
    split; vm_compute; reflexivity.
Qed.

Lemma check_towing_mention_spec_witness :
  exists kw, kw ∈ PRIMARY_TOW_KEYWORDS ++ SECONDARY_TOW_KEYWORDS
             /\ contains kw (lower hartford_towing_page) = true.
Proof.
  apply (proj2 (check_towing_mention_spec hartford_towing_page)).
  vm_compute. reflexivity.
Defined.

Lemma search_duckduckgo_spec_witness :
  snd (search_duckduckgo error_page) = SearchRestart
  /\ fst (search_duckduckgo blank_page) = [].
Proof.
  split.
  - apply (proj1 (search_duckduckgo_spec error_page)).
    split; [reflexivity|]. left. vm_compute. reflexivity.
  - apply (proj2 (search_duckduckgo_spec blank_page)).
    vm_compute. discriminate.
Defined.

(** ** The shape of a cleaned name *)

Lemma kept_char_not_amp c : kept_char c = true -> c <> "&"%char.
Proof. intros H ->. vm_compute in H. discriminate. Qed.

Lemma join_single_spaces toks :
  Forall is_token toks ->
  Forall (fun c => is_space c = true -> c = " "%char) (join (str " ") toks).
Proof.
  intros H. apply join_Forall; [reflexivity|].
  induction H as [|t toks [_ Ht] _ IH]; constructor; [|exact IH].
  clear -Ht. induction t as [|c t IH]; constructor.
  - simpl in Ht. apply andb_true_iff in Ht as [Hc _].
    apply negb_true_iff in Hc. intros Hs. congruence.
  - apply IH. simpl in Ht. apply andb_true_iff in Ht as [_ Ht]. exact Ht.
Qed.

(** What a cleaned name looks like. Whatever the name, when the
    cleaning returns a string, the string is not empty and consists
    of tokens separated by single blanks, with no white space at
    either end; it has only word characters, blanks and apostrophes,
    so no ampersand and no other punctuation; and none of its words
    is a legal-entity suffix, in any letter case. *)
Theorem cleaned_name_shape name cleaned :
  clean_company_name name = Some cleaned ->
  (exists toks,
      toks <> [] /\ Forall is_token toks /\ cleaned = join (str " ") toks)
  /\ is_space (hd " "%char cleaned) = false
  /\ is_space (List.last cleaned " "%char) = false
  /\ Forall (fun c => (is_word c = true \/ c = " "%char \/ c = "'"%char)
                      /\ c <> "&"%char) cleaned
  /\ Forall (fun run => is_suffix_word run = false) (word_runs cleaned).
Proof.
  intros H.
  destruct (clean_company_name_shape name cleaned H)
    as (Hne & (toks & Htok & ->) & Hkept & Hruns).
  assert (Hne' : toks <> []) by (intros ->; apply Hne; reflexivity).
  split; [exists toks; auto|].
  destruct (join_ends toks Htok Hne') as [Hh Hl].
  split; [exact Hh|]. split; [exact Hl|]. split; [|exact Hruns].
  pose proof (join_single_spaces toks Htok) as Hsp.
  rewrite Forall_forall in Hkept, Hsp. apply Forall_forall.
  intros c Hc. specialize (Hkept c Hc). specialize (Hsp c Hc).
  split; [|apply kept_char_not_amp; exact Hkept].
  unfold kept_char in Hkept.
  apply orb_true_iff in Hkept as [Hk | Hk].
  - apply orb_true_iff in Hk as [Hk | Hk]; [left; exact Hk|].
    right. left. apply Hsp. exact Hk.
  - right. right. apply eqb_char_eq. exact Hk.
Qed.

Lemma cleaned_name_shape_witness :
  clean_company_name (str "A & B Towing CO., INC.")
  = Some (str "A and B Towing")
  /\ Forall (fun run => is_suffix_word run = false)
       (word_runs (str "A and B Towing")).
Proof.
  assert (E : clean_company_name (str "A & B Towing CO., INC.")
              = Some (str "A and B Towing")) by (vm_compute; reflexivity).
  split; [exact E|].
  apply (cleaned_name_shape (str "A & B Towing CO., INC.")
           (str "A and B Towing") E).
Defined.

(** ** The order of the work on one name *)

Section OrderFacts.

Variable wd : world.

Lemma check_urls_step r u rest w :
  check_urls wd r (u :: rest) w
  = if passes wd r (fetches w) u
    then (count_fetch w, Ok (Some u, TOWING_FOUND))
    else check_urls wd r rest (count_fetch w).
Proof.
  cbn [check_urls]. unfold bind, do_fetch, passes.
  destruct (get_page_text (fetch wd (fetches w) u)) as [[|c t]|];
    try reflexivity.
  destruct (check_address_match (c :: t) r); [|reflexivity].
  destruct (check_towing_mention (c :: t)); reflexivity.
Qed.

(** The loop over the shortlist fetches the URLs one at a time, in
    the order of the list, and stops at the first one whose page
    passes both checks: that URL is returned with ["TOWING_FOUND"]
    and no later URL is fetched. When no page passes, every URL of
    the list has been fetched once and the status is
    ["NO_TOWING"]. *)
Theorem check_urls_first_pass r urls w :
  exists w' out,
    check_urls wd r urls w = (w', Ok out)
    /\ ((out = (None, NO_TOWING)
         /\ fetches w' = fetches w + length urls
         /\ forall j u, urls !! j = Some u ->
                        passes wd r (fetches w + j) u = false)
        \/ exists i url,
             urls !! i = Some url
             /\ out = (Some url, TOWING_FOUND)
             /\ passes wd r (fetches w + i) url = true
             /\ fetches w' = fetches w + S i
             /\ forall j u, j < i -> urls !! j = Some u ->
                            passes wd r (fetches w + j) u = false).
Proof.
  revert w. induction urls as [|u urls IH]; intros w.
  - exists w, (None, NO_TOWING). split; [reflexivity|]. left.
    split; [reflexivity|]. split; [simpl; lia|]. intros j u' H. inversion H.
  - rewrite check_urls_step.
    destruct (passes wd r (fetches w) u) eqn:Ep.
    + exists (count_fetch w), (Some u, TOWING_FOUND).
      split; [reflexivity|]. right. exists 0, u.
      split; [reflexivity|]. split; [reflexivity|].
      split; [rewrite Nat.add_0_r; exact Ep|].
      split; [simpl; lia|]. intros j u' Hj. lia.
    + destruct (IH (count_fetch w)) as (w' & out & E & Hout).
      exists w', out. split; [exact E|].
      change (fetches (count_fetch w)) with (S (fetches w)) in Hout.
      destruct Hout as [(-> & Hf & Hall) | (i & url & Hi & -> & Hp & Hf & Hall)].
      * left. split; [reflexivity|]. split; [simpl; lia|].
        intros [|j] u' Hj.
        -- simpl in Hj. injection Hj as <-. rewrite Nat.add_0_r. exact Ep.
        -- simpl in Hj. rewrite <- Nat.add_succ_comm. apply Hall. exact Hj.
      * right. exists (S i), url. split; [exact Hi|].
        split; [reflexivity|].
        split; [rewrite <- Nat.add_succ_comm; exact Hp|].
        split; [lia|]. intros [|j] u' Hlt Hj.
        -- simpl in Hj. injection Hj as <-. rewrite Nat.add_0_r. exact Ep.
        -- simpl in Hj. rewrite <- Nat.add_succ_comm.
           apply Hall; [lia | exact Hj].
Qed.

(** The broad query. [process_company] sends the exact query first;
    it sends the broad query after it exactly when the exact search
    succeeded with fewer than five URLs, and it sends nothing
    else. *)
Theorem broad_search_condition r name w :
  queries (fst (process_company wd r name w))
  = (if match snd (search_duckduckgo
                     (ddg wd (searches w) (exact_query name r))) with
        | SearchOk =>
            length (fst (search_duckduckgo
                           (ddg wd (searches w) (exact_query name r)))) <? 5
        | _ => false
        end
     then [broad_query name r] else [])
    ++ exact_query name r :: queries w.
Proof.
  unfold process_company, bind, do_search.
  destruct (search_duckduckgo (ddg wd (searches w) (exact_query name r)))
    as [urls st]; simpl.
  destruct st; try reflexivity.
  destruct (length urls <? 5).
  - unfold bind, do_search.
    destruct (search_duckduckgo (ddg wd (searches (count_search _ w)) _))
      as [urls2 st2]; simpl.
    destruct st2; simpl; try reflexivity.
    destruct (urls ++ _) as [|u0 l0]; [reflexivity|].
    destruct (check_urls_ok wd r
                (firstn MAX_URLS_TO_CHECK
                   (sort_urls_by_priority (set_order wd) (u0 :: l0)))
                (count_search (broad_query name r)
                   (count_search (exact_query name r) w)))
      as (w' & out & E & Hq & _).
    rewrite E. cbn [fst]. rewrite Hq. reflexivity.
  - simpl. destruct urls as [|u0 l0]; [reflexivity|].
    destruct (check_urls_ok wd r
                (firstn MAX_URLS_TO_CHECK
                   (sort_urls_by_priority (set_order wd) (u0 :: l0)))
                (count_search (exact_query name r) w))
      as (w' & out & E & Hq & _).
    rewrite E. cbn [fst]. rewrite Hq. reflexivity.
Qed.

End OrderFacts.

(** * The blocked path *)

Lemma answered_app wd n m2 m1 :
  answered wd n (m2 ++ m1)
  = answered wd (n + length m1) m2 ++ answered wd n m1.
Proof.
  induction m2 as [|q m2 IH]; [reflexivity|].
  cbn [app answered]. rewrite IH, length_app.
  rewrite (Nat.add_comm (length m2) (length m1)), Nat.add_assoc.
  reflexivity.
Qed.

Lemma answers_sent wd w w' more :
  sent w w' more -> answers wd w w' = answered wd (searches w) more.
Proof.
  intros [Hq Hs]. unfold answers. rewrite Hs, Hq.
  replace (searches w + length more - searches w) with (length more) by lia.
  rewrite firstn_app, Nat.sub_diag, firstn_all. cbn [firstn].
  rewrite app_nil_r. reflexivity.
Qed.

Lemma sent_nil w : sent w w [].
Proof. split; [reflexivity | simpl; lia]. Qed.

Lemma sent_trans w0 w1 w2 more1 more2 :
  sent w0 w1 more1 -> sent w1 w2 more2 -> sent w0 w2 (more2 ++ more1).
Proof.
  intros [Hq1 Hs1] [Hq2 Hs2]. split.
  - rewrite Hq2, Hq1, app_assoc. reflexivity.
  - rewrite Hs2, Hs1, length_app. lia.
Qed.

Lemma blocked_iff_app sts2 sts1 status :
  blocked_iff sts2 status -> ~ (SearchBlocked ∈ sts1) ->
  blocked_iff (sts2 ++ sts1) status.
Proof.
  intros [Hiff Hhead] Hnot. split.
  - rewrite Hiff, elem_of_app. tauto.
  - intros H. apply elem_of_app in H as [H | H]; [|contradiction].
    specialize (Hhead H). destruct sts2; [discriminate | exact Hhead].
Qed.

Section BlockedFacts.

Variable wd : world.

Lemma process_company_answers r name w :
  exists w' out more,
    process_company wd r name w = (w', Ok out)
    /\ sent w w' more
    /\ blocked_iff (answered wd (searches w) more) (snd out).
Proof.
  assert (One : forall st status,
             snd (search_duckduckgo (ddg wd (searches w) (exact_query name r)))
             = st ->
             (status = DDG_BLOCKED <-> st = SearchBlocked) ->
             blocked_iff (answered wd (searches w) [exact_query name r])
               status).
  { intros st status Hst Hiff. cbn [answered length].
    rewrite Nat.add_0_r, Hst. split.
    - rewrite Hiff, list_elem_of_singleton. split; congruence.
    - rewrite list_elem_of_singleton. intros <-. reflexivity. }
  assert (Two : forall st2 status,
             snd (search_duckduckgo (ddg wd (searches w) (exact_query name r)))
             = SearchOk ->
             snd (search_duckduckgo
                    (ddg wd (S (searches w)) (broad_query name r))) = st2 ->
             (status = DDG_BLOCKED <-> st2 = SearchBlocked) ->
             blocked_iff
               (answered wd (searches w)
                  [broad_query name r; exact_query name r]) status).
  { intros st2 status H1 H2 Hiff. cbn [answered length].
    rewrite Nat.add_0_r, Nat.add_1_r, H1, H2. split.
    - rewrite Hiff, elem_of_cons, list_elem_of_singleton.
      split; [intros ->; left; reflexivity|].
      intros [H | H]; [congruence | discriminate].
    - rewrite elem_of_cons, list_elem_of_singleton.
      intros [<- | H]; [reflexivity | discriminate]. }
  assert (Scan : forall w0 urls more,
             sent w w0 more ->
             (forall status, status <> DDG_BLOCKED ->
                blocked_iff (answered wd (searches w) more) status) ->
             exists w' out more',
               check_urls wd r urls w0 = (w', Ok out)
               /\ sent w w' more'
               /\ blocked_iff (answered wd (searches w) more') (snd out)).
  { intros w0 urls more [Hq Hs] Hb.
    destruct (check_urls_effects wd r urls w0)
      as (w' & out & E & _ & Hs' & Hq' & _ & Hout).
    exists w', out, more. split; [exact E|].
    split; [split; congruence|].
    apply Hb.
    destruct Hout as [-> | (url & n & text & -> & _)]; discriminate. }
  unfold process_company, bind, do_search.
  destruct (search_duckduckgo (ddg wd (searches w) (exact_query name r)))
    as [urls st] eqn:E1. cbn [fst snd].
  assert (H1 : snd (search_duckduckgo
                      (ddg wd (searches w) (exact_query name r))) = st)
    by (rewrite E1; reflexivity).
  assert (S1 : sent w (count_search (exact_query name r) w)
                 [exact_query name r]).
  { split; [reflexivity | simpl; lia]. }
  destruct st.
  - destruct (length urls <? 5).
    + unfold bind, do_search.
      change (searches (count_search (exact_query name r) w))
        with (S (searches w)).
      destruct (search_duckduckgo
                  (ddg wd (S (searches w)) (broad_query name r)))
        as [urls2 st2] eqn:E2. cbn [fst snd].
      assert (H2 : snd (search_duckduckgo
                          (ddg wd (S (searches w)) (broad_query name r)))
                   = st2) by (rewrite E2; reflexivity).
      assert (S2 : sent w (count_search (broad_query name r)
                             (count_search (exact_query name r) w))
                     [broad_query name r; exact_query name r]).
      { split; [reflexivity | simpl; lia]. }
      destruct st2.
      * cbn [ret]. destruct (urls ++ _) as [|u0 l0].
        -- eexists _, _, _. split; [reflexivity|]. split; [exact S2|].
           apply (Two SearchOk); [reflexivity | reflexivity|].
           split; discriminate.
        -- apply (Scan _ _ _ S2). intros status Hne.
           apply (Two SearchOk); [reflexivity | reflexivity|].
           split; [contradiction | discriminate].
      * eexists _, _, _. split; [reflexivity|]. split; [exact S2|].
        apply (Two SearchBlocked); [reflexivity | reflexivity|].
        split; reflexivity.
      * eexists _, _, _. split; [reflexivity|]. split; [exact S2|].
        apply (Two SearchRestart); [reflexivity | reflexivity|].
        split; discriminate.
    + cbn [ret]. destruct urls as [|u0 l0].
      * eexists _, _, _. split; [reflexivity|]. split; [exact S1|].
        apply (One SearchOk); [reflexivity|]. split; discriminate.
      * apply (Scan _ _ _ S1). intros status Hne.
        apply (One SearchOk); [reflexivity|].
        split; [contradiction | discriminate].
  - eexists _, _, _. split; [reflexivity|]. split; [exact S1|].
    apply (One SearchBlocked); [reflexivity|]. split; reflexivity.
  - eexists _, _, _. split; [reflexivity|]. split; [exact S1|].
    apply (One SearchRestart); [reflexivity|]. split; discriminate.
Qed.

Lemma restart_loop_answers fuel r name cur out w0 w more0 :
  sent w0 w more0 ->
  blocked_iff (answered wd (searches w0) more0) (snd out) ->
  exists w' res more,
    restart_loop wd fuel r name cur out w = (w', res)
    /\ sent w0 w' more
    /\ match res with
       | Ok (_, out') =>
           blocked_iff (answered wd (searches w0) more) (snd out')
       | Raised => ~ (SearchBlocked ∈ answered wd (searches w0) more)
       end.
Proof.
  revert cur out w more0.
  induction fuel as [|fuel IH]; intros cur out w more0 Hsent Hb.
  - exists w, (Ok (cur, out)), more0. split.
    + simpl. destruct (_ && _); reflexivity.
    + split; [exact Hsent | exact Hb].
  - cbn [restart_loop].
    destruct (pstatus_eqb (snd out) DDG_RESTART && (cur <? max_restarts))
      eqn:Econd.
    2:{ exists w, (Ok (cur, out)), more0. split; [reflexivity|].
        split; [exact Hsent | exact Hb]. }
    apply andb_true_iff in Econd as [Hst _].
    assert (Hnot : ~ (SearchBlocked ∈ answered wd (searches w0) more0)).
    { pose proof Hb as [Hiff _]. intros H. apply Hiff in H.
      rewrite H in Hst. discriminate. }
    unfold bind at 1. unfold incr_restart_count.
    unfold bind at 1. unfold context_close.
    change (closes (count_restart w)) with (closes w).
    destruct (close_raises wd (closes w)).
    { exists (count_restart w), Raised, more0. split; [reflexivity|].
      split; [exact Hsent | exact Hnot]. }
    unfold bind at 1. unfold create_context.
    change (creates (count_close (count_restart w))) with (creates w).
    destruct (create_raises wd (creates w)).
    { exists (count_close (count_restart w)), Raised, more0.
      split; [reflexivity|]. split; [exact Hsent | exact Hnot]. }
    unfold bind at 1.
    destruct (process_company_answers r name
                (count_create (count_close (count_restart w))))
      as (w2 & out2 & more2 & E2 & S2 & B2).
    rewrite E2.
    assert (Hsent2 : sent w0 (count_create (count_close (count_restart w)))
                       more0) by exact Hsent.
    apply (IH (S cur) out2 w2 (more2 ++ more0)).
    + eapply sent_trans; eassumption.
    + rewrite answered_app. apply blocked_iff_app; [|exact Hnot].
      destruct Hsent as [_ Hs]. cbn [searches count_create count_close
                                       count_restart] in B2.
      rewrite <- Hs. exact B2.
Qed.

Lemma attempt_answers r name cur w0 w more0 :
  sent w0 w more0 ->
  ~ (SearchBlocked ∈ answered wd (searches w0) more0) ->
  exists w' res more,
    attempt wd r name cur w = (w', res)
    /\ sent w0 w' more
    /\ match res with
       | Ok (_, (_, status)) =>
           blocked_iff (answered wd (searches w0) more) status
       | Raised => ~ (SearchBlocked ∈ answered wd (searches w0) more)
       end.
Proof.
  intros Hsent Hnot. unfold attempt. unfold bind at 1.
  destruct (process_company_answers r name w)
    as (w1 & out & more1 & E & S1 & B1).
  rewrite E.
  destruct (restart_loop_answers max_restarts r name cur out w0 w1
              (more1 ++ more0))
    as (w2 & res & more & E2 & S2 & Hres).
  - eapply sent_trans; eassumption.
  - rewrite answered_app. apply blocked_iff_app; [|exact Hnot].
    destruct Hsent as [_ Hs]. rewrite <- Hs. exact B1.
  - unfold bind. rewrite E2.
    destruct res as [[cur' [website status]]|].
    + eexists _, _, more. split; [reflexivity|]. split; [exact S2|].
      cbn [fst snd] in *. destruct Hres as [Hiff Hhead].
      split; [|exact Hhead]. rewrite <- Hiff.
      destruct status; cbn [pstatus_eqb]; split; congruence.
    + exists w2, Raised, more. split; [reflexivity|].
      split; [exact S2 | exact Hres].
Qed.

(** The [try] block ends at one of its [continue] statements exactly
    when the engine refused one of the queries of the record, and
    then the refusal is the answer to the last query sent. *)
Lemma try_names_answers r w :
  exists w' res more,
    try_names wd r w = (w', res)
    /\ sent w w' more
    /\ (res = Ok Requeue <-> SearchBlocked ∈ answered wd (searches w) more)
    /\ (SearchBlocked ∈ answered wd (searches w) more ->
        head (answered wd (searches w) more) = Some SearchBlocked).
Proof.
  assert (Hnil : ~ (SearchBlocked ∈ answered wd (searches w) [])).
  { simpl. intros H. inversion H. }
  unfold try_names.
  destruct (clean_company_name_cell (LEGAL_NAME r)) as [clean_legal|].
  2:{ exists w, Raised, []. split; [reflexivity|]. split; [apply sent_nil|].
      split; [split; [discriminate | intros H; contradiction]|].
      intros H. contradiction. }
  unfold bind at 1.
  assert (Legal : exists w1 res1 more1,
             try_legal wd r clean_legal w = (w1, res1)
             /\ sent w w1 more1
             /\ match res1 with
                | Ok (_, _, Some st) =>
                    blocked_iff (answered wd (searches w) more1) st
                | _ => ~ (SearchBlocked ∈ answered wd (searches w) more1)
                end).
  { unfold try_legal. destruct clean_legal as [name|].
    - unfold bind.
      destruct (attempt_answers r name 0 w w [] (sent_nil w) Hnil)
        as (w1 & res & more & E & S1 & Hres).
      rewrite E. destruct res as [[cur' [website status]]|].
      + eexists _, _, more. split; [reflexivity|]. split; [exact S1|].
        exact Hres.
      + exists w1, Raised, more. split; [reflexivity|].
        split; [exact S1 | exact Hres].
    - exists w, (Ok (0, None, None)), []. split; [reflexivity|].
      split; [apply sent_nil | exact Hnil]. }
  destruct Legal as (w1 & res1 & more1 & E1 & S1 & Hres1).
  rewrite E1. destruct res1 as [[[cur website] status]|].
  2:{ exists w1, Raised, more1. split; [reflexivity|]. split; [exact S1|].
      split; [split; [discriminate | intros H; contradiction]|].
      intros H. contradiction. }
  cbn [fst snd].
  destruct (is_status DDG_BLOCKED status) eqn:Eb.
  { destruct status as [st|]; [|discriminate].
    destruct st; try discriminate. destruct Hres1 as [Hiff Hhead].
    exists w1, (Ok Requeue), more1. split; [reflexivity|].
    split; [exact S1|]. split; [|exact Hhead].
    split; [intros _; apply Hiff; reflexivity | reflexivity]. }
  assert (Hnot1 : ~ (SearchBlocked ∈ answered wd (searches w) more1)).
  { destruct status as [st|]; [|exact Hres1].
    destruct Hres1 as [Hiff _]. intros H. apply Hiff in H. subst st.
    discriminate. }
  assert (Saved : forall found ws st,
             exists w' res more,
               (w1, Ok (Save found ws st)) = (w', res)
               /\ sent w w' more
               /\ (res = Ok Requeue
                   <-> SearchBlocked ∈ answered wd (searches w) more)
               /\ (SearchBlocked ∈ answered wd (searches w) more ->
                   head (answered wd (searches w) more)
                   = Some SearchBlocked)).
  { intros found ws st. eexists _, _, more1. split; [reflexivity|].
    split; [exact S1|].
    split; [split; [discriminate | intros H; contradiction]|].
    intros H. contradiction. }
  destruct (is_status TOWING_FOUND status); [apply Saved|].
  unfold try_dba.
  destruct (truthy (DBA_NAME r) && notna (DBA_NAME r)); [|apply Saved].
  destruct (clean_company_name (to_str (DBA_NAME r))) as [clean_dba|];
    [|apply Saved].
  destruct (negb (opt_str_eqb (Some clean_dba) clean_legal)); [|apply Saved].
  unfold bind.
  destruct (attempt_answers r clean_dba cur w w1 more1 S1 Hnot1)
    as (w2 & res & more & E2 & S2 & Hres2).
  rewrite E2. destruct res as [[cur' [website' status']]|].
  2:{ exists w2, Raised, more. split; [reflexivity|]. split; [exact S2|].
      split; [split; [discriminate | intros H; contradiction]|].
      intros H. contradiction. }
  cbn [fst snd]. destruct Hres2 as [Hiff Hhead].
  destruct (pstatus_eqb status' DDG_BLOCKED) eqn:Eb2.
  - destruct status'; try discriminate.
    exists w2, (Ok Requeue), more. split; [reflexivity|].
    split; [exact S2|]. split; [|exact Hhead].
    split; [intros _; apply Hiff; reflexivity | reflexivity].
  - eexists _, _, more. split; [reflexivity|]. split; [exact S2|].
    split; [|exact Hhead].
    split; [discriminate|]. intros H. apply Hiff in H. subst status'.
    discriminate.
Qed.

Lemma refresh_context_sent w : sent w (fst (refresh_context wd w)) [].
Proof.
  unfold refresh_context, bind, get_processed_count, set_processed_count.
  destruct (30 <=? S (processed_count w)); [|split; simpl; [reflexivity|lia]].
  unfold context_close. cbn [closes with_processed_count].
  destruct (close_raises wd (closes w)); [split; simpl; [reflexivity|lia]|].
  unfold create_context. cbn [creates count_close with_processed_count].
  destruct (create_raises wd (creates w)); split; simpl;
    reflexivity || lia.
Qed.

(** C10. An iteration ends with the disposition BLOCKED_RETRY
    exactly when the engine refused one of the queries that the
    worker sent for the record, whether for the legal name or for
    the DBA name, exact or broad, before or after restarts. The
    refusal is then the answer to the last query sent, the record
    (with its index) is put at the back of the queue, and the result
    store, the processed set, the run counters and the worker's own
    count of processed records are what they were before the
    iteration. *)
Theorem blocked_retry_leaves_no_trace item w sh w' sh' e :
  worker_iteration wd item w sh = (w', sh', e) ->
  (disposition_of e = BLOCKED_RETRY <-> SearchBlocked ∈ answers wd w w')
  /\ (SearchBlocked ∈ answers wd w w' ->
      head (answers wd w w') = Some SearchBlocked
      /\ queue sh' = queue sh ++ [item]
      /\ results_dict sh' = results_dict sh
      /\ processed_dots sh' = processed_dots sh
      /\ stats_searched sh' = stats_searched sh
      /\ stats_found_towing sh' = stats_found_towing sh
      /\ processed_count w' = processed_count w).
Proof.
  unfold worker_iteration.
  destruct (try_names_answers (snd item) w)
    as (w1 & res & more & E & S1 & Hiff & Hhead).
  destruct (try_names_within wd (snd item) w) as (w1' & res' & E' & HW & _).
  rewrite E in E'. injection E' as <- <-.
  rewrite E.
  destruct res as [[|found website status]|]; intros H;
    injection H as <- <- <-.
  - rewrite (answers_sent wd _ _ _ S1).
    assert (Hb : SearchBlocked ∈ answered wd (searches w) more)
      by (apply Hiff; reflexivity).
    split; [split; [intros _; exact Hb | reflexivity]|].
    intros _. split; [apply Hhead; exact Hb|].
    unfold within in HW. cbn [queue_put queue results_dict processed_dots
                                stats_searched stats_found_towing].
    repeat split; try reflexivity. apply HW.
  - assert (S2 : sent w (fst (refresh_context wd w1)) more).
    { apply (sent_trans _ _ _ _ [] S1 (refresh_context_sent w1)). }
    rewrite (answers_sent wd _ _ _ S2).
    assert (Hnb : ~ (SearchBlocked ∈ answered wd (searches w) more)).
    { intros Hb. apply Hiff in Hb. discriminate. }
    split; [|intros Hb; contradiction].
    split; [|intros Hb; contradiction].
    cbn [disposition_of]. destruct found; [discriminate|].
    destruct status as [[]|]; discriminate.
  - rewrite (answers_sent wd _ _ _ S1).
    assert (Hnb : ~ (SearchBlocked ∈ answered wd (searches w) more)).
    { intros Hb. apply Hiff in Hb. discriminate. }
    split; [|intros Hb; contradiction].
    split; [discriminate | intros Hb; contradiction].
Qed.

End BlockedFacts.

Lemma blocked_retry_leaves_no_trace_witness :
  answers dba_blocked_world new_worker
    (fst (fst (worker_iteration dba_blocked_world (1, acme_with_dba)
                 new_worker empty_shared)))
  = [SearchBlocked; SearchOk; SearchOk]
  /\ queue (snd (fst (worker_iteration dba_blocked_world (1, acme_with_dba)
                        new_worker empty_shared)))
     = [(1, acme_with_dba)]
  /\ processed_dots (snd (fst (worker_iteration dba_blocked_world
                                 (1, acme_with_dba) new_worker
                                 empty_shared)))
     = ∅.
Proof.
  assert (A : answers dba_blocked_world new_worker
                (fst (fst (worker_iteration dba_blocked_world
                             (1, acme_with_dba) new_worker empty_shared)))
              = [SearchBlocked; SearchOk; SearchOk])
    by (vm_compute; reflexivity).
  split; [exact A|].
  destruct (worker_iteration dba_blocked_world (1, acme_with_dba) new_worker
              empty_shared) as [[w' sh'] e] eqn:E.
  cbn [fst snd] in *.
  destruct (blocked_retry_leaves_no_trace dba_blocked_world
              (1, acme_with_dba) new_worker empty_shared w' sh' e E)
    as (_ & H).
  destruct H as (_ & Q & _ & P & _).
  - rewrite A. apply list_elem_of_here.
  - split; [exact Q | exact P].
Defined.

Section BlockedNames.

Variable wd : world.

(** The engine refuses the exact query for the DBA name, which the
    worker sends after a legal name that was neither found nor
    refused: the iteration puts the record back. *)
Lemma blocked_dba_requeues i r w sh clean_legal w1 cur website status d :
  clean_company_name_cell (LEGAL_NAME r) = Ok clean_legal ->
  try_legal wd r clean_legal w = (w1, Ok (cur, website, status)) ->
  is_status DDG_BLOCKED status = false ->
  is_status TOWING_FOUND status = false ->
  dba_candidate r clean_legal = Some d ->
  snd (search_duckduckgo (ddg wd (searches w1) (exact_query d r)))
  = SearchBlocked ->
  worker_iteration wd (i, r) w sh
  = (count_search (exact_query d r) w1, queue_put (i, r) sh, Requeued).
Proof.
  intros Hname Hlegal Hb Ht Hd Hblocked.
  unfold worker_iteration, try_names. cbn [snd]. rewrite Hname.
  unfold bind at 1. rewrite Hlegal. cbn [fst snd]. rewrite Hb, Ht.
  rewrite (try_dba_candidate wd _ _ _ _ _ _ _ Hd).
  unfold bind at 1. unfold attempt. unfold bind at 1.
  rewrite (process_company_blocked wd _ _ _ Hblocked).
  unfold bind at 1.
  assert (E : forall fuel,
             restart_loop wd fuel r d cur (None, DDG_BLOCKED)
               (count_search (exact_query d r) w1)
             = (count_search (exact_query d r) w1,
                Ok (cur, (None, DDG_BLOCKED)))).
  { intros [|fuel]; reflexivity. }
  rewrite E. reflexivity.
Qed.

End BlockedNames.


(** * How the URLs of a search are collected *)

Lemma first_valid_link_cases links :
  match first_valid_link links with
  | Ok (Some u) => first_eligible_link links u
  | Ok None => Forall passed_over links
  | Raised =>
      exists pre post, links = pre ++ Raised :: post /\ Forall passed_over pre
  end.
Proof.
  induction links as [|[h|] links IH]; cbn [first_valid_link].
  - constructor.
  - destruct (is_valid_url h) eqn:E.
    + destruct h as [u|]; [|discriminate].
      exists [], links. split; [reflexivity|]. split; [constructor | exact E].
    + assert (Hp : passed_over (Ok h)) by (exists h; auto).
      destruct (first_valid_link links) as [[u|]|].
      * destruct IH as (pre & post & -> & Hpre & Hu).
        exists (Ok h :: pre), post. split; [reflexivity|].
        split; [constructor; assumption | exact Hu].
      * constructor; assumption.
      * destruct IH as (pre & post & -> & Hpre).
        exists (Ok h :: pre), post. split; [reflexivity|].
        constructor; assumption.
  - exists [], links. split; [reflexivity | constructor].
Qed.

(** The loop over the result containers takes from each container
    that it reads its first eligible link, and ends at the first
    container that it cannot read. *)
Lemma scan_articles_picks arts urls :
  exists scanned picks rest,
    arts = map Ok scanned ++ rest
    /\ Forall2 taken_from scanned picks
    /\ scan_articles arts urls = urls ++ omap id picks
    /\ (rest = [] \/ exists c tl, rest = c :: tl /\ read_fails c).
Proof.
  revert urls. induction arts as [|[links|] arts IH]; intros urls;
    cbn [scan_articles].
  - exists [], [], []. split; [reflexivity|]. split; [constructor|].
    split; [rewrite app_nil_r; reflexivity | left; reflexivity].
  - pose proof (first_valid_link_cases links) as Hc.
    destruct (first_valid_link links) as [[u|]|].
    + destruct (IH (urls ++ [u])) as (scanned & picks & rest & -> & F & E & R).
      exists (links :: scanned), (Some u :: picks), rest.
      split; [reflexivity|]. split; [constructor; assumption|].
      split; [rewrite E, <- app_assoc; reflexivity | exact R].
    + destruct (IH urls) as (scanned & picks & rest & -> & F & E & R).
      exists (links :: scanned), (None :: picks), rest.
      split; [reflexivity|]. split; [constructor; assumption|].
      split; [exact E | exact R].
    + exists [], [], (Ok links :: arts). split; [reflexivity|].
      split; [constructor|].
      split; [rewrite app_nil_r; reflexivity|].
      right. exists (Ok links), arts. split; [reflexivity | exact Hc].
  - exists [], [], (Raised :: arts). split; [reflexivity|].
    split; [constructor|]. split; [rewrite app_nil_r; reflexivity|].
    right. exists Raised, arts. split; [reflexivity | exact I].
Qed.

Lemma first_occurrences_seen seen seen' l :
  (forall x, existsb (eqb_str x) seen = existsb (eqb_str x) seen') ->
  first_occurrences seen l = first_occurrences seen' l.
Proof.
  revert seen seen'. induction l as [|u l IH]; intros seen seen' H;
    [reflexivity|].
  cbn [first_occurrences]. rewrite <- (H u).
  destruct (existsb (eqb_str u) seen); [apply IH; exact H|].
  f_equal. apply IH. intros x. cbn [existsb]. rewrite (H x). reflexivity.
Qed.

Lemma omap_id_some {A} (x : A) l : omap id (Some x :: l) = x :: omap id l.
Proof. reflexivity. Qed.

(** The fall-back loop keeps, of the links that it reads, the
    eligible ones that are not in the list yet, in their order; it
    ends with the links, at the first link that it cannot read, or
    when the list has twelve URLs. *)
Lemma scan_links_reads links urls :
  length urls < 12 ->
  exists read rest,
    links = map Ok read ++ rest
    /\ scan_links links urls
       = urls ++ first_occurrences urls (List.filter valid (omap id read))
    /\ (rest = [] \/ (exists tl, rest = Raised :: tl)
        \/ length (scan_links links urls) = 12).
Proof.
  revert urls. induction links as [|[[u|]|] links IH]; intros urls Hlen;
    cbn [scan_links].
  - exists [], []. split; [reflexivity|].
    split; [rewrite app_nil_r; reflexivity | left; reflexivity].
  - destruct (is_valid_url (Some u)) eqn:Ev; cbn [andb];
      assert (Hv : valid u = is_valid_url (Some u)) by reflexivity;
      rewrite Ev in Hv.
    + destruct (url_in u urls) eqn:Ein; cbn [negb].
      * destruct (IH urls Hlen) as (read & rest & -> & E & R).
        exists (Some u :: read), rest. split; [reflexivity|].
        split; [|exact R]. rewrite E. rewrite omap_id_some. cbn [List.filter].
        rewrite Hv. cbn [first_occurrences].
        unfold url_in in Ein. rewrite Ein. reflexivity.
      * destruct (12 <=? length (urls ++ [u])) eqn:E12.
        -- exists [Some u], links. split; [reflexivity|].
           rewrite omap_id_some. cbn [List.filter]. rewrite Hv.
           cbn [first_occurrences]. unfold url_in in Ein. rewrite Ein.
           split; [reflexivity|]. right. right.
           apply Nat.leb_le in E12. rewrite length_app in *. simpl in *. lia.
        -- apply Nat.leb_gt in E12.
           destruct (IH (urls ++ [u]) E12) as (read & rest & -> & E & R).
           exists (Some u :: read), rest. split; [reflexivity|].
           split; [|exact R]. rewrite E, <- app_assoc.
           rewrite omap_id_some. cbn [List.filter]. rewrite Hv.
           cbn [first_occurrences]. unfold url_in in Ein. rewrite Ein.
           cbn [app]. do 2 f_equal. apply first_occurrences_seen.
           intros x. rewrite existsb_app. cbn [existsb].
           rewrite orb_false_r. apply orb_comm.
    + destruct (IH urls Hlen) as (read & rest & -> & E & R).
      exists (Some u :: read), rest. split; [reflexivity|].
      split; [|exact R]. rewrite E. rewrite omap_id_some. cbn [List.filter].
      rewrite Hv. reflexivity.
  - destruct (IH urls Hlen) as (read & rest & -> & E & R).
    exists (None :: read), rest. split; [reflexivity|].
    split; [exact E | exact R].
  - exists [], (Raised :: links). split; [reflexivity|].
    split; [rewrite app_nil_r; reflexivity|].
    right. left. exists links. reflexivity.
Qed.

Lemma extract_urls_eq dom :
  extract_urls_from_ddg dom
  = if length (scan_articles (containers dom) []) <? 5
    then scan_links (raw_links dom) (scan_articles (containers dom) [])
    else scan_articles (containers dom) [].
Proof.
  unfold extract_urls_from_ddg, containers, raw_links.
  destruct (dom_articles dom) as [arts|];
    destruct (dom_all_links dom) as [links|]; cbn [scan_articles scan_links];
    reflexivity.
Qed.

(** C7 (as amended). The URLs of a successful search are at most
    twelve, each eligible, and consist of two parts. The first part
    is collected from the result containers, of which at most the
    first twelve are looked at: from each container that is read,
    its first eligible link is taken, and nothing when it has none,
    one link per container and in the order of the containers; the
    scan ends at the first container that cannot be read. The second
    part is empty unless the first has fewer than five URLs; it then
    consists of the links, among the first thirty raw hyperlinks,
    that are eligible and not yet in the list when they are read, in
    their order, the scan ending with the links, at the first link
    that cannot be read, or when the list has twelve URLs. The links
    of the second part are pairwise distinct and distinct from the
    links of the first part. Duplicates can occur among the container
    links only: when those are pairwise distinct, the whole sequence
    is. *)
Theorem search_success_urls pg urls :
  search_duckduckgo pg = (urls, SearchOk) ->
  exists top extra,
    urls = top ++ extra
    /\ length top <= 12
    /\ length urls <= 12
    /\ Forall eligible urls
    /\ (extra <> [] -> length top < 5)
    /\ NoDup extra
    /\ (forall u, u ∈ extra -> ~ (u ∈ top))
    /\ (NoDup top -> NoDup urls)
    /\ (forall u, u ∈ top ->
          exists arts links,
            dom_articles (dp_dom pg) = Ok arts
            /\ Ok links ∈ firstn 12 arts /\ Ok (Some u) ∈ links)
    /\ (forall u, u ∈ extra ->
          exists links,
            dom_all_links (dp_dom pg) = Ok links
            /\ Ok (Some u) ∈ firstn 30 links)
    /\ (exists scanned picks rest,
          containers (dp_dom pg) = map Ok scanned ++ rest
          /\ Forall2 taken_from scanned picks
          /\ top = omap id picks
          /\ (rest = [] \/ exists c tl, rest = c :: tl /\ read_fails c))
    /\ (length top < 5 ->
        exists read rest,
          raw_links (dp_dom pg) = map Ok read ++ rest
          /\ extra
             = first_occurrences top (List.filter valid (omap id read))
          /\ (rest = [] \/ (exists tl, rest = Raised :: tl)
              \/ length urls = 12)).
Proof.
  intros H. apply search_ok_extracts in H. subst urls.
  rewrite extract_urls_eq.
  set (dom := dp_dom pg).
  destruct (scan_articles_spec (containers dom) [])
    as (top & Etop & Hlen & Hel & Hfrom).
  destruct (scan_articles_picks (containers dom) [])
    as (scanned & picks & rest & Ec & F & Epicks & Hrest).
  cbn [app] in Etop, Epicks. rewrite Etop in *.
  assert (Hlen12 : length top <= 12).
  { etransitivity; [exact Hlen|]. unfold containers.
    destruct (dom_articles dom); [rewrite length_firstn; lia | simpl; lia]. }
  assert (Hfrom' : forall u, u ∈ top ->
            exists arts links,
              dom_articles dom = Ok arts
              /\ Ok links ∈ firstn 12 arts /\ Ok (Some u) ∈ links).
  { intros u Hu. destruct (Hfrom u Hu) as (links & H1 & H2).
    unfold containers in H1. destruct (dom_articles dom) as [arts|];
      [|inversion H1]. exists arts, links. auto. }
  assert (Hcollect : exists scanned picks rest,
            containers dom = map Ok scanned ++ rest
            /\ Forall2 taken_from scanned picks
            /\ top = omap id picks
            /\ (rest = [] \/ exists c tl, rest = c :: tl /\ read_fails c)).
  { exists scanned, picks, rest. auto. }
  destruct (length top <? 5) eqn:E5.
  - apply Nat.ltb_lt in E5.
    destruct (scan_links_spec (raw_links dom) top)
      as (added & Ea & Hl & Hva & Hnd & Hpa).
    destruct (scan_links_reads (raw_links dom) top)
      as (read & rest' & Er & Eread & Hstop); [lia|].
    assert (Eadded : added
                     = first_occurrences top
                         (List.filter valid (omap id read))).
    { rewrite Ea in Eread. apply app_inv_head in Eread. exact Eread. }
    rewrite Ea in *.
    exists top, added. split; [reflexivity|]. split; [exact Hlen12|].
    split; [apply Hl; lia|].
    split; [apply Forall_app; split; assumption|].
    split; [intros _; exact E5|]. split; [exact Hnd|].
    split; [intros u Hu; apply Hpa; exact Hu|].
    split.
    { intros Hndt. apply NoDup_app. repeat split; auto.
      intros u Hu Hu'. destruct (Hpa u Hu') as [Hn _]. exact (Hn Hu). }
    split; [exact Hfrom'|].
    split.
    { intros u Hu. destruct (Hpa u Hu) as [_ Hin].
      unfold raw_links in Hin. destruct (dom_all_links dom) as [links|];
        [|inversion Hin]. exists links. auto. }
    split; [exact Hcollect|].
    intros _. exists read, rest'. auto.
  - apply Nat.ltb_ge in E5.
    exists top, []. rewrite app_nil_r.
    split; [reflexivity|]. split; [exact Hlen12|]. split; [exact Hlen12|].
    split; [exact Hel|]. split; [congruence|]. split; [apply NoDup_nil_2|].
    split; [intros u Hu; inversion Hu|]. split; [auto|].
    split; [exact Hfrom'|]. split; [intros u Hu; inversion Hu|].
    split; [exact Hcollect|]. intros Hlt. lia.
Qed.

Lemma search_success_urls_witness :
  search_duckduckgo mixed_results_page = ([url_a; url_b], SearchOk)
  /\ length [url_a; url_b] <= 12.
Proof.
  assert (E : search_duckduckgo mixed_results_page
              = ([url_a; url_b], SearchOk)) by (vm_compute; reflexivity).
  split; [exact E|].
  destruct (search_success_urls mixed_results_page [url_a; url_b] E)
    as (top & extra & _ & _ & H & _).
  exact H.
Defined.

(** * Runs with their events *)

Lemma traced_step_step s ev s' :
  traced_step s ev s' -> step s (label_of ev) s'.
Proof.
  intros H. destruct H; cbn [label_of].
  - eapply step_pop; eassumption.
  - eapply step_exit; eassumption.
  - eapply step_end; eassumption.
Qed.

(** The runs with events are the runs: forgetting the events of a
    traced run gives a run, and every run is obtained so. *)
Lemma traced_run_run s evs s' :
  traced_run s evs s' -> run s (map label_of evs) s'.
Proof.
  induction 1 as [s | s ev s1 evs s2 Hstep _ IH]; [apply run_nil|].
  cbn [map]. eapply run_cons; [apply traced_step_step; exact Hstep|].
  exact IH.
Qed.

Lemma run_traced s tr s' :
  run s tr s' -> exists evs, traced_run s evs s' /\ map label_of evs = tr.
Proof.
  induction 1 as [s | s l s1 tr s2 Hstep _ (evs & IH & Hl)].
  - exists []. split; [apply trun_nil | reflexivity].
  - destruct Hstep as [sh ws i w item q Hi Hq | sh ws i w Hi Hq
                      | sh ws i w item wd w' sh' e Hi Hw].
    + exists (EPop i item :: evs). split; [|cbn [map label_of]; congruence].
      eapply trun_cons; [eapply tstep_pop; eassumption | exact IH].
    + exists (EExit i :: evs). split; [|cbn [map label_of]; congruence].
      eapply trun_cons; [eapply tstep_exit; eassumption | exact IH].
    + exists (EEnd i item wd w w' e :: evs).
      split; [|cbn [map label_of]; congruence].
      eapply trun_cons; [eapply tstep_end; eassumption | exact IH].
Qed.

Lemma worker_iteration_fetched i wd item w sh w' sh' e k en :
  worker_iteration wd item w sh = (w', sh', e) ->
  results_dict sh' !! k = Some en ->
  results_dict sh !! k = Some en
  \/ fetched_and_checked (EEnd i item wd w w' e) k en.
Proof.
  unfold worker_iteration.
  destruct (try_names_within wd (snd item) w) as (w1 & res & E & _ & Hres).
  rewrite E. destruct res as [[|found website status]|];
    intros H; injection H as <- <- <-; try (left; assumption).
  unfold save_result. cbn [results_dict].
  destruct found; [|left; assumption].
  destruct Hres as (url & -> & _ & Hv).
  destruct (decide (k = DOT_NUMBER (snd item))) as [-> | Hne].
  - rewrite lookup_insert_eq. intros H. injection H as <-. right.
    cbn [fetched_and_checked]. split; [reflexivity|].
    split; [reflexivity|].
    destruct Hv as [[H _] | (url' & n & text & Hu & _ & Hn & Hrest)];
      [discriminate|].
    injection Hu as <-. exists url, n, text.
    split; [reflexivity|].
    pose proof (refresh_context_within wd w1) as (_ & Hf & _).
    split; [rewrite Hf; exact Hn | exact Hrest].
  - rewrite lookup_insert_ne by congruence. left. assumption.
Qed.

Lemma traced_run_entries s evs s' k en :
  traced_run s evs s' ->
  results_dict (fst s') !! k = Some en ->
  results_dict (fst s) !! k = Some en
  \/ exists ev, ev ∈ evs /\ fetched_and_checked ev k en.
Proof.
  induction 1 as [s | s ev s1 evs s2 Hstep _ IH]; intros Hen;
    [left; exact Hen|].
  destruct (IH Hen) as [H1 | (ev' & Hin & Hc)].
  2:{ right. exists ev'. split; [apply list_elem_of_further; exact Hin|].
      exact Hc. }
  destruct Hstep as [sh ws i w item q Hi Hq | sh ws i w Hi Hq
                    | sh ws i w item wd w' sh' e Hi Hw];
    cbn [fst] in *; try (left; exact H1).
  destruct (worker_iteration_fetched i _ _ _ _ _ _ _ _ _ Hw H1) as [H | H];
    [left; exact H|].
  right. eexists. split; [apply list_elem_of_here | exact H].
Qed.

Lemma found_trace_runs :
  exists evs s,
    traced_run (start_workers (main_setup (str "2026-01-01T00:00:00")
                                 two_records ∅ ∅)) evs s
    /\ map label_of evs = found_run
    /\ WEBSITE_URL <$> results_dict (fst s) !! 1002%Z
       = Some (Some acme_site).
Proof.
  unfold found_run, start_workers. eexists. eexists. split.
  - eapply trun_cons; [eapply (tstep_pop _ _ 0); reflexivity|].
    eapply trun_cons.
    { eapply (tstep_end _ _ 0 _ _ found_world); [reflexivity|].
      vm_compute. reflexivity. }
    eapply trun_cons; [eapply (tstep_exit _ _ 0); reflexivity|].
    eapply trun_cons; [eapply (tstep_exit _ _ 1); reflexivity|].
    eapply trun_cons; [eapply (tstep_exit _ _ 2); reflexivity|].
    eapply trun_cons; [eapply (tstep_exit _ _ 3); reflexivity|].
    apply trun_nil.
  - split; [reflexivity | vm_compute; reflexivity].
Qed.

(** Where every stored result comes from. At every point of every
    run that [main] starts, an entry of the result store is the
    entry that the results file had for the identifier, or was
    written by the auto-approve loop for a row with a service term in
    its name, or was saved by an iteration of the run: an event of
    the run in which a worker, working on the record with that
    identifier, fetched the entry's web site from its renderer and
    got a text that was not empty and passed the address check and
    the keyword check for the record. *)
Theorem stored_results_origin stamp df checkpoint loaded evs s k en :
  traced_run (start_workers (main_setup stamp df checkpoint loaded)) evs s ->
  results_dict (fst s) !! k = Some en ->
  loaded !! k = Some en
  \/ approved_entry df k en
  \/ exists ev, ev ∈ evs /\ fetched_and_checked ev k en.
Proof.
  intros Hrun Hen.
  destruct (traced_run_entries _ _ _ _ _ Hrun Hen) as [H0 | Hc];
    [|right; right; exact Hc].
  unfold start_workers, main_setup in H0. cbn [fst results_dict] in H0.
  destruct (auto_approve_entries _ _ _ _ _ _ H0) as [Hl | (H1 & H2 & H3)];
    [left; exact Hl|].
  right. left. apply list_elem_of_In, filter_In in H2 as [H2 Htow].
  split; [exact H1|]. split; [apply list_elem_of_In; exact H2|].
  split; [exact Htow | exact H3].
Qed.

Lemma stored_results_origin_witness :
  exists (evs : list event) (en : result),
    WEBSITE_URL en = Some acme_site
    /\ ((∅ : gmap Z result) !! 1002%Z = Some en
        \/ approved_entry two_records 1002 en
        \/ exists ev, ev ∈ evs /\ fetched_and_checked ev 1002 en).
Proof.
  destruct found_trace_runs as (evs & s & Hrun & _ & H2).
  destruct (results_dict (fst s) !! 1002%Z) as [en|] eqn:E;
    [|discriminate].
  exists evs, en. split; [injection H2 as ->; reflexivity|].
  exact (stored_results_origin _ _ _ _ _ _ _ _ Hrun E).
Defined.

(** * What [main] queues, and resuming *)

Lemma filter_filter_ext {A} (p1 p2 q : A -> bool) l :
  (forall x, x ∈ l -> p1 x && p2 x = q x) ->
  List.filter p2 (List.filter p1 l) = List.filter q l.
Proof.
  induction l as [|x l IH]; intros H; [reflexivity|].
  assert (Hx := H x (list_elem_of_here _ _)).
  assert (Hl : forall y, y ∈ l -> p1 y && p2 y = q y).
  { intros y Hy. apply H. apply list_elem_of_further. exact Hy. }
  cbn [List.filter]. rewrite <- Hx.
  destruct (p1 x); cbn [List.filter andb].
  - destruct (p2 x); rewrite (IH Hl); reflexivity.
  - apply IH. exact Hl.
Qed.

(** What [main] queues. When the data frame is not empty and its
    identifiers are pairwise distinct, the queue holds, in the order
    of the data frame, exactly the rows whose name has no service
    term and whose identifier is neither in the checkpoint nor in
    the results file; it numbers them 1, 2, ... in that order, and
    the queued identifiers are pairwise distinct. *)
Theorem main_setup_accounts stamp df checkpoint loaded :
  df <> [] ->
  NoDup (map DOT_NUMBER df) ->
  map snd (queue (main_setup stamp df checkpoint loaded))
  = List.filter (to_search checkpoint loaded) df
  /\ map fst (queue (main_setup stamp df checkpoint loaded))
     = seq 1 (length (List.filter (to_search checkpoint loaded) df))
  /\ NoDup (map item_id (queue (main_setup stamp df checkpoint loaded)))
  /\ (forall r, r ∈ df ->
        (exists idx,
            (idx, r) ∈ queue (main_setup stamp df checkpoint loaded))
        <-> (has_tow_name r = false
             /\ ~ (DOT_NUMBER r ∈ checkpoint)
             /\ loaded !! DOT_NUMBER r = None)).
Proof.
  intros _ Hnd.
  assert (Horder : map snd (queue (main_setup stamp df checkpoint loaded))
                   = List.filter (to_search checkpoint loaded) df).
  { unfold main_setup. cbn [queue]. rewrite enumerate_from_snd.
    apply filter_filter_ext. intros r Hr. unfold to_search.
    destruct (has_tow_name r) eqn:Htow; [reflexivity|]. cbn [negb andb].
    destruct (auto_approve_others stamp (List.filter has_tow_name df)
                loaded checkpoint (DOT_NUMBER r)
                (NoDup_map_other DOT_NUMBER has_tow_name df r Hnd Hr Htow))
      as [H1 H2].
    f_equal. apply bool_decide_ext.
    rewrite !elem_of_union, H2, !elem_of_dom, H1. reflexivity. }
  split; [exact Horder|].
  split.
  { rewrite <- Horder, length_map. unfold main_setup. cbn [queue].
    rewrite enumerate_from_fst, enumerate_from_length. reflexivity. }
  split.
  { unfold main_setup. cbn [queue]. rewrite enumerate_from_ids.
    do 2 apply NoDup_map_filter. exact Hnd. }
  intros r Hr.
  assert (Hq : (exists idx,
                   (idx, r) ∈ queue (main_setup stamp df checkpoint loaded))
               <-> r ∈ List.filter (to_search checkpoint loaded) df).
  { rewrite <- Horder. split.
    - intros (idx & Hin). apply list_elem_of_fmap.
      exists (idx, r). split; [reflexivity | exact Hin].
    - intros Hin. apply list_elem_of_fmap in Hin as ([idx r'] & Heq & Hin).
      cbn [snd] in Heq. subst r'. exists idx. exact Hin. }
  rewrite Hq, list_elem_of_In, filter_In. unfold to_search.
  rewrite andb_true_iff, !negb_true_iff, bool_decide_eq_false,
    elem_of_union, elem_of_dom.
  split.
  - intros (_ & Htow & Hdone). split; [exact Htow|].
    split; [tauto|].
    destruct (loaded !! DOT_NUMBER r) eqn:E; [|reflexivity].
    exfalso. apply Hdone. right. eexists. reflexivity.
  - intros (Htow & Hc & Hl). split; [apply list_elem_of_In; exact Hr|].
    split; [exact Htow|]. intros [H | [e He]]; [tauto | congruence].
Qed.

Lemma main_setup_accounts_witness :
  map snd (queue (main_setup (str "t") two_records ∅ ∅)) = [acme_recovery]
  /\ map fst (queue (main_setup (str "t") two_records ∅ ∅)) = [1].
Proof.
  assert (Hnd : NoDup (map DOT_NUMBER two_records)).
  { simpl. apply NoDup_cons. split.
    - rewrite list_elem_of_singleton. discriminate.
    - apply NoDup_singleton. }
  assert (Hne : two_records <> []) by discriminate.
  destruct (main_setup_accounts (str "t") two_records ∅ ∅ Hne Hnd)
    as (H1 & H2 & _).
  assert (E : List.filter (to_search ∅ ∅) two_records = [acme_recovery])
    by (vm_compute; reflexivity).
  rewrite E in H1, H2. split; [exact H1 | exact H2].
Defined.

(** Resuming. After a complete run in which no iteration raised and
    which left at least one entry in the result store, a second start
    of [main] on the same data frame, with the checkpoint that the
    first run wrote and a results file that has kept the identifiers
    of the result store, finds nothing left to search: its queue is
    empty. (With an empty result store the results file that the
    first run writes has no columns, and reading it fails.) *)
Theorem resume_after_complete_run stamp stamp' df checkpoint loaded tr s
    loaded' :
  df <> [] ->
  run (start_workers (main_setup stamp df checkpoint loaded)) tr s ->
  completed s ->
  dropped_ids tr = [] ->
  results_dict (fst s) <> ∅ ->
  dom (results_dict (fst s)) ⊆ dom loaded' ->
  queue (main_setup stamp' df (processed_dots (fst s)) loaded') = [].
Proof.
  intros _ Hrun [Hq Hex] Hdrop _ Hdom.
  assert (HP := run_pending _ _ _ Hrun).
  unfold pending_ids, start_workers in HP. cbn [fst snd] in HP.
  rewrite Hq, (in_flight_exited _ Hex), in_flight_start, Hdrop in HP.
  cbn [map app] in HP. rewrite !app_nil_r in HP.
  destruct (run_processed _ _ _ Hrun) as [Hp _].
  unfold start_workers in Hp. cbn [fst] in Hp.
  assert (Hkeep := fun k => run_keeps _ _ _ k Hrun).
  unfold start_workers in Hkeep. cbn [fst] in Hkeep.
  unfold main_setup in HP, Hp, Hkeep.
  cbn [queue processed_dots results_dict] in HP, Hp, Hkeep.
  rewrite enumerate_from_ids in HP.
  set (aa0 := auto_approve stamp (List.filter has_tow_name df) loaded
                checkpoint) in *.
  unfold main_setup. cbn [queue].
  set (aa := auto_approve stamp' (List.filter has_tow_name df) loaded'
               (processed_dots (fst s))).
  rewrite (filter_none
             (fun r => negb (bool_decide
                               (DOT_NUMBER r ∈ snd aa ∪ dom (fst aa))))
             (List.filter (fun r => negb (has_tow_name r)) df));
    [reflexivity|].
  intros r Hr. apply negb_false_iff, bool_decide_eq_true.
  assert (Hproc : forall k, k ∈ processed_dots (fst s) -> k ∈ snd aa).
  { intros k Hk. apply auto_approve_processed_mono. exact Hk. }
  destruct (decide (DOT_NUMBER r ∈ snd aa0 ∪ dom (fst aa0))) as [Hdone | Hnot].
  - apply elem_of_union in Hdone as [Hd | Hd].
    + apply elem_of_union_l, Hproc. rewrite Hp.
      apply elem_of_union_r. exact Hd.
    + apply elem_of_union_r. apply elem_of_dom in Hd.
      apply Hkeep in Hd. apply elem_of_dom in Hd. apply Hdom in Hd.
      apply elem_of_dom in Hd as [e He]. apply elem_of_dom.
      exists e. apply auto_approve_keeps. exact He.
  - apply elem_of_union_l, Hproc. rewrite Hp. apply elem_of_union_l.
    apply elem_of_list_to_set. rewrite HP.
    apply list_elem_of_fmap. exists r. split; [reflexivity|].
    apply list_elem_of_In, filter_In. split; [apply list_elem_of_In; exact Hr|].
    apply negb_true_iff, bool_decide_eq_false. exact Hnot.
Qed.

Lemma resume_after_complete_run_witness :
  exists s,
    completed s
    /\ queue (main_setup (str "2026-01-02T00:00:00") two_records
                (processed_dots (fst s)) (results_dict (fst s))) = [].
Proof.
  destruct found_run_runs as (s & Hrun & Hc & H2 & _).
  exists s. split; [exact Hc|].
  assert (Hne : two_records <> []) by discriminate.
  apply (resume_after_complete_run _ _ _ _ _ _ _ _ Hne Hrun Hc).
  - reflexivity.
  - intros He. rewrite He, lookup_empty in H2. discriminate.
  - reflexivity.
Defined.
